(** * Torii's Python simulator ([torii/sim/pysim.py]): timeline, signal
    slots, simulation state, engine stepping and trace recorder; and the
    build plan of [torii/build/run.py].

    The development follows the source class by class.  Python objects that
    are used as dictionary keys or set members by identity (processes,
    signal slots, signals) are represented by natural-number handles; the
    mutable attributes of a process ([runnable], [passive]) live in a
    process store indexed by handle. *)

From Stdlib Require Import Ascii String.
From stdpp Require Import gmap strings list fin_maps pretty sorting.

#[local] Open Scope Z_scope.

(** ** Exceptions and fallible computations *)

Inductive exn : Type :=
  | AssertionError
  | IndexError
  | KeyError
  | AttributeError
  | NameError (msg : string)
  | ValueError
  | TypeError
  | OSError
  | VCDPhaseError.

Inductive result (A : Type) : Type :=
  | Ok (a : A)
  | Raise (e : exn).
Arguments Ok {A} a.
Arguments Raise {A} e.

#[export] Instance result_ret : MRet result := λ A a, Ok a.
#[export] Instance result_bind : MBind result := λ A B k m,
  match m with
  | Ok a => k a
  | Raise e => Raise e
  end.

(** ** Processes

    The engine only relies on the two flags of the process interface; what
    [run()] does is supplied by the process compiler, the clock process and
    the coroutine process, none of which is part of this file. *)

Abbreviation pid := nat (only parsing).

Record Process : Type := mkProcess {
  runnable : bool;
  passive : bool
}.

Abbreviation ProcStore := (gmap nat Process) (only parsing).

(** [process.runnable = True] *)
Definition wake (process : pid) (procs : ProcStore) : ProcStore :=
  alter (λ pr, mkProcess true (passive pr)) process procs.

Definition is_runnable (procs : ProcStore) (process : pid) : bool :=
  match procs !! process with
  | Some pr => runnable pr
  | None => false
  end.

(** ** [_Timeline] *)

Module _Timeline.

(** [deadlines] is a Python dict: insertion ordered, keys unique.  The loop
    of [advance] leaves early, so the order is kept. *)
Record t : Type := mk {
  now : Z;
  deadlines : list (pid * option Z)
}.

Definition init : t := mk 0 [].

Definition reset (self : t) : t := mk 0 [].

Definition registered (process : pid) (self : t) : bool :=
  bool_decide (process ∈ (deadlines self).*1).

(** [at]: the assertion refuses a second registration of a process. *)
Definition at_ (self : t) (run_at : option Z) (process : pid) : result t :=
  if registered process self then Raise AssertionError
  else Ok (mk (now self) (deadlines self ++ [(process, run_at)])).

Definition delay (self : t) (delay_by : option Z) (process : pid) : result t :=
  let run_at :=
    match delay_by with
    | None => now self
    | Some d => now self + d
    end in
  at_ self (Some run_at) process.

(** The [for] loop of [advance] over [self.deadlines.items()], carrying
    [nearest_processes] and [nearest_deadline]. *)
Fixpoint scan (now : Z) (items : list (pid * option Z))
    (nearest_processes : gset nat) (nearest_deadline : option Z)
    : result (gset nat * option Z) :=
  match items with
  | [] => Ok (nearest_processes, nearest_deadline)
  | (process, None) :: _ =>
      let cleared :=
        match nearest_deadline with
        | Some _ => ∅
        | None => nearest_processes
        end in
      (* break *)
      Ok ({[process]} ∪ cleared, Some now)
  | (process, Some deadline) :: rest =>
      if match nearest_deadline with
         | None => true
         | Some nd => bool_decide (deadline ≤ nd)
         end
      then
        if bool_decide (now ≤ deadline) then
          let cleared :=
            match nearest_deadline with
            | Some nd =>
                if bool_decide (deadline < nd) then ∅ else nearest_processes
            | None => nearest_processes
            end in
          scan now rest ({[process]} ∪ cleared) (Some deadline)
        else Raise AssertionError
      else scan now rest nearest_processes nearest_deadline
  end.

(** [del self.deadlines[process]] *)
Definition del (process : pid) (ds : list (pid * option Z))
    : list (pid * option Z) :=
  filter (λ e, e.1 ≠ process) ds.

(** The second loop: [process.runnable = True; del self.deadlines[process]]
    for every member of [nearest_processes]. *)
Fixpoint wake_all (nearest : list pid) (ds : list (pid * option Z))
    (procs : ProcStore) : list (pid * option Z) * ProcStore :=
  match nearest with
  | [] => (ds, procs)
  | process :: rest => wake_all rest (del process ds) (wake process procs)
  end.

(** [nearest_deadline] is assigned whenever a process is added to
    [nearest_processes], so it is a number once the set is not empty. *)
Definition advance (self : t) (procs : ProcStore)
    : result (t * ProcStore * bool) :=
  '(nearest_processes, nearest_deadline) ←
      scan (now self) (deadlines self) ∅ None;
  if bool_decide (nearest_processes = ∅) then Ok (self, procs, false)
  else
    let '(ds, procs') :=
      wake_all (elements nearest_processes) (deadlines self) procs in
    Ok (mk (default (now self) nearest_deadline) ds, procs', true).

End _Timeline.

(** ** Signals

    A signal is a key by identity ([sig_id] stands for the object identity
    that [SignalDict] keys by); the other fields are the attributes the
    simulator reads.  The decoder is code of the user of the simulator:
    [decoder value] is the string that [signal.decoder(value)] returns, or
    the exception it raises. *)

Module Signal.
Record t : Type := mk {
  sig_id : nat;
  name : string;
  width : nat;
  reset : Z;
  decoder : option (Z → result string)
}.
End Signal.

(** ** [_PySignalState] *)

Module _PySignalState.

(** The [pending] attribute of a slot is a reference to the one pending set
    of the simulation that owns the slot: it is not copied into the record,
    the operations below take and return the shared set.  A slot is a
    member of that set by identity, which is its index in [slots]. *)
Record t : Type := mk {
  signal : Signal.t;
  curr : Z;
  next : Z;
  waiters : gmap nat (option Z)
}.

Definition init (signal : Signal.t) : t :=
  mk signal (Signal.reset signal) (Signal.reset signal) ∅.

Definition set (self : t) (self_index : nat) (pending : gset nat) (value : Z)
    : t * gset nat :=
  if bool_decide (next self = value) then (self, pending)
  else (mk (signal self) (curr self) value (waiters self),
        {[self_index]} ∪ pending).

(** [trigger is None or trigger == self.curr] *)
Definition triggers (trigger : option Z) (curr : Z) : bool :=
  match trigger with
  | None => true
  | Some v => bool_decide (v = curr)
  end.

(** The loop of [commit] over [self.waiters.items()]. *)
Fixpoint wake_waiters (curr : Z) (items : list (pid * option Z))
    (procs : ProcStore) (awoken_any : bool) : ProcStore * bool :=
  match items with
  | [] => (procs, awoken_any)
  | (process, trigger) :: rest =>
      if triggers trigger curr
      then wake_waiters curr rest (wake process procs) true
      else wake_waiters curr rest procs awoken_any
  end.

Definition commit (self : t) (procs : ProcStore) : t * ProcStore * bool :=
  if bool_decide (curr self = next self) then (self, procs, false)
  else
    let self' := mk (signal self) (next self) (next self) (waiters self) in
    let '(procs', awoken_any) :=
      wake_waiters (curr self') (map_to_list (waiters self')) procs false in
    (self', procs', awoken_any).

End _PySignalState.

(** ** [_PySimulation] *)

Module _PySimulation.

(** [signals] is a [SignalDict]: it stores, under the identity of the key,
    the key signal itself and the slot index. *)
Record t : Type := mk {
  timeline : _Timeline.t;
  signals : gmap nat (Signal.t * nat);
  slots : list _PySignalState.t;
  pending : gset nat
}.

Definition init : t := mk _Timeline.init ∅ [] ∅.

(** [self.slots[index].curr = self.slots[index].next = signal.reset] *)
Definition reset_slot (slots : list _PySignalState.t)
    (item : Signal.t * nat) : result (list _PySignalState.t) :=
  let '(signal, index) := item in
  match slots !! index with
  | Some slot =>
      Ok (<[index := _PySignalState.mk (_PySignalState.signal slot)
                       (Signal.reset signal) (Signal.reset signal)
                       (_PySignalState.waiters slot)]> slots)
  | None => Raise IndexError
  end.

Fixpoint reset_slots (items : list (Signal.t * nat))
    (slots : list _PySignalState.t) : result (list _PySignalState.t) :=
  match items with
  | [] => Ok slots
  | item :: rest => slots' ← reset_slot slots item; reset_slots rest slots'
  end.

Definition reset (self : t) : result t :=
  let timeline' := _Timeline.reset (timeline self) in
  slots' ← reset_slots (map_to_list (signals self)).*2 (slots self);
  Ok (mk timeline' (signals self) slots' ∅).

Definition get_signal (self : t) (signal : Signal.t) : t * nat :=
  match signals self !! Signal.sig_id signal with
  | Some (_, index) => (self, index)
  | None =>
      let index := length (slots self) in
      (mk (timeline self)
          (<[Signal.sig_id signal := (signal, index)]> (signals self))
          (slots self ++ [_PySignalState.init signal])
          (pending self),
       index)
  end.

(** [self.slots[index].waiters] after an update by [f], for [add_trigger] and
    [remove_trigger]. *)
Definition with_waiters (self : t) (index : nat)
    (f : gmap nat (option Z) → result (gmap nat (option Z))) : result t :=
  match slots self !! index with
  | Some slot =>
      waiters' ← f (_PySignalState.waiters slot);
      Ok (mk (timeline self) (signals self)
            (<[index := _PySignalState.mk (_PySignalState.signal slot)
                          (_PySignalState.curr slot)
                          (_PySignalState.next slot) waiters']> (slots self))
            (pending self))
  | None => Raise IndexError
  end.

Definition add_trigger (self : t) (process : pid) (signal : Signal.t)
    (trigger : option Z) : result t :=
  let '(self, index) := get_signal self signal in
  with_waiters self index (λ waiters,
    match waiters !! process with
    | Some registered =>
        if bool_decide (registered = trigger)
        then Ok (<[process := trigger]> waiters)
        else Raise AssertionError
    | None => Ok (<[process := trigger]> waiters)
    end).

Definition remove_trigger (self : t) (process : pid) (signal : Signal.t)
    : result t :=
  let '(self, index) := get_signal self signal in
  with_waiters self index (λ waiters,
    match waiters !! process with
    | Some _ => Ok (delete process waiters)
    | None => Raise AssertionError
    end).

Definition wait_interval (self : t) (process : pid) (interval : option Z)
    : result t :=
  timeline' ← _Timeline.delay (timeline self) interval process;
  Ok (mk timeline' (signals self) (slots self) (pending self)).

(** What a process does to drive a signal: [state.slots[index].set(value)]. *)
Definition slot_set (self : t) (index : nat) (value : Z) : result t :=
  match slots self !! index with
  | Some slot =>
      let '(slot', pending') :=
        _PySignalState.set slot index (pending self) value in
      Ok (mk (timeline self) (signals self) (<[index := slot']> (slots self))
            pending')
  | None => Raise IndexError
  end.

(** The loop of [commit] over [self.pending].  The members of the Python
    set are slot objects; a handle that names no slot cannot occur there
    and is passed over. *)
Fixpoint commit_slots (indices : list nat) (slots : list _PySignalState.t)
    (procs : ProcStore) (converged : bool)
    : list _PySignalState.t * ProcStore * bool :=
  match indices with
  | [] => (slots, procs, converged)
  | index :: rest =>
      match slots !! index with
      | Some slot =>
          let '(slot', procs', awoken) := _PySignalState.commit slot procs in
          commit_slots rest (<[index := slot']> slots) procs'
            (if awoken then false else converged)
      | None => commit_slots rest slots procs converged
      end
  end.

Definition commit (self : t) (procs : ProcStore) (changed : option (gset nat))
    : t * ProcStore * option (gset nat) * bool :=
  let '(slots', procs', converged) :=
    commit_slots (elements (pending self)) (slots self) procs true in
  let changed' := (λ c, c ∪ pending self) <$> changed in
  (mk (timeline self) (signals self) slots' ∅, procs', changed', converged).

End _PySimulation.

(** ** Fragments (read only)

    The elaborated design is built elsewhere; these are the attributes the
    simulator reads.  A statement may still name a domain's clock or reset
    by [ClockSignal]/[ResetSignal], which are not signals. *)

Inductive SigRef : Type :=
  | ASignal (signal : Signal.t)
  | AClockSignal (domain : string)
  | AResetSignal (domain : string).

Record ClockDomain : Type := mkClockDomain {
  clk : Signal.t;
  rst : option Signal.t
}.

Record Statement : Type := mkStatement {
  _lhs_signals : list SigRef;
  _rhs_signals : list SigRef
}.

Inductive Fragment : Type := mkFragment {
  drivers : list (option string * list Signal.t);
  domains : list (string * ClockDomain);
  statements : list Statement;
  subfragments : list (Fragment * option string)
}.

(** [dict[key]] on an insertion-ordered dictionary with string keys *)
Fixpoint getitem {A} (d : list (string * A)) (key : string) : result A :=
  match d with
  | [] => Raise KeyError
  | (k, v) :: rest => if bool_decide (k = key) then Ok v else getitem rest key
  end.

(** ** [_NameExtractor] *)

Module _NameExtractor.

(** A hierarchical name, the tuple of the hierarchy followed by
    [signal.name], is kept as the pair of its scope and its leaf; [names] is
    a [SignalDict] of sets of them. *)
Abbreviation hname := (list string * string)%type (only parsing).
Abbreviation names_t := (list (Signal.t * list (list string * string)))
  (only parsing).

(** [set.add] *)
Definition set_add (x : hname) (xs : list hname) : list hname :=
  if bool_decide (x ∈ xs) then xs else xs ++ [x].

Fixpoint add_name (names : names_t) (signal : Signal.t) (x : hname)
    : names_t :=
  match names with
  | [] => [(signal, [x])]
  | (s, xs) :: rest =>
      if bool_decide (Signal.sig_id s = Signal.sig_id signal)
      then (s, set_add x xs) :: rest
      else (s, xs) :: add_name rest signal x
  end.

Definition add_signal_name (hierarchy : list string) (names : names_t)
    (signal : Signal.t) : names_t :=
  add_name names signal (hierarchy, Signal.name signal).

(** The first loop, over [fragment.drivers.items()]. *)
Fixpoint domain_loop (domains : list (string * ClockDomain))
    (hierarchy : list string)
    (items : list (option string * list Signal.t)) (names : names_t)
    : result names_t :=
  match items with
  | [] => Ok names
  | (None, _) :: rest => domain_loop domains hierarchy rest names
  | (Some domain_name, _) :: rest =>
      domain ← getitem domains domain_name;
      let names := add_signal_name hierarchy names (clk domain) in
      let names :=
        match rst domain with
        | Some r => add_signal_name hierarchy names r
        | None => names
        end in
      domain_loop domains hierarchy rest names
  end.

Definition add_ref (hierarchy : list string) (names : names_t)
    (signal : SigRef) : names_t :=
  match signal with
  | ASignal s => add_signal_name hierarchy names s
  | AClockSignal _ | AResetSignal _ => names
  end.

(** The second loop, over [fragment.statements]. *)
Definition statement_loop (hierarchy : list string)
    (statements : list Statement) (names : names_t) : names_t :=
  foldl (λ names statement,
           foldl (add_ref hierarchy) names
             (_lhs_signals statement ++ _rhs_signals statement))
        names statements.

(** [str(None)] *)
Definition str_None : string := "None".

(** The scope of a subfragment; [f'U${subfragment_name}'] formats the name,
    which is [None] there, and does not use [subfragment_index]. *)
Definition scope_name (subfragment_index : nat)
    (subfragment_name : option string) : string :=
  match subfragment_name with
  | Some n => n
  | None => "U$" +:+ str_None
  end.

(** The third loop, over [enumerate(fragment.subfragments)]; [call] is the
    extractor itself, called on each subfragment. *)
Fixpoint subfragment_loop
    (call : names_t → Fragment → list string → result names_t)
    (hierarchy : list string) (subs : list (Fragment * option string))
    (subfragment_index : nat) (names : names_t) : result names_t :=
  match subs with
  | [] => Ok names
  | (subfragment, subfragment_name) :: rest =>
      names ← call names subfragment
                (hierarchy ++ [scope_name subfragment_index subfragment_name]);
      subfragment_loop call hierarchy rest (S subfragment_index) names
  end.

Fixpoint call (names : names_t) (fragment : Fragment)
    (hierarchy : list string) {struct fragment} : result names_t :=
  names ← domain_loop (domains fragment) hierarchy (drivers fragment) names;
  let names := statement_loop hierarchy (statements fragment) names in
  subfragment_loop call hierarchy (subfragments fragment) 0%nat names.

(** [_NameExtractor()(fragment)] *)
Definition extract (fragment : Fragment) : result names_t :=
  call [] fragment ["bench"; "top"].

End _NameExtractor.

(** ** The sinks of the recorder

    [vcd.VCDWriter] and [vcd.gtkw.GTKWSave] belong to the pyvcd library.
    They are represented by what the recorder relies on: a variable or an
    alias is declared under a scope and a name, a second declaration of the
    same name in the same scope raises [KeyError], and every [change] that
    is accepted appends one value-change record.

    The library makes checks of its own: of the type, the size and the
    initial value of a declaration, of the value and the timestamp of a
    change, of the writer not being closed.  On these it raises
    [ValueError], [TypeError] or [VCDPhaseError], and it keeps [KeyError]
    for the duplicate name.  The checks are not code of this repository: a
    writer carries them as [checks], and nothing is assumed about what they
    accept.  Writing to a file that is open is taken to succeed. *)

Inductive VarValue : Type :=
  | IntValue (z : Z)
  | StrValue (s : string).

(** What a check of the library raises *)
Inductive refusal : Type :=
  | InvalidValue
  | InvalidType
  | WrongPhase.

Definition refused (r : refusal) : exn :=
  match r with
  | InvalidValue => ValueError
  | InvalidType => TypeError
  | WrongPhase => VCDPhaseError
  end.

Module VCDWriter.

Record variable : Type := mkVariable {
  ident : nat;
  var_type : string;
  size : nat;
  init : VarValue
}.

Inductive decl : Type :=
  | Var (scope : list string) (name : string) (var : variable)
  | Alias (scope : list string) (name : string) (var : variable).

Definition decl_name (d : decl) : list string * string :=
  match d with
  | Var scope name _ | Alias scope name _ => (scope, name)
  end.

(** The checks of the library, given what the writer has declared and
    written and whether it is closed: of a new declaration, and of a
    change of a variable at a timestamp to a value. *)
Record checks : Type := mkChecks {
  declare_check :
    list decl → list (Z * nat * VarValue) → option Z → decl → option refusal;
  change_check :
    list decl → list (Z * nat * VarValue) → option Z
    → variable → Z → VarValue → option refusal
}.

Record t : Type := mk {
  library : checks;
  declared : list decl;
  changes : list (Z * nat * VarValue);
  closed : option Z
}.

(** [VCDWriter(file, ...)] *)
Definition init_writer (library : checks) : t := mk library [] [] None.

Definition taken (self : t) (scope : list string) (name : string) : bool :=
  bool_decide ((scope, name) ∈ decl_name <$> declared self).

Definition is_var (d : decl) : bool :=
  match d with Var _ _ _ => true | Alias _ _ _ => false end.

(** A declaration: the duplicate name first, then the library's checks;
    the writer changes only when the declaration is accepted. *)
Definition declare (self : t) (d : decl) : result t :=
  if taken self (decl_name d).1 (decl_name d).2 then Raise KeyError
  else
    match declare_check (library self) (declared self) (changes self)
            (closed self) d with
    | Some r => Raise (refused r)
    | None =>
        Ok (mk (library self) (declared self ++ [d]) (changes self)
               (closed self))
    end.

Definition register_var (self : t) (scope : list string) (name : string)
    (var_type : string) (size : nat) (init : VarValue)
    : result (t * variable) :=
  let var :=
    mkVariable (length (filter is_var (declared self))) var_type size init in
  self ← declare self (Var scope name var);
  Ok (self, var).

Definition register_alias (self : t) (scope : list string) (name : string)
    (var : variable) : result t :=
  declare self (Alias scope name var).

Definition change (self : t) (var : variable) (timestamp : Z)
    (value : VarValue) : result t :=
  match change_check (library self) (declared self) (changes self)
          (closed self) var timestamp value with
  | Some r => Raise (refused r)
  | None =>
      Ok (mk (library self) (declared self)
             (changes self ++ [(timestamp, ident var, value)]) (closed self))
  end.

Definition close (self : t) (timestamp : Z) : t :=
  mk (library self) (declared self) (changes self) (Some timestamp).

End VCDWriter.

Module GTKWSave.

Inductive line : Type :=
  | dumpfile (path : string)
  | dumpfile_size (size : Z)
  | treeopen (tree : string)
  | trace (name : string).

End GTKWSave.

(** ** Files

    A file object, as [open] returns it or as the caller of the recorder
    passes it, is represented by the three members that [close] uses.
    [name] is the path that [GTKWSave.dumpfile] is given, or the exception
    raised on the way: [AttributeError] when the object has no attribute
    [name] (an [io.StringIO]), [TypeError] when the name is not a path.
    [tell] is the position the file reports once the writer, if there is
    one, has written its log to it; it depends on pyvcd's text format, and
    it may raise as well.  [close] is what closing the file raises, if
    anything. *)

Module File.
Record t : Type := mk {
  name : result string;
  tell : option VCDWriter.t → result Z;
  close : option exn
}.
End File.

(** The argument [vcd_file] or [gtkw_file] when it is not [None]: a [str],
    which is a path to open, or a file object. *)
Inductive file_arg : Type :=
  | Path (path : string)
  | FileObject (file : File.t).

(** ** [_VCDWriter] *)

Module _VCDWriter.

(** [str.expandtabs()], tab size 8 *)
Fixpoint expandtabs_from (column : nat) (s : string) : string :=
  match s with
  | EmptyString => EmptyString
  | String ch rest =>
      if bool_decide (ch = "009"%char) then
        let incr := (8 - column `mod` 8)%nat in
        String.string_of_list_ascii (replicate incr " "%char)
          +:+ expandtabs_from (column + incr) rest
      else
        String ch
          (expandtabs_from
             (if bool_decide (ch = "010"%char ∨ ch = "013"%char)
              then 0%nat else S column) rest)
  end.

Definition expandtabs (s : string) : string := expandtabs_from 0 s.

(** [str.replace(' ', '_')] *)
Fixpoint replace_spaces (s : string) : string :=
  match s with
  | EmptyString => EmptyString
  | String ch rest =>
      String (if bool_decide (ch = " "%char) then "_"%char else ch)
        (replace_spaces rest)
  end.

Definition decode_to_vcd (decoder : Z → result string) (value : Z)
    : result string :=
  decoded ← decoder value;
  Ok (replace_spaces (expandtabs decoded)).

(** The character class of [search(r'[ \t\r\n]', var_name)]. *)
Definition is_blank (ch : ascii) : bool :=
  bool_decide (ch = " "%char ∨ ch = "009"%char ∨ ch = "013"%char
               ∨ ch = "010"%char).

Fixpoint has_blank (s : string) : bool :=
  match s with
  | EmptyString => false
  | String ch rest => is_blank ch || has_blank rest
  end.

(** ['.'.join(var_scope)] *)
Fixpoint join_dots (parts : list string) : string :=
  match parts with
  | [] => ""
  | [x] => x
  | x :: rest => x +:+ "." +:+ join_dots rest
  end.

Record t : Type := mk {
  vcd_vars : gmap nat VCDWriter.variable;
  vcd_file : option File.t;
  vcd_writer : option VCDWriter.t;
  gtkw_names : gmap nat (list string * string);
  gtkw_file : option File.t;
  gtkw_save : option (list GTKWSave.line);
  traces : list Signal.t
}.

(** [f'{var_name}${suffix}'], or [var_name] while [suffix] is [None]; the
    suffixes are counted from 0, which stands for [None]. *)
Definition with_suffix (var_name : string) (suffix : nat) : string :=
  match suffix with
  | O => var_name
  | S _ => var_name +:+ "$" +:+ pretty suffix
  end.

(** The [while True] loop around the registration: a [KeyError] moves on to
    the next suffix, any other exception leaves the loop and the
    constructor.  [fuel] bounds the number of attempts; [None] is the loop
    not having left after that many. *)
Fixpoint register (fuel : nat) (writer : VCDWriter.t)
    (vcd_vars : gmap nat VCDWriter.variable) (signal : Signal.t)
    (var_type : string) (var_size : nat) (var_init : VarValue)
    (var_scope : list string) (var_name : string) (suffix : nat)
    : option (result (VCDWriter.t * gmap nat VCDWriter.variable * string)) :=
  match fuel with
  | O => None
  | S fuel =>
      let var_name_suffix := with_suffix var_name suffix in
      let attempt :=
        match vcd_vars !! Signal.sig_id signal with
        | None =>
            '(writer, vcd_var) ←
               VCDWriter.register_var writer var_scope var_name_suffix
                 var_type var_size var_init;
            Ok (writer, <[Signal.sig_id signal := vcd_var]> vcd_vars)
        | Some vcd_var =>
            writer ← VCDWriter.register_alias writer var_scope
                       var_name_suffix vcd_var;
            Ok (writer, vcd_vars)
        end in
      match attempt with
      | Ok (writer, vcd_vars) => Some (Ok (writer, vcd_vars, var_name_suffix))
      | Raise KeyError =>
          register fuel writer vcd_vars signal var_type var_size var_init
            var_scope var_name (S suffix)
      | Raise e => Some (Raise e)
      end
  end.

Definition whitespace_error (var_scope : list string) (var_name : string)
    : exn :=
  NameError ("Signal '" +:+ join_dots var_scope +:+ "." +:+ var_name
             +:+ "' contains a whitespace character").

(** The state the constructor works on while it declares the variables. *)
Abbreviation setup := (VCDWriter.t * gmap nat VCDWriter.variable
                       * gmap nat (list string * string))%type (only parsing).

(** The loop over the names of one signal.  On an exception the state is
    returned as it is at that moment. *)
Fixpoint names_loop (signal : Signal.t) (var_type : string) (var_size : nat)
    (var_init : VarValue) (names : list (list string * string))
    (st : setup) : option (setup * option exn) :=
  match names with
  | [] => Some (st, None)
  | (var_scope, var_name) :: rest =>
      let '(writer, vcd_vars, gtkw_names) := st in
      if has_blank var_name
      then Some (st, Some (whitespace_error var_scope var_name))
      else
        match register (S (length (VCDWriter.declared writer))) writer
                vcd_vars signal var_type var_size var_init var_scope
                var_name 0 with
        | None => None
        | Some (Raise e) => Some (st, Some e)
        | Some (Ok (writer, vcd_vars, var_name_suffix)) =>
            let gtkw_names :=
              match gtkw_names !! Signal.sig_id signal with
              | None =>
                  <[Signal.sig_id signal := (var_scope, var_name_suffix)]>
                    gtkw_names
              | Some _ => gtkw_names
              end in
            names_loop signal var_type var_size var_init rest
              (writer, vcd_vars, gtkw_names)
        end
  end.

(** [var_type], [var_size] and [var_init] of a signal *)
Definition var_of (signal : Signal.t) : result (string * nat * VarValue) :=
  match Signal.decoder signal with
  | Some decoder =>
      var_init ← decode_to_vcd decoder (Signal.reset signal);
      Ok ("string", 1%nat, StrValue var_init)
  | None => Ok ("wire", Signal.width signal, IntValue (Signal.reset signal))
  end.

(** The loop over [chain(signal_names.items(), trace_names.items())]. *)
Fixpoint signals_loop
    (items : list (Signal.t * list (list string * string))) (st : setup)
    : option (setup * option exn) :=
  match items with
  | [] => Some (st, None)
  | (signal, names) :: rest =>
      match var_of signal with
      | Raise e => Some (st, Some e)
      | Ok (var_type, var_size, var_init) =>
          match names_loop signal var_type var_size var_init names st with
          | Some (st, None) => signals_loop rest st
          | other => other
          end
      end
  end.

(** [trace_names], filled by the loop over [traces]. *)
Fixpoint trace_names (signal_names : list (Signal.t * list (list string * string)))
    (traces : list Signal.t) (acc : list (Signal.t * list (list string * string)))
    : list (Signal.t * list (list string * string)) :=
  match traces with
  | [] => acc
  | trace :: rest =>
      let known (d : list (Signal.t * list (list string * string))) :=
        bool_decide (Signal.sig_id trace ∈ (Signal.sig_id ∘ fst) <$> d) in
      let acc :=
        if known signal_names then acc
        else if known acc then
          (λ e : Signal.t * list (list string * string),
             if bool_decide (Signal.sig_id e.1 = Signal.sig_id trace)
             then (e.1, [(["bench"], Signal.name trace)]) else e) <$> acc
        else acc ++ [(trace, [(["bench"], Signal.name trace)])] in
      trace_names signal_names rest acc
  end.

(** [if isinstance(file, str): file = open(file, 'wt')]; [open_ path] is
    what [open(path, 'wt')] gives: the file, or the exception it raises. *)
Definition open_file (open_ : string → result File.t)
    (file : option file_arg) : result (option File.t) :=
  match file with
  | None => Ok None
  | Some (Path path) => file ← open_ path; Ok (Some file)
  | Some (FileObject file) => Ok (Some file)
  end.

(** The recorder before the constructor has set an attribute *)
Definition unset : t := mk ∅ None None ∅ None None [].

(** [_VCDWriter(fragment, vcd_file = ..., gtkw_file = ..., traces = ...)],
    with the [open] of the system and the checks of the library the writer
    is made with.  The result is the exception raised, if any, and the
    recorder as the constructor leaves it. *)
Definition __init__ (open_ : string → result File.t)
    (library : VCDWriter.checks) (fragment : Fragment)
    (vcd_file gtkw_file : option file_arg) (traces : list Signal.t)
    : option (t * option exn) :=
  match open_file open_ vcd_file with
  | Raise e => Some (unset, Some e)
  | Ok vcd_file =>
      match open_file open_ gtkw_file with
      | Raise e => Some (unset, Some e)
      | Ok gtkw_file =>
          let vcd_writer := (λ _, VCDWriter.init_writer library) <$> vcd_file in
          let gtkw_save := (λ _, []) <$> gtkw_file in
          match _NameExtractor.extract fragment with
          | Raise e =>
              Some (mk ∅ vcd_file vcd_writer ∅ gtkw_file gtkw_save [], Some e)
          | Ok signal_names =>
              match vcd_writer with
              | None =>
                  Some (mk ∅ vcd_file vcd_writer ∅ gtkw_file gtkw_save traces,
                        None)
              | Some writer =>
                  match signals_loop
                          (signal_names ++ trace_names signal_names traces [])
                          (writer, ∅, ∅) with
                  | None => None
                  | Some ((writer, vcd_vars, gtkw_names), e) =>
                      Some (mk vcd_vars vcd_file (Some writer) gtkw_names
                               gtkw_file gtkw_save traces, e)
                  end
              end
          end
      end
  end.

(** [update]: the decoder of the signal and the [change] of the library may
    raise. *)
Definition update (self : t) (timestamp : Z) (signal : Signal.t) (value : Z)
    : result t :=
  match vcd_vars self !! Signal.sig_id signal with
  | None => Ok self
  | Some vcd_var =>
      var_value ←
        match Signal.decoder signal with
        | Some decoder =>
            decoded ← decode_to_vcd decoder value; Ok (StrValue decoded)
        | None => Ok (IntValue value)
        end;
      match vcd_writer self with
      | None => Raise AttributeError
      | Some writer =>
          writer ← VCDWriter.change writer vcd_var timestamp var_value;
          Ok (mk (vcd_vars self) (vcd_file self) (Some writer)
                (gtkw_names self) (gtkw_file self) (gtkw_save self)
                (traces self))
      end
  end.

(** The bit-range suffix of a trace line *)
Definition trace_suffix (signal : Signal.t) : string :=
  if bool_decide (1 < Signal.width signal)%nat
     && bool_decide (Signal.decoder signal = None)
  then "[" +:+ pretty (Signal.width signal - 1)%nat +:+ ":0]"
  else "".

(** The loop of [close] over [self.traces]. *)
Fixpoint trace_loop (gtkw_names : gmap nat (list string * string))
    (traces : list Signal.t) (save : list GTKWSave.line)
    : result (list GTKWSave.line) :=
  match traces with
  | [] => Ok save
  | signal :: rest =>
      match gtkw_names !! Signal.sig_id signal with
      | None => Raise KeyError
      | Some (var_scope, var_name) =>
          trace_loop gtkw_names rest
            (save ++ [GTKWSave.trace (join_dots (var_scope ++ [var_name])
                                      +:+ trace_suffix signal)])
      end
  end.

(** [if file is not None: file.close()] *)
Definition close_file (file : option File.t) : result () :=
  match file ≫= File.close with
  | Some e => Raise e
  | None => Ok ()
  end.

(** [close]: [self.vcd_file.name] and [self.vcd_file.tell()] are read from
    whatever the log file is, [None] included. *)
Definition close (self : t) (timestamp : Z) : result t :=
  let writer := (λ w, VCDWriter.close w timestamp) <$> vcd_writer self in
  save ←
    match gtkw_save self with
    | None => Ok None
    | Some save =>
        match vcd_file self with
        | None => Raise AttributeError
        | Some file =>
            path ← File.name file;
            size ← File.tell file writer;
            save ← trace_loop (gtkw_names self) (traces self)
                     (save ++ [GTKWSave.dumpfile path;
                               GTKWSave.dumpfile_size size;
                               GTKWSave.treeopen "top"]);
            Ok (Some save)
        end
    end;
  _ ← close_file (vcd_file self);
  _ ← close_file (gtkw_file self);
  Ok (mk (vcd_vars self) (vcd_file self) writer (gtkw_names self)
         (gtkw_file self) save (traces self)).

End _VCDWriter.

(** ** [PySimEngine]

    The processes are made by the fragment compiler and by the clock and
    coroutine classes.  What [process.run()] and [process.reset()] do is a
    parameter: a process works on the simulation state, on its own flags
    and on the processes' private memory [L], and never on the recorders. *)

Module PySimEngine.

Section engine.
Context {L : Type}.

Abbreviation behaviour :=
  (nat → L → _PySimulation.t → Process
   → result (L * _PySimulation.t * Process)) (only parsing).

Context (run : behaviour) (reset_process : behaviour).

(** [_timeline] is the timeline object of [_state]. *)
Record t : Type := mk {
  _state : _PySimulation.t;
  _fragment : Fragment;
  _processes : ProcStore;
  _locals : L;
  _vcd_writers : list _VCDWriter.t
}.

Definition now (self : t) : Z :=
  _Timeline.now (_PySimulation.timeline (_state self)).

(** One [process.run()] or [process.reset()] on the process [process],
    whose flags are [flags] when the call starts. *)
Definition call_process (f : behaviour) (process : pid) (flags : Process)
    (st : _PySimulation.t * ProcStore * L)
    : result (_PySimulation.t * ProcStore * L) :=
  let '(state, procs, locals) := st in
  '(locals, state, flags) ← f process locals state flags;
  Ok (state, <[process := flags]> procs, locals).

(** The eval phase: every runnable process has its flag cleared and is
    run once. *)
Fixpoint eval (processes : list pid) (st : _PySimulation.t * ProcStore * L)
    : result (_PySimulation.t * ProcStore * L) :=
  match processes with
  | [] => Ok st
  | process :: rest =>
      match st.1.2 !! process with
      | Some flags =>
          if runnable flags then
            st ← call_process run process (mkProcess false (passive flags))
                   st;
            eval rest st
          else eval rest st
      | None => eval rest st
      end
  end.

(** The [while not converged] loop of [_step]; [None] is the loop not
    having converged within [fuel] delta cycles. *)
Fixpoint delta_cycles (fuel : nat) (st : _PySimulation.t * ProcStore * L)
    (changed : option (gset nat))
    : option (result (_PySimulation.t * ProcStore * L * option (gset nat))) :=
  match fuel with
  | O => None
  | S fuel =>
      match eval (map_to_list st.1.2).*1 st with
      | Raise e => Some (Raise e)
      | Ok (state, procs, locals) =>
          let '(state, procs, changed, converged) :=
            _PySimulation.commit state procs changed in
          if converged then Some (Ok (state, procs, locals, changed))
          else delta_cycles fuel (state, procs, locals) changed
      end
  end.

(** [vcd_writer.update(self._timeline.now, signal_state.signal,
    signal_state.curr)] for every member of [changed]. *)
Fixpoint record_changes (state : _PySimulation.t) (changed : list nat)
    (vcd_writer : _VCDWriter.t) : result _VCDWriter.t :=
  match changed with
  | [] => Ok vcd_writer
  | index :: rest =>
      match _PySimulation.slots state !! index with
      | Some slot =>
          vcd_writer ←
            _VCDWriter.update vcd_writer
              (_Timeline.now (_PySimulation.timeline state))
              (_PySignalState.signal slot) (_PySignalState.curr slot);
          record_changes state rest vcd_writer
      | None => record_changes state rest vcd_writer
      end
  end.

(** The loop of [_step] over [self._vcd_writers]. *)
Fixpoint record_all (state : _PySimulation.t) (changed : list nat)
    (vcd_writers : list _VCDWriter.t) : result (list _VCDWriter.t) :=
  match vcd_writers with
  | [] => Ok []
  | vcd_writer :: rest =>
      vcd_writer ← record_changes state changed vcd_writer;
      rest ← record_all state changed rest;
      Ok (vcd_writer :: rest)
  end.

Definition _step (fuel : nat) (self : t) : option (result t) :=
  let changed :=
    match _vcd_writers self with
    | [] => None
    | _ :: _ => Some ∅
    end in
  match delta_cycles fuel (_state self, _processes self, _locals self)
          changed with
  | None => None
  | Some (Raise e) => Some (Raise e)
  | Some (Ok (state, procs, locals, changed)) =>
      Some (writers ←
              record_all state (elements (default ∅ changed))
                (_vcd_writers self);
            Ok (mk state (_fragment self) procs locals writers))
  end.

(** [any(not process.passive for process in self._processes)] *)
Definition any_active (procs : ProcStore) : bool :=
  existsb (λ e, negb (passive e.2)) (map_to_list procs).

Definition advance (fuel : nat) (self : t) : option (result (t * bool)) :=
  match _step fuel self with
  | None => None
  | Some (Raise e) => Some (Raise e)
  | Some (Ok self) =>
      Some ('(timeline, procs, _) ←
               _Timeline.advance (_PySimulation.timeline (_state self))
                 (_processes self);
            let state :=
              _PySimulation.mk timeline
                (_PySimulation.signals (_state self))
                (_PySimulation.slots (_state self))
                (_PySimulation.pending (_state self)) in
            Ok (mk state (_fragment self) procs (_locals self)
                   (_vcd_writers self),
                any_active procs))
  end.

(** The loop of [reset] over the processes. *)
Fixpoint reset_processes (processes : list pid)
    (st : _PySimulation.t * ProcStore * L)
    : result (_PySimulation.t * ProcStore * L) :=
  match processes with
  | [] => Ok st
  | process :: rest =>
      match st.1.2 !! process with
      | Some flags =>
          st ← call_process reset_process process flags st;
          reset_processes rest st
      | None => reset_processes rest st
      end
  end.

Definition reset (self : t) : result t :=
  state ← _PySimulation.reset (_state self);
  '(state, procs, locals) ←
     reset_processes (map_to_list (_processes self)).*1
       (state, _processes self, _locals self);
  Ok (mk state (_fragment self) procs locals (_vcd_writers self)).

End engine.

End PySimEngine.

(** ** [BuildPlan] ([torii/build/run.py])

    A file name or a content that is a [str] is represented by its UTF-8
    bytes, so that [encode('utf-8')] is the identity and the order of
    [sorted] on names is the order of the bytes.  [files] is an
    [OrderedDict]. *)

Module BuildPlan.

Record t : Type := mk {
  script : string;
  files : list (string * string)
}.

Definition __init__ (script : string) : t := mk script [].

Definition add_file (self : t) (filename content : string) : result t :=
  if bool_decide (filename ∈ (files self).*1) then Raise AssertionError
  else Ok (mk (script self) (files self ++ [(filename, content)])).

(** The order of [sorted] on strings *)
Definition le (s1 s2 : string) : Prop := String.leb s1 s2 = true.

#[export] Instance le_dec : RelDecision le := λ s1 s2, decide (String.leb s1 s2 = true).

(** [sorted(self.files)]: the file names in order *)
Definition sorted (self : t) : list string := merge_sort le (files self).*1.

(** The bytes given to the hasher by the loop of [digest], after [data]. *)
Fixpoint updates (files : list (string * string)) (names : list string)
    (data : string) : result string :=
  match names with
  | [] => Ok data
  | filename :: rest =>
      content ← getitem files filename;
      updates files rest (data +:+ filename +:+ content)
  end.

(** [digest]; [blake2b size data] is the digest of [size] bytes that hashlib
    gives for the bytes [data], however they are cut into updates. *)
Definition digest (blake2b : nat → string → string) (self : t) (size : nat)
    : result string :=
  data ← updates (files self) (sorted self) "";
  Ok (blake2b size (data +:+ script self)).

(** The members written by [archive], in order: name and content. *)
Fixpoint members (files : list (string * string)) (names : list string)
    : result (list (string * string)) :=
  match names with
  | [] => Ok []
  | filename :: rest =>
      content ← getitem files filename;
      written ← members files rest;
      Ok ((filename, content) :: written)
  end.

Definition archive (self : t) : result (list (string * string)) :=
  members (files self) (sorted self).

End BuildPlan.

(** A plan built from the empty one by [add_file] calls, in order. *)
Fixpoint add_files (fs : list (string * string)) (plan : BuildPlan.t)
    : result BuildPlan.t :=
  match fs with
  | [] => Ok plan
  | (filename, content) :: rest =>
      plan ← BuildPlan.add_file plan filename content; add_files rest plan
  end.

(** ** Vocabulary of the statements about the timeline *)

(** The first process registered with the sentinel deadline [None]. *)
Fixpoint first_sentinel (ds : list (pid * option Z)) : option pid :=
  match ds with
  | [] => None
  | (process, None) :: _ => Some process
  | (_, Some _) :: rest => first_sentinel rest
  end.

(** The processes registered at the numeric deadline [m]. *)
Definition at_deadline (m : Z) (ds : list (pid * option Z)) : gset nat :=
  list_to_set (filter (λ e, e.2 = Some m) ds).*1.

Definition is_min_deadline (m : Z) (ds : list (pid * option Z)) : Prop :=
  (∃ process, (process, Some m) ∈ ds) ∧
  ∀ process d, (process, Some d) ∈ ds → m ≤ d.

(** Every numeric deadline respects the contract of [at]. *)
Definition not_in_past (now : Z) (ds : list (pid * option Z)) : Prop :=
  Forall (λ e, ∀ d, e.2 = Some d → now ≤ d) ds.

(** A request to settle, [delay(None, _)], or a delay of no time at all *)
Definition zero_delay (delay_by : option Z) : bool :=
  match delay_by with
  | None => true
  | Some d => bool_decide (d = 0)
  end.

(** The timelines the simulator can build: a new one, then calls of
    [reset], [delay] and [advance] in any order ([at] has no caller but
    [delay]).  The index is the set of the processes whose registration is
    a zero-delay one. *)
Inductive reachable : gset nat → _Timeline.t → Prop :=
  | reachable_init : reachable ∅ _Timeline.init
  | reachable_reset settle self :
      reachable settle self → reachable ∅ (_Timeline.reset self)
  | reachable_delay settle self delay_by process self' :
      reachable settle self →
      _Timeline.delay self delay_by process = Ok self' →
      reachable (if zero_delay delay_by then {[process]} ∪ settle else settle)
        self'
  | reachable_advance settle self procs self' procs' woke :
      reachable settle self →
      _Timeline.advance self procs = Ok (self', procs', woke) →
      reachable
        (filter (λ process, process ∈ (_Timeline.deadlines self').*1) settle)
        self'.

(** [procs'] is [procs] with [runnable] set on the members of [W] and
    nothing else touched. *)
Definition woke_exactly (W : gset nat) (procs procs' : ProcStore) : Prop :=
  ∀ process,
    procs' !! process =
      if decide (process ∈ W)
      then (λ pr, mkProcess true (passive pr)) <$> procs !! process
      else procs !! process.


(** ** Vocabulary of the statements about the simulation state *)

(** The slot after a commit that found [next] different from [curr]. *)
Definition committed (slot : _PySignalState.t) : _PySignalState.t :=
  _PySignalState.mk (_PySignalState.signal slot) (_PySignalState.next slot)
    (_PySignalState.next slot) (_PySignalState.waiters slot).

(** The waiters among [items] whose trigger is [None] or equals [curr]. *)
Definition matching (curr : Z) (items : list (pid * option Z)) : list pid :=
  (filter (λ e, _PySignalState.triggers e.2 curr = true) items).*1.

(** The processes a commit of [slot] wakes. *)
Definition slot_wakes (slot : _PySignalState.t) : gset nat :=
  if bool_decide (_PySignalState.curr slot = _PySignalState.next slot) then ∅
  else list_to_set
         (matching (_PySignalState.next slot)
            (map_to_list (_PySignalState.waiters slot))).

(** The processes a commit of the slots [indices] wakes. *)
Definition commit_wakes (slots : list _PySignalState.t) (indices : list nat)
    : gset nat :=
  ⋃ ((λ index, from_option slot_wakes ∅ (slots !! index)) <$> indices).

(** A slot of the pending set whose value a commit changes. *)
Definition changes_at (self : _PySimulation.t) (index : nat) : Prop :=
  index ∈ _PySimulation.pending self ∧
  ∃ slot, _PySimulation.slots self !! index = Some slot ∧
          _PySignalState.curr slot ≠ _PySignalState.next slot.

(** Every known signal has its slot, and the slot is the one made for it. *)
Definition signals_have_slots (self : _PySimulation.t) : Prop :=
  ∀ key signal index,
    _PySimulation.signals self !! key = Some (signal, index) →
    ∃ slot, _PySimulation.slots self !! index = Some slot ∧
            _PySignalState.signal slot = signal.

(** Nothing is waiting to be committed: the state right after a commit or
    a reset. *)
Definition settled (self : _PySimulation.t) : Prop :=
  _PySimulation.pending self = ∅ ∧
  ∀ index slot, _PySimulation.slots self !! index = Some slot →
                _PySignalState.next slot = _PySignalState.curr slot.

(** A sequence of writes [slots[index].set(value)], in order. *)
Fixpoint set_all (writes : list (nat * Z)) (self : _PySimulation.t)
    : result _PySimulation.t :=
  match writes with
  | [] => Ok self
  | (index, value) :: rest =>
      self ← _PySimulation.slot_set self index value; set_all rest self
  end.

(** The slot with both values at the reset value of its signal. *)
Definition at_reset (slot : _PySignalState.t) : _PySignalState.t :=
  _PySignalState.mk (_PySignalState.signal slot)
    (Signal.reset (_PySignalState.signal slot))
    (Signal.reset (_PySignalState.signal slot))
    (_PySignalState.waiters slot).

(** Every slot whose two values differ is pending. *)
Definition differing_are_pending (self : _PySimulation.t) : Prop :=
  ∀ index slot, _PySimulation.slots self !! index = Some slot →
    _PySignalState.next slot ≠ _PySignalState.curr slot →
    index ∈ _PySimulation.pending self.

(** Some write of [ws], made from [self], changed [next] of slot [index]. *)
Definition effective_write (self : _PySimulation.t) (ws : list (nat * Z)) (index : nat)
    : Prop :=
  ∃ ws1 value ws2 mid slot,
    ws = ws1 ++ (index, value) :: ws2 ∧
    set_all ws1 self = Ok mid ∧
    _PySimulation.slots mid !! index = Some slot ∧
    _PySignalState.next slot ≠ value.

(** ** Vocabulary of the statements about the engine *)

(** The engine with no recorder attached. *)
Definition without_recorders {L} (self : PySimEngine.t (L := L))
    : PySimEngine.t (L := L) :=
  PySimEngine.mk (PySimEngine._state self) (PySimEngine._fragment self)
    (PySimEngine._processes self) (PySimEngine._locals self) [].

(** What a run shows of the simulation after a call of [advance]: the time
    and the committed value of every slot. *)
Definition committed_values {L} (self : PySimEngine.t (L := L))
    : Z * list Z :=
  (PySimEngine.now self,
   _PySignalState.curr <$> _PySimulation.slots (PySimEngine._state self)).

(** [n] calls of [advance] in a row, with what each one shows and returns. *)
Fixpoint advances {L}
    (run : nat → L → _PySimulation.t → Process
           → result (L * _PySimulation.t * Process))
    (fuel n : nat) (self : PySimEngine.t (L := L))
    : option (result (list (Z * list Z * bool) * PySimEngine.t (L := L))) :=
  match n with
  | O => Some (Ok ([], self))
  | S n =>
      match PySimEngine.advance run fuel self with
      | None => None
      | Some (Raise e) => Some (Raise e)
      | Some (Ok (self, continue)) =>
          match advances run fuel n self with
          | None => None
          | Some (Raise e) => Some (Raise e)
          | Some (Ok (seen, final)) =>
              Some (Ok ((committed_values self, continue) :: seen, final))
          end
      end
  end.

(** The outcome of a computation that may not end or may raise, mapped. *)
Definition outcome_map {A B} (f : A → B) (o : option (result A))
    : option (result B) :=
  match o with
  | None => None
  | Some (Raise e) => Some (Raise e)
  | Some (Ok a) => Some (Ok (f a))
  end.

(** The step of [self] converges, and then a recorder raises [e] while the
    changes are written. *)
Definition recording_raises {L}
    (run : nat → L → _PySimulation.t → Process
           → result (L * _PySimulation.t * Process))
    (fuel : nat) (self : PySimEngine.t (L := L)) (e : exn) : Prop :=
  ∃ state procs locals changed,
    PySimEngine.delta_cycles run fuel
      (PySimEngine._state self, PySimEngine._processes self,
       PySimEngine._locals self) (Some ∅)
      = Some (Ok (state, procs, locals, Some changed)) ∧
    PySimEngine.record_all state (elements changed)
      (PySimEngine._vcd_writers self) = Raise e.

(** The value-change records a recorder has written. *)
Definition log (w : _VCDWriter.t) : list (Z * nat * VarValue) :=
  from_option VCDWriter.changes [] (_VCDWriter.vcd_writer w).

(** The value a recorder writes for the value [value] of [signal], once
    the decoder of the signal has returned. *)
Definition var_value (signal : Signal.t) (value : Z) : option VarValue :=
  match Signal.decoder signal with
  | Some decoder =>
      match _VCDWriter.decode_to_vcd decoder value with
      | Ok decoded => Some (StrValue decoded)
      | Raise _ => None
      end
  | None => Some (IntValue value)
  end.

(** The record the recorder [w] writes for the slot [index] of [state], if
    the signal of the slot has a variable. *)
Definition record_of (w : _VCDWriter.t) (state : _PySimulation.t)
    (index : nat) : option (Z * nat * VarValue) :=
  slot ← _PySimulation.slots state !! index;
  var ← _VCDWriter.vcd_vars w !! Signal.sig_id (_PySignalState.signal slot);
  _ ← _VCDWriter.vcd_writer w;
  value ← var_value (_PySignalState.signal slot) (_PySignalState.curr slot);
  Some (_Timeline.now (_PySimulation.timeline state), VCDWriter.ident var,
        value).

(** The simulation states on which the commits of one step work, in order:
    one per delta cycle. *)
Fixpoint commit_points {L}
    (run : nat → L → _PySimulation.t → Process
           → result (L * _PySimulation.t * Process))
    (fuel : nat) (st : _PySimulation.t * ProcStore * L)
    : list _PySimulation.t :=
  match fuel with
  | O => []
  | S fuel =>
      match PySimEngine.eval run (map_to_list st.1.2).*1 st with
      | Raise _ => []
      | Ok (state, procs, locals) =>
          let '(state', procs', _, converged) :=
            _PySimulation.commit state procs None in
          state :: (if converged then []
                    else commit_points run fuel (state', procs', locals))
      end
  end.

(** The slots that were pending at a commit of the step. *)
Definition pending_in_step {L}
    (run : nat → L → _PySimulation.t → Process
           → result (L * _PySimulation.t * Process))
    (fuel : nat) (self : PySimEngine.t (L := L)) : gset nat :=
  ⋃ (_PySimulation.pending
       <$> commit_points run fuel
             (PySimEngine._state self, PySimEngine._processes self,
              PySimEngine._locals self)).

(** ** Vocabulary of the statements about names *)

(** [x] is one of the names recorded for [signal]. *)
Definition has_alias (names : list (Signal.t * list (list string * string)))
    (signal : Signal.t) (x : list string * string) : Prop :=
  ∃ s xs, (s, xs) ∈ names ∧ Signal.sig_id s = Signal.sig_id signal ∧ x ∈ xs.

(** [names'] has every name of [names]. *)
Definition extends (names names' : list (Signal.t * list (list string * string)))
    : Prop :=
  ∀ signal x, has_alias names signal x → has_alias names' signal x.

(** A statement of [fragment] itself reads or writes [signal]. *)
Definition named_in (fragment : Fragment) (signal : Signal.t) : Prop :=
  ∃ statement,
    statement ∈ statements fragment ∧
    ASignal signal ∈ _lhs_signals statement ++ _rhs_signals statement.

(** The exception [e] is a refusal by a check of [library] of a
    declaration. *)
Definition declaration_refused (library : VCDWriter.checks) (e : exn)
    : Prop :=
  ∃ declared changes closed d r,
    VCDWriter.declare_check library declared changes closed d = Some r ∧
    e = refused r.

(** The exception [e] is raised by the decoder of a signal of [items] on the
    reset value of the signal. *)
Definition decoder_raises
    (items : list (Signal.t * list (list string * string))) (e : exn)
    : Prop :=
  ∃ signal names decoder,
    (signal, names) ∈ items ∧
    Signal.decoder signal = Some decoder ∧
    decoder (Signal.reset signal) = Raise e.

(** What the loops of the constructor over [items] may end with: nothing,
    the naming error, a refusal of the library or an exception of a
    decoder; the value-change records are not touched. *)
Definition no_change_written
    (items : list (Signal.t * list (list string * string)))
    (st st' : VCDWriter.t * gmap nat VCDWriter.variable
              * gmap nat (list string * string))
    (e : option exn) : Prop :=
  VCDWriter.changes st'.1.1 = VCDWriter.changes st.1.1 ∧
  VCDWriter.library st'.1.1 = VCDWriter.library st.1.1 ∧
  match e with
  | None => True
  | Some e =>
      (∃ msg, e = NameError msg)
      ∨ declaration_refused (VCDWriter.library st.1.1) e
      ∨ decoder_raises items e
  end.

(** A process behaviour that leaves its own [runnable] flag as the engine
    set it: the processes are woken by commits and by the timeline only. *)
Definition keeps_runnable {L}
    (run : nat → L → _PySimulation.t → Process
           → result (L * _PySimulation.t * Process)) : Prop :=
  ∀ process locals state flags locals' state' flags',
    run process locals state flags = Ok (locals', state', flags') →
    runnable flags' = runnable flags.

(** The character [ch] occurs in [s]. *)
Fixpoint occurs (ch : ascii) (s : string) : bool :=
  match s with
  | EmptyString => false
  | String c rest => bool_decide (c = ch) || occurs ch rest
  end.

(** No two declarations of the writer share scope and name. *)
Definition distinct_names (writer : VCDWriter.t) : Prop :=
  NoDup (VCDWriter.decl_name <$> VCDWriter.declared writer).

(** Every name of [names'] that [names] does not have lies under the
    hierarchy [hierarchy]. *)
Definition adds_under (hierarchy : list string)
    (names names' : list (Signal.t * list (list string * string))) : Prop :=
  ∀ signal scope leaf,
    has_alias names' signal (scope, leaf) →
    has_alias names signal (scope, leaf) ∨ hierarchy `prefix_of` scope.

(** The identities of the signals a name table has an entry for. *)
Definition named (names : list (Signal.t * list (list string * string)))
    : list nat :=
  (Signal.sig_id ∘ fst) <$> names.

(** Every entry of the name table has at least one name. *)
Definition all_named (names : list (Signal.t * list (list string * string)))
    : Prop :=
  Forall (λ e, e.2 ≠ []) names.

(** ** A small design used in the examples

    One one-bit signal [q] with reset value 0, driven in the top fragment,
    and one process that drives it to 1 and back to 0 each time it runs. *)

Definition example_q : Signal.t := Signal.mk 0 "q" 1 0 None.

Definition example_fragment : Fragment :=
  mkFragment [] [] [mkStatement [ASignal example_q] []] [].

Definition example_state : _PySimulation.t :=
  _PySimulation.mk _Timeline.init {[ 0%nat := (example_q, 0%nat) ]}
    [_PySignalState.init example_q] ∅.

Definition write_and_write_back (process : nat) (locals : unit)
    (state : _PySimulation.t) (flags : Process)
    : result (unit * _PySimulation.t * Process) :=
  state ← _PySimulation.slot_set state 0 1;
  state ← _PySimulation.slot_set state 0 0;
  Ok (locals, state, flags).

(** The engine of the example with the recorders [writers] attached and its
    one process runnable. *)
Definition example_engine (writers : list _VCDWriter.t)
    : PySimEngine.t (L := unit) :=
  PySimEngine.mk example_state example_fragment
    {[ 1%nat := mkProcess true false ]} () writers.

(** An [open] that gives a file named by its path, and a library whose
    checks accept everything. *)
Definition example_open (path : string) : result File.t :=
  Ok (File.mk (Ok path) (λ _, Ok 0) None).

Definition no_checks : VCDWriter.checks :=
  VCDWriter.mkChecks (λ _ _ _ _, None) (λ _ _ _ _ _ _, None).

(** The recorder [_VCDWriter(fragment, vcd_file = 'out.vcd', gtkw_file =
    None)] of the example, as its constructor leaves it. *)
Definition example_recorder : _VCDWriter.t :=
  match _VCDWriter.__init__ example_open no_checks example_fragment
          (Some (Path "out.vcd")) None [] with
  | Some (w, _) => w
  | None => _VCDWriter.unset
  end.

(** * Properties *)

(** ** Timeline *)

Section timeline_facts.
Import _Timeline.

Lemma elem_of_at_deadline m ds process :
  process ∈ at_deadline m ds ↔ (process, Some m) ∈ ds.
Proof.
  unfold at_deadline. rewrite elem_of_list_to_set, list_elem_of_fmap.
  split.
  - intros [[q d] [-> [Hd Hin]%list_elem_of_filter]]. simpl in *. by subst.
  - intros Hin. exists (process, Some m). split; [done|].
    by apply list_elem_of_filter.
Qed.

Lemma filter_all {A} (P : A → Prop) `{!∀ x, Decision (P x)} (l : list A) :
  (∀ x, P x) → filter P l = l.
Proof.
  intros HP. induction l as [|x l IH]; [done|].
  rewrite filter_cons_True by done. by rewrite IH.
Qed.

Lemma wake_all_spec nearest ds procs :
  (wake_all nearest ds procs).1 = filter (λ e, e.1 ∉ nearest) ds ∧
  ∀ process,
    (wake_all nearest ds procs).2 !! process =
      if decide (process ∈ nearest)
      then (λ pr, mkProcess true (passive pr)) <$> procs !! process
      else procs !! process.
Proof.
  revert ds procs. induction nearest as [|q rest IH]; intros ds procs.
  - simpl. split.
    + symmetry. apply filter_all. intros x. apply not_elem_of_nil.
    + done.
  - simpl. destruct (IH (del q ds) (wake q procs)) as [Hds Hprocs]. split.
    + rewrite Hds. unfold del. rewrite list_filter_filter.
      apply list_filter_iff. intros [a d]; simpl.
      rewrite not_elem_of_cons. tauto.
    + intros process. rewrite Hprocs. unfold wake.
      destruct (decide (process = q)) as [->|Hne].
      * rewrite lookup_alter_eq.
        rewrite (decide_True (P := q ∈ q :: rest)) by (apply elem_of_cons; by left).
        case_decide; [|done].
        destruct (procs !! q) as [[r pa]|]; done.
      * rewrite lookup_alter_ne by done.
        repeat case_decide; try done.
        -- exfalso. rewrite elem_of_cons in *. tauto.
        -- exfalso. rewrite elem_of_cons in *. tauto.
Qed.

Lemma scan_sentinel now items process :
  not_in_past now items → first_sentinel items = Some process →
  ∀ np nd, (nd = None → np = ∅) →
    scan now items np nd = Ok ({[process]}, Some now).
Proof.
  induction items as [|[q [d|]] rest IH]; intros Hpast Hfirst np nd Hacc;
    simpl in *.
  - done.
  - apply Forall_cons in Hpast as [Hd Hpast].
    specialize (Hd d eq_refl). simpl in Hd.
    destruct nd as [n|].
    + case_bool_decide.
      * rewrite bool_decide_eq_true_2 by done. by apply IH.
      * by apply IH.
    + rewrite bool_decide_eq_true_2 by done. by apply IH.
  - injection Hfirst as ->. destruct nd as [n|].
    + by rewrite (right_id_L ∅ (∪)).
    + rewrite Hacc by done. by rewrite (right_id_L ∅ (∪)).
Qed.

Lemma scan_numeric now items :
  not_in_past now items → first_sentinel items = None →
  ∀ np nd, (nd = None → np = ∅) →
  ∃ np' nd', scan now items np nd = Ok (np', nd') ∧
    match nd' with
    | None => nd = None ∧ items = [] ∧ np' = np
    | Some m =>
        (∀ q d, (q, Some d) ∈ items → m ≤ d) ∧
        (∀ d, nd = Some d → m ≤ d) ∧
        ((∃ q, (q, Some m) ∈ items) ∨ nd = Some m) ∧
        (∀ q, q ∈ np' ↔ (q, Some m) ∈ items ∨ (nd = Some m ∧ q ∈ np))
    end.
Proof.
  induction items as [|[p [d|]] rest IH]; intros Hpast Hfirst np nd Hacc;
    simpl in *; [| |done].
  - exists np, nd. split; [done|]. destruct nd as [n|].
    + split_and!; [by intros ?? ?%elem_of_nil|naive_solver lia|by right|].
      intros q. split; [naive_solver|]. intros [?%elem_of_nil|[_ ?]]; done.
    + done.
  - apply Forall_cons in Hpast as [Hd Hpast].
    specialize (Hd d eq_refl). simpl in Hd.
    destruct nd as [n|].
    + case_bool_decide as Hle.
      * rewrite bool_decide_eq_true_2 by done.
        edestruct (IH Hpast Hfirst) as (np' & nd' & Hscan & Hspec);
          [|exists np', nd'; split; [exact Hscan|]]; [done|].
        destruct nd' as [m|]; [|naive_solver].
        destruct Hspec as (Hmin & Hle' & Hex & Hmem).
        specialize (Hle' d eq_refl).
        split_and!.
        -- intros q d' [[= -> ->]|?]%elem_of_cons; eauto.
        -- intros ? [= <-]. lia.
        -- left. destruct Hex as [[q Hq]|[= ->]].
           ++ exists q. by apply elem_of_cons; right.
           ++ exists p. by apply elem_of_cons; left.
        -- intros q. rewrite Hmem, elem_of_cons.
           case_bool_decide; [|assert (d = n) as -> by lia]; set_unfold;
             intuition (simplify_eq; try lia; eauto 6).
      * edestruct (IH Hpast Hfirst) as (np' & nd' & Hscan & Hspec);
          [|exists np', nd'; split; [exact Hscan|]]; [done|].
        destruct nd' as [m|]; [|naive_solver].
        destruct Hspec as (Hmin & Hle' & Hex & Hmem).
        specialize (Hle' n eq_refl).
        split_and!.
        -- intros q d' [[= -> ->]|?]%elem_of_cons; [lia|eauto].
        -- intros ? [= <-]. lia.
        -- destruct Hex as [[q Hq]|[= ->]]; [left|by right].
           exists q. by apply elem_of_cons; right.
        -- intros q. rewrite Hmem, elem_of_cons.
           intuition (simplify_eq; try lia; eauto 6).
    + rewrite bool_decide_eq_true_2 by done.
      edestruct (IH Hpast Hfirst) as (np' & nd' & Hscan & Hspec);
        [|exists np', nd'; split; [exact Hscan|]]; [done|].
      destruct nd' as [m|]; [|naive_solver].
      destruct Hspec as (Hmin & Hle' & Hex & Hmem).
      specialize (Hle' d eq_refl). rewrite Hacc in Hmem by done.
      split_and!.
      -- intros q d' [[= -> ->]|?]%elem_of_cons; eauto.
      -- done.
      -- left. destruct Hex as [[q Hq]|[= ->]].
         ++ exists q. by apply elem_of_cons; right.
         ++ exists p. by apply elem_of_cons; left.
      -- intros q. rewrite Hmem, elem_of_cons. set_unfold.
         intuition (simplify_eq; try lia; eauto 6).
Qed.

Lemma advance_unfold self procs np nd :
  scan (now self) (deadlines self) ∅ None = Ok (np, Some nd) →
  np ≠ ∅ →
  ∃ procs',
    advance self procs =
      Ok (mk nd (filter (λ e, e.1 ∉ np) (deadlines self)), procs', true) ∧
    woke_exactly np procs procs'.
Proof.
  intros Hscan Hne. unfold advance. rewrite Hscan. simpl.
  rewrite bool_decide_eq_false_2 by done.
  destruct (wake_all_spec (elements np) (deadlines self) procs)
    as [Hds Hprocs].
  destruct (wake_all (elements np) (deadlines self) procs) as [ds procs'].
  simpl in *. exists procs'. split.
  - rewrite Hds. do 4 f_equal. apply list_filter_iff. intros e.
    by rewrite elem_of_elements.
  - intros process. rewrite Hprocs.
    destruct (decide (process ∈ np)) as [Hin|Hnin].
    + by rewrite decide_True by by apply elem_of_elements.
    + rewrite decide_False; [done|]. by rewrite elem_of_elements.
Qed.

End timeline_facts.

(** ** Signal slots *)

Section slot_facts.
Import _PySignalState.

Lemma woke_exactly_refl procs : woke_exactly ∅ procs procs.
Proof. intros process. by rewrite decide_False by apply not_elem_of_empty. Qed.

Lemma woke_exactly_trans W1 W2 procs procs1 procs2 :
  woke_exactly W1 procs procs1 → woke_exactly W2 procs1 procs2 →
  woke_exactly (W1 ∪ W2) procs procs2.
Proof.
  intros H1 H2 process. rewrite H2, H1.
  destruct (decide (process ∈ W1)), (decide (process ∈ W2));
    [rewrite decide_True by set_solver
    |rewrite decide_True by set_solver
    |rewrite decide_True by set_solver
    |rewrite decide_False by set_solver];
    destruct (procs !! process) as [[r pa]|]; done.
Qed.

Lemma woke_exactly_wake process procs :
  woke_exactly {[process]} procs (wake process procs).
Proof.
  intros q. unfold wake. destruct (decide (q = process)) as [->|Hne].
  - rewrite lookup_alter_eq. by rewrite decide_True by set_solver.
  - rewrite lookup_alter_ne by done. by rewrite decide_False by set_solver.
Qed.

Lemma wake_waiters_spec curr items procs awoken_any :
  woke_exactly (list_to_set (matching curr items)) procs
    (wake_waiters curr items procs awoken_any).1 ∧
  (wake_waiters curr items procs awoken_any).2 =
    awoken_any || bool_decide (matching curr items ≠ []).
Proof.
  revert procs awoken_any.
  induction items as [|[process trigger] rest IH]; intros procs awoken_any;
    simpl.
  - split; [apply woke_exactly_refl|]. by rewrite orb_false_r.
  - unfold matching. destruct (triggers trigger curr) eqn:Htrig.
    + rewrite filter_cons_True by done. simpl.
      destruct (IH (wake process procs) true) as [Hw Hb]. split.
      * eapply woke_exactly_trans; [apply woke_exactly_wake|exact Hw].
      * rewrite Hb. by rewrite orb_true_r.
    + rewrite filter_cons_False by (simpl; congruence). apply IH.
Qed.

Lemma elem_of_matching curr (waiters : gmap nat (option Z)) process :
  process ∈ matching curr (map_to_list waiters) ↔
  ∃ trigger, waiters !! process = Some trigger ∧
             triggers trigger curr = true.
Proof.
  unfold matching. rewrite list_elem_of_fmap. split.
  - intros [[q trigger] [-> [Htrig Hin]%list_elem_of_filter]].
    apply elem_of_map_to_list in Hin. by exists trigger.
  - intros [trigger [Hin Htrig]]. exists (process, trigger). split; [done|].
    apply list_elem_of_filter. split; [done|]. by apply elem_of_map_to_list.
Qed.

Lemma elem_of_slot_wakes slot process :
  process ∈ slot_wakes slot ↔
  curr slot ≠ next slot ∧
  ∃ trigger, waiters slot !! process = Some trigger ∧
             (trigger = None ∨ trigger = Some (next slot)).
Proof.
  unfold slot_wakes. case_bool_decide as Heq.
  - split; [by intros ?%not_elem_of_empty|]. by intros [? _].
  - rewrite elem_of_list_to_set, elem_of_matching. split.
    + intros [trigger [Hw Htrig]]. split; [done|]. exists trigger.
      split; [done|]. destruct trigger as [v|]; [right|by left].
      simpl in Htrig. apply bool_decide_eq_true in Htrig. by subst.
    + intros [_ [trigger [Hw Htrig]]]. exists trigger. split; [done|].
      destruct Htrig as [->| ->]; [done|]. simpl. by apply bool_decide_eq_true.
Qed.

Lemma slot_commit_spec slot procs :
  ∃ procs',
    commit slot procs =
      (if bool_decide (curr slot = next slot) then slot else committed slot,
       procs', bool_decide (slot_wakes slot ≠ ∅)) ∧
    woke_exactly (slot_wakes slot) procs procs'.
Proof.
  unfold commit, slot_wakes. case_bool_decide as Heq.
  - exists procs. split; [|apply woke_exactly_refl].
    by rewrite bool_decide_eq_false_2 by (intros H; by apply H).
  - simpl.
    destruct (wake_waiters_spec (next slot) (map_to_list (waiters slot))
                procs false) as [Hw Hb].
    destruct (wake_waiters (next slot) (map_to_list (waiters slot)) procs
                false) as [procs' awoken].
    simpl in *. exists procs'. split; [|done]. subst awoken.
    unfold committed. do 2 f_equal.
    destruct (matching (next slot) (map_to_list (waiters slot))) as [|q l].
    + rewrite bool_decide_eq_false_2 by (intros H; by apply H).
      by rewrite bool_decide_eq_false_2 by (intros H; by apply H).
    + rewrite bool_decide_eq_true_2 by done.
      rewrite bool_decide_eq_true_2; [done|]. simpl. set_solver.
Qed.

End slot_facts.

(** ** Simulation state: commit *)

Section commit_facts.
Import _PySimulation.

Lemma committed_unchanged slot :
  _PySignalState.curr slot = _PySignalState.next slot → committed slot = slot.
Proof. destruct slot as [sg c n w]. unfold committed. simpl. by intros ->. Qed.

Lemma commit_wakes_insert slots indices index slot :
  index ∉ indices →
  commit_wakes (<[index := slot]> slots) indices = commit_wakes slots indices.
Proof.
  intros Hnin. unfold commit_wakes. f_equal. apply list_fmap_ext.
  intros k j Hj. rewrite list_lookup_insert_ne; [done|].
  intros ->. apply Hnin. by eapply list_elem_of_lookup_2.
Qed.

Lemma commit_slots_spec indices :
  NoDup indices →
  ∀ slots procs converged,
  ∃ slots' procs',
    commit_slots indices slots procs converged =
      (slots', procs',
       converged && bool_decide (commit_wakes slots indices = ∅)) ∧
    (∀ i, slots' !! i =
            (λ slot, if decide (i ∈ indices) then committed slot else slot)
              <$> slots !! i) ∧
    woke_exactly (commit_wakes slots indices) procs procs'.
Proof.
  induction 1 as [|index rest Hnin Hnodup IH]; intros slots procs converged.
  - exists slots, procs. simpl. split_and!.
    + unfold commit_wakes. simpl.
      by rewrite bool_decide_eq_true_2, andb_true_r by done.
    + intros i. by destruct (slots !! i).
    + apply woke_exactly_refl.
  - simpl. destruct (slots !! index) as [slot|] eqn:Hslot.
    + destruct (slot_commit_spec slot procs) as (procs1 & Hc & Hw1).
      rewrite Hc.
      set (slot1 := if bool_decide (_PySignalState.curr slot
                                    = _PySignalState.next slot)
                    then slot else committed slot).
      assert (Hslot1 : slot1 = committed slot).
      { subst slot1. case_bool_decide; [|done].
        by rewrite committed_unchanged. }
      destruct (IH (<[index := slot1]> slots) procs1
                  (if bool_decide (slot_wakes slot ≠ ∅) then false
                   else converged))
        as (slots' & procs' & Hcs & Hslots & Hw).
      exists slots', procs'. rewrite Hcs.
      rewrite commit_wakes_insert in * by done.
      assert (Hcw : commit_wakes slots (index :: rest)
                    = slot_wakes slot ∪ commit_wakes slots rest).
      { unfold commit_wakes. simpl. by rewrite Hslot. }
      rewrite Hcw. split_and!.
      * f_equal. destruct (decide (slot_wakes slot = ∅)) as [He|Hne].
        -- rewrite (bool_decide_eq_false_2 (slot_wakes slot ≠ ∅))
             by (intros H; by apply H).
           by rewrite He, (left_id_L ∅ (∪)).
        -- rewrite (bool_decide_eq_true_2 (slot_wakes slot ≠ ∅)) by done.
           rewrite (bool_decide_eq_false_2 (_ ∪ _ = ∅));
             [by rewrite andb_false_r|].
           by intros [? _]%empty_union_L.
      * intros i. rewrite Hslots.
        destruct (decide (i = index)) as [->|Hne].
        -- rewrite list_lookup_insert_eq by by eapply lookup_lt_Some.
           rewrite Hslot. simpl. rewrite decide_False by done.
           rewrite decide_True by (apply elem_of_cons; by left).
           by rewrite Hslot1.
        -- rewrite list_lookup_insert_ne by done.
           destruct (slots !! i); [simpl|done].
           destruct (decide (i ∈ rest)).
           ++ by rewrite decide_True by (apply elem_of_cons; by right).
           ++ rewrite decide_False; [done|].
              intros [?|?]%elem_of_cons; done.
      * by eapply woke_exactly_trans.
    + destruct (IH slots procs converged)
        as (slots' & procs' & Hcs & Hslots & Hw).
      exists slots', procs'. rewrite Hcs.
      assert (Hcw : commit_wakes slots (index :: rest)
                    = commit_wakes slots rest).
      { unfold commit_wakes. simpl. rewrite Hslot. simpl.
        by rewrite (left_id_L ∅ (∪)). }
      rewrite Hcw. split_and!; [done| |done].
      intros i. rewrite Hslots. destruct (slots !! i) eqn:Hi; [simpl|done].
      assert (i ≠ index) by congruence.
      destruct (decide (i ∈ rest)).
      * by rewrite decide_True by (apply elem_of_cons; by right).
      * rewrite decide_False; [done|]. intros [?|?]%elem_of_cons; done.
Qed.

Lemma elem_of_commit_wakes slots (pending : gset nat) process :
  process ∈ commit_wakes slots (elements pending) ↔
  ∃ index slot,
    index ∈ pending ∧ slots !! index = Some slot ∧
    process ∈ slot_wakes slot.
Proof.
  unfold commit_wakes. rewrite elem_of_union_list. split.
  - intros (W & [index [-> Hin]]%list_elem_of_fmap & Hp).
    destruct (slots !! index) as [slot|] eqn:Hslot; simpl in Hp.
    + exists index, slot. by rewrite <-elem_of_elements.
    + by apply not_elem_of_empty in Hp.
  - intros (index & slot & Hin & Hslot & Hp). exists (slot_wakes slot).
    split; [|done]. apply list_elem_of_fmap. exists index.
    rewrite Hslot. by rewrite elem_of_elements.
Qed.

Lemma commit_spec self procs changed :
  ∃ slots' procs',
    commit self procs changed =
      (mk (timeline self) (signals self) slots' ∅, procs',
       (λ c, c ∪ pending self) <$> changed,
       bool_decide (commit_wakes (slots self) (elements (pending self)) = ∅))
    ∧ (∀ i, slots' !! i =
              (λ slot, if decide (i ∈ pending self) then committed slot
                       else slot) <$> slots self !! i)
    ∧ woke_exactly (commit_wakes (slots self) (elements (pending self)))
        procs procs'.
Proof.
  unfold commit.
  destruct (commit_slots_spec (elements (pending self))
              (NoDup_elements _) (slots self) procs true)
    as (slots' & procs' & Hcs & Hslots & Hw).
  rewrite Hcs. exists slots', procs'. split_and!; [done| |done].
  intros i. rewrite Hslots. destruct (slots self !! i); [simpl|done].
  destruct (decide (i ∈ pending self)).
  - by rewrite decide_True by by apply elem_of_elements.
  - rewrite decide_False; [done|]. by rewrite elem_of_elements.
Qed.

End commit_facts.

(** C1 (amended).  [_PySimulation.commit]: every slot of the pending set
    whose [next] differs from [curr] gets [curr := next] and the other slots
    are left as they are; exactly the waiters of those slots whose trigger
    is [None] or equals the new value are made runnable; the pending set is
    emptied and, when a [changed] set is passed, every pending slot is added
    to it.  The result is [converged]: it is true exactly when no waiter was
    woken, whether or not a slot changed, and the delta-cycle loop of the
    engine leaves when it is true. *)
Theorem commit_converged_iff_no_waiter_woken {L : Type}
    (run : nat → L → _PySimulation.t → Process
           → result (L * _PySimulation.t * Process))
    (self : _PySimulation.t) (procs : ProcStore) (changed : option (gset nat))
    (fuel : nat) :
  ∃ slots' procs' (woken : gset nat),
    _PySimulation.commit self procs changed =
      (_PySimulation.mk (_PySimulation.timeline self)
         (_PySimulation.signals self) slots' ∅,
       procs', (λ c, c ∪ _PySimulation.pending self) <$> changed,
       bool_decide (woken = ∅)) ∧
    (∀ index,
       slots' !! index =
         (λ slot,
            if decide (index ∈ _PySimulation.pending self
                       ∧ _PySignalState.curr slot ≠ _PySignalState.next slot)
            then committed slot else slot)
         <$> _PySimulation.slots self !! index) ∧
    (∀ process,
       process ∈ woken ↔
       ∃ index slot trigger,
         index ∈ _PySimulation.pending self ∧
         _PySimulation.slots self !! index = Some slot ∧
         _PySignalState.curr slot ≠ _PySignalState.next slot ∧
         _PySignalState.waiters slot !! process = Some trigger ∧
         (trigger = None ∨ trigger = Some (_PySignalState.next slot))) ∧
    woke_exactly woken procs procs' ∧
    (∀ state1 procs1 locals1 locals,
       PySimEngine.eval run (map_to_list procs1).*1 (state1, procs1, locals1)
         = Ok (self, procs, locals) →
       PySimEngine.delta_cycles run (S fuel) (state1, procs1, locals1) changed =
         if bool_decide (woken = ∅)
         then Some (Ok (_PySimulation.mk (_PySimulation.timeline self)
                          (_PySimulation.signals self) slots' ∅,
                        procs', locals,
                        (λ c, c ∪ _PySimulation.pending self) <$> changed))
         else PySimEngine.delta_cycles run fuel
                (_PySimulation.mk (_PySimulation.timeline self)
                   (_PySimulation.signals self) slots' ∅, procs', locals)
                ((λ c, c ∪ _PySimulation.pending self) <$> changed)).
Proof.
  destruct (commit_spec self procs changed)
    as (slots' & procs' & Hc & Hslots & Hw).
  exists slots', procs',
    (commit_wakes (_PySimulation.slots self)
       (elements (_PySimulation.pending self))).
  split_and!; [done| | |done|].
  - intros index. rewrite Hslots.
    destruct (_PySimulation.slots self !! index) as [slot|]; [simpl|done].
    f_equal. destruct (decide (index ∈ _PySimulation.pending self)).
    + destruct (decide (_PySignalState.curr slot = _PySignalState.next slot)).
      * rewrite decide_False by tauto. by apply committed_unchanged.
      * by rewrite decide_True by tauto.
    + by rewrite decide_False by tauto.
  - intros process. rewrite elem_of_commit_wakes. split.
    + intros (index & slot & Hin & Hslot & (Hne & trigger & Hwt & Htrig)
                %elem_of_slot_wakes).
      by exists index, slot, trigger.
    + intros (index & slot & trigger & Hin & Hslot & Hne & Hwt & Htrig).
      exists index, slot. split_and!; [done..|].
      apply elem_of_slot_wakes. split; [done|]. by exists trigger.
  - intros state1 procs1 locals1 locals Heval. simpl. rewrite Heval, Hc. done.
Qed.

Lemma commit_converged_iff_no_waiter_woken_witness :
  let signal := Signal.mk 0 "q" 1 0 None in
  let self :=
    _PySimulation.mk _Timeline.init {[ 0%nat := (signal, 0%nat) ]}
      [_PySignalState.mk signal 0 1 {[ 7%nat := None ]}] {[ 0%nat ]} in
  let procs1 : ProcStore :=
    {[ 7%nat := mkProcess false true; 8%nat := mkProcess true true ]} in
  let procs : ProcStore :=
    {[ 7%nat := mkProcess false true; 8%nat := mkProcess false true ]} in
  let run := λ (_ : nat) (runs : nat) (st : _PySimulation.t) (pr : Process),
               Ok (S runs, st, pr) in
  ∃ slots' procs' (woken : gset nat),
    _PySimulation.commit self procs None =
      (_PySimulation.mk _Timeline.init {[ 0%nat := (signal, 0%nat) ]} slots' ∅,
       procs', None, bool_decide (woken = ∅)) ∧
    PySimEngine.eval run (map_to_list procs1).*1 (self, procs1, 0%nat)
      = Ok (self, procs, 1%nat) ∧
    PySimEngine.delta_cycles run 2 (self, procs1, 0%nat) None =
      if bool_decide (woken = ∅)
      then Some (Ok (_PySimulation.mk _Timeline.init
                       {[ 0%nat := (signal, 0%nat) ]} slots' ∅,
                     procs', 1%nat, None))
      else PySimEngine.delta_cycles run 1
             (_PySimulation.mk _Timeline.init {[ 0%nat := (signal, 0%nat) ]}
                slots' ∅, procs', 1%nat) None.
Proof.
  intros signal self procs1 procs run.
  destruct (commit_converged_iff_no_waiter_woken run self procs None 1%nat)
    as (slots' & procs' & woken & Hc & _ & _ & _ & Hloop).
  exists slots', procs', woken. split; [exact Hc|].
  assert (Heval : PySimEngine.eval run (map_to_list procs1).*1
                    (self, procs1, 0%nat)
                  = Ok (self, procs, 1%nat)) by (vm_compute; reflexivity).
  split; [exact Heval|]. exact (Hloop self procs1 0%nat 1%nat Heval).
Defined.

(** C1 as stated fails: the result of [commit] is not whether a slot
    changed.  It is [True] with nothing pending, and it is also [True] when
    a slot changes and nobody waits on it. *)
Lemma commit_result_is_not_whether_a_slot_changed :
  let signal := Signal.mk 0 "q" 1 0 None in
  let idle := _PySimulation.init in
  let busy :=
    _PySimulation.mk _Timeline.init {[ 0%nat := (signal, 0%nat) ]}
      [_PySignalState.mk signal 0 1 ∅] {[ 0%nat ]} in
  (_PySimulation.commit idle ∅ None).2 = true ∧
  (¬ ∃ index, changes_at idle index) ∧
  (_PySimulation.commit busy ∅ None).2 = true ∧
  changes_at busy 0 ∧
  _PySignalState.curr
    <$> _PySimulation.slots (_PySimulation.commit busy ∅ None).1.1.1 !! 0%nat
    = Some 1.
Proof.
  split_and!.
  - vm_compute. reflexivity.
  - intros [index [Hin _]]. by apply not_elem_of_empty in Hin.
  - vm_compute. reflexivity.
  - split; [simpl; by apply elem_of_singleton|].
    eexists. split; [reflexivity|]. simpl. lia.
  - vm_compute. reflexivity.
Qed.

(** ** Simulation state: writes *)

Section set_facts.
Import _PySimulation.

Lemma slot_set_noop self index slot value :
  slots self !! index = Some slot → _PySignalState.next slot = value →
  slot_set self index value = Ok self.
Proof.
  intros Hslot Hnext. unfold slot_set, _PySignalState.set. rewrite Hslot.
  rewrite bool_decide_eq_true_2 by done.
  rewrite list_insert_id by done. by destruct self.
Qed.

Lemma slot_set_write self index slot value :
  slots self !! index = Some slot → _PySignalState.next slot ≠ value →
  slot_set self index value =
    Ok (mk (timeline self) (signals self)
          (<[index := _PySignalState.mk (_PySignalState.signal slot)
                        (_PySignalState.curr slot) value
                        (_PySignalState.waiters slot)]> (slots self))
          ({[index]} ∪ pending self)).
Proof.
  intros Hslot Hnext. unfold slot_set, _PySignalState.set. rewrite Hslot.
  by rewrite bool_decide_eq_false_2 by done.
Qed.

Lemma slot_set_ok_inv self index value self' :
  slot_set self index value = Ok self' →
  ∃ slot, slots self !! index = Some slot.
Proof.
  unfold slot_set. destruct (slots self !! index) as [slot|]; [eauto|done].
Qed.

Lemma set_all_app ws1 ws2 self :
  set_all (ws1 ++ ws2) self = (mid ← set_all ws1 self; set_all ws2 mid).
Proof.
  revert self. induction ws1 as [|[i v] ws1 IH]; intros self; [done|].
  simpl. destruct (slot_set self i v) as [self1|e]; [apply IH|done].
Qed.

End set_facts.

(** C6.  [set] on a slot: with [value] equal to [next] nothing changes,
    neither the slots nor the pending set; otherwise [next] becomes [value]
    and the slot joins the pending set.  A second [set] with the same value
    leaves the state of the first.  The commit that follows the two equal
    writes notifies once: the slot gets [curr = next = value], its waiters
    whose trigger is [None] or [value] are made runnable when the value is
    new (and they are all the commit wakes when nothing else was pending),
    the [changed] set, if one is passed, gains this one slot besides what
    was pending, and a commit made right after it does nothing more. *)
Theorem set_idempotent (self : _PySimulation.t) (index : nat)
    (slot : _PySignalState.t) (value : Z) :
  _PySimulation.slots self !! index = Some slot →
  (_PySignalState.next slot = value →
     _PySimulation.slot_set self index value = Ok self) ∧
  (_PySignalState.next slot ≠ value →
     _PySimulation.slot_set self index value =
       Ok (_PySimulation.mk (_PySimulation.timeline self)
             (_PySimulation.signals self)
             (<[index := _PySignalState.mk (_PySignalState.signal slot)
                           (_PySignalState.curr slot) value
                           (_PySignalState.waiters slot)]>
                (_PySimulation.slots self))
             ({[index]} ∪ _PySimulation.pending self))) ∧
  ∃ once,
    _PySimulation.slot_set self index value = Ok once ∧
    _PySimulation.slot_set once index value = Ok once ∧
    (_PySignalState.next slot ≠ value →
     ∀ procs (changed : option (gset nat)),
     ∃ slots' procs' (woken : gset nat),
       let after :=
         _PySimulation.mk (_PySimulation.timeline self)
           (_PySimulation.signals self) slots' ∅ in
       let changed' :=
         (λ c, c ∪ ({[index]} ∪ _PySimulation.pending self)) <$> changed in
       _PySimulation.commit once procs changed =
         (after, procs', changed', bool_decide (woken = ∅)) ∧
       slots' !! index =
         Some (_PySignalState.mk (_PySignalState.signal slot) value value
                 (_PySignalState.waiters slot)) ∧
       woke_exactly woken procs procs' ∧
       (∀ process trigger,
          _PySignalState.curr slot ≠ value →
          _PySignalState.waiters slot !! process = Some trigger →
          trigger = None ∨ trigger = Some value →
          process ∈ woken) ∧
       (_PySimulation.pending self = ∅ →
        ∀ process,
          process ∈ woken ↔
          _PySignalState.curr slot ≠ value ∧
          ∃ trigger,
            _PySignalState.waiters slot !! process = Some trigger ∧
            (trigger = None ∨ trigger = Some value)) ∧
       _PySimulation.commit after procs' changed' =
         (after, procs', changed', true)).
Proof.
  intros Hslot. split_and!.
  - by apply slot_set_noop.
  - by apply slot_set_write.
  - destruct (decide (_PySignalState.next slot = value)) as [Heq|Hne].
    + exists self. split_and!; [by eapply slot_set_noop..|done].
    + pose (slot1 := _PySignalState.mk (_PySignalState.signal slot)
                       (_PySignalState.curr slot) value
                       (_PySignalState.waiters slot)).
      eexists. split_and!; [by apply slot_set_write| |].
      * eapply slot_set_noop; simpl.
        -- apply list_lookup_insert_eq. by eapply lookup_lt_Some.
        -- done.
      * intros _ procs changed.
        match goal with
        | |- context [_PySimulation.commit ?o _ _] =>
            destruct (commit_spec o procs changed)
              as (slots' & procs' & Hc & Hslots & Hw)
        end.
        cbn [_PySimulation.slots _PySimulation.pending _PySimulation.timeline
             _PySimulation.signals] in Hc, Hslots, Hw.
        exists slots', procs'. eexists.
        split_and!; [exact Hc| |exact Hw| | |].
        -- rewrite Hslots.
           rewrite list_lookup_insert_eq by by eapply lookup_lt_Some.
           simpl. by rewrite decide_True by set_solver.
        -- intros process trigger Hcurr Hwt Htrig.
           apply elem_of_commit_wakes. exists index, slot1.
           split_and!; [set_solver| |].
           ++ simpl. apply list_lookup_insert_eq. by eapply lookup_lt_Some.
           ++ apply elem_of_slot_wakes. split; [done|]. by exists trigger.
        -- intros Hpending process. rewrite elem_of_commit_wakes. split.
           ++ intros (i & sl & Hin & Hsl & Hp). simpl in Hin, Hsl.
              rewrite Hpending in Hin.
              assert (i = index) as -> by set_solver.
              rewrite list_lookup_insert_eq in Hsl by by eapply lookup_lt_Some.
              injection Hsl as <-. by apply elem_of_slot_wakes in Hp.
           ++ intros [Hcurr (trigger & Hwt & Htrig)]. exists index, slot1.
              split_and!; [set_solver| |].
              ** simpl. apply list_lookup_insert_eq. by eapply lookup_lt_Some.
              ** apply elem_of_slot_wakes. split; [done|]. by exists trigger.
        -- unfold _PySimulation.commit. simpl. rewrite elements_empty. simpl.
           destruct changed as [c|]; simpl; [|done].
           by rewrite (right_id_L ∅ (∪)).
Qed.

Lemma set_idempotent_witness :
  let signal := Signal.mk 0 "q" 1 0 None in
  let slot :=
    _PySignalState.mk signal 0 0 {[ 7%nat := Some 1; 8%nat := Some 0 ]} in
  let self :=
    _PySimulation.mk _Timeline.init {[ 0%nat := (signal, 0%nat) ]} [slot] ∅ in
  _PySimulation.slots self !! 0%nat = Some slot ∧
  ∃ once,
    _PySimulation.slot_set self 0 1 = Ok once ∧
    _PySimulation.slot_set once 0 1 = Ok once ∧
    (_PySignalState.next slot ≠ 1 →
     ∀ procs (changed : option (gset nat)),
     ∃ slots' procs' (woken : gset nat),
       let after :=
         _PySimulation.mk _Timeline.init {[ 0%nat := (signal, 0%nat) ]}
           slots' ∅ in
       let changed' := (λ c, c ∪ ({[0%nat]} ∪ ∅)) <$> changed in
       _PySimulation.commit once procs changed =
         (after, procs', changed', bool_decide (woken = ∅)) ∧
       slots' !! 0%nat =
         Some (_PySignalState.mk signal 1 1
                 {[ 7%nat := Some 1; 8%nat := Some 0 ]}) ∧
       woke_exactly woken procs procs' ∧
       (∀ process trigger,
          _PySignalState.curr slot ≠ 1 →
          _PySignalState.waiters slot !! process = Some trigger →
          trigger = None ∨ trigger = Some 1 →
          process ∈ woken) ∧
       (_PySimulation.pending self = ∅ →
        ∀ process,
          process ∈ woken ↔
          _PySignalState.curr slot ≠ 1 ∧
          ∃ trigger,
            _PySignalState.waiters slot !! process = Some trigger ∧
            (trigger = None ∨ trigger = Some 1)) ∧
       _PySimulation.commit after procs' changed' =
         (after, procs', changed', true)).
Proof.
  intros signal slot self. split; [reflexivity|].
  apply (set_idempotent self 0 slot 1). reflexivity.
Defined.

Section pending_facts.
Import _PySimulation.

Lemma slot_set_differing self index value self' :
  differing_are_pending self → slot_set self index value = Ok self' →
  differing_are_pending self'.
Proof.
  intros Hinv Hset. destruct (slot_set_ok_inv _ _ _ _ Hset) as [slot Hslot].
  destruct (decide (_PySignalState.next slot = value)) as [Heq|Hne].
  - rewrite (slot_set_noop _ _ _ _ Hslot Heq) in Hset. by simplify_eq.
  - rewrite (slot_set_write _ _ _ _ Hslot Hne) in Hset. simplify_eq.
    intros i sl. simpl. destruct (decide (i = index)) as [->|Hi].
    + intros _ _. set_solver.
    + rewrite list_lookup_insert_ne by done. intros Hsl Hd.
      apply elem_of_union. right. by eapply Hinv.
Qed.

Lemma set_all_differing ws self self' :
  differing_are_pending self → set_all ws self = Ok self' →
  differing_are_pending self'.
Proof.
  revert self. induction ws as [|[i v] ws IH]; intros self Hinv Hall;
    simpl in Hall.
  - by simplify_eq.
  - destruct (slot_set self i v) as [self1|] eqn:Hset; [|done].
    eapply IH; [|exact Hall]. by eapply slot_set_differing.
Qed.

Lemma set_all_pending ws self self' index :
  set_all ws self = Ok self' →
  index ∈ pending self' ↔ index ∈ pending self ∨ effective_write self ws index.
Proof.
  revert self. induction ws as [|[i v] ws IH]; intros self Hall;
    simpl in Hall.
  - simplify_eq. split; [by left|]. intros [?|(ws1 & ? & ? & ? & ? & Hnil & _)];
      [done|]. by destruct ws1.
  - destruct (slot_set self i v) as [self1|] eqn:Hset; [|done].
    simpl in Hall. rewrite (IH _ Hall).
    destruct (slot_set_ok_inv _ _ _ _ Hset) as [slot Hslot].
    assert (Hp : index ∈ pending self1 ↔
                 index ∈ pending self
                 ∨ (index = i ∧ _PySignalState.next slot ≠ v)).
    { destruct (decide (_PySignalState.next slot = v)) as [Heq|Hne].
      - rewrite (slot_set_noop _ _ _ _ Hslot Heq) in Hset. simplify_eq.
        tauto.
      - rewrite (slot_set_write _ _ _ _ Hslot Hne) in Hset. simplify_eq.
        simpl. set_solver. }
    rewrite Hp. split.
    + intros [[?|[-> Hne]]|(ws1 & value & ws2 & mid & sl & -> & Hmid & Hsl & Hv)].
      * by left.
      * right. by exists [], v, ws, self, slot.
      * right. exists ((i, v) :: ws1), value, ws2, mid, sl.
        split_and!; [done| |done..]. simpl. by rewrite Hset.
    + intros [?|(ws1 & value & ws2 & mid & sl & Hws & Hmid & Hsl & Hv)].
      * by left; left.
      * destruct ws1 as [|[i' v'] ws1]; simpl in *; simplify_eq.
        -- left; right. done.
        -- rewrite Hset in Hmid. simpl in Hmid. right.
           by exists ws1, value, ws2, mid, sl.
Qed.

End pending_facts.

(** C5 (amended).  After any sequence of [set] calls made from a state in
    which nothing is pending and every slot has [next = curr] (the state a
    commit or a reset leaves), a slot is in the pending set if and only if
    one of those calls changed its [next].  Every slot whose [next] differs
    from [curr] is therefore pending; the converse does not hold. *)
Theorem pending_iff_effective_write (self self' : _PySimulation.t)
    (ws : list (nat * Z)) :
  settled self → set_all ws self = Ok self' →
  (∀ index, index ∈ _PySimulation.pending self' ↔
            effective_write self ws index) ∧
  (∀ index slot,
     _PySimulation.slots self' !! index = Some slot →
     _PySignalState.next slot ≠ _PySignalState.curr slot →
     index ∈ _PySimulation.pending self').
Proof.
  intros [Hempty Hclean] Hall. split.
  - intros index. rewrite (set_all_pending _ _ _ _ Hall), Hempty.
    split; [intros [?%not_elem_of_empty|?]; done|by right].
  - eapply set_all_differing; [|exact Hall].
    intros index slot Hslot Hne. by specialize (Hclean _ _ Hslot).
Qed.

Lemma pending_iff_effective_write_witness :
  let signal := Signal.mk 0 "q" 1 0 None in
  let self :=
    _PySimulation.mk _Timeline.init {[ 0%nat := (signal, 0%nat) ]}
      [_PySignalState.mk signal 0 0 ∅] ∅ in
  let self' :=
    _PySimulation.mk _Timeline.init {[ 0%nat := (signal, 0%nat) ]}
      [_PySignalState.mk signal 0 5 ∅] {[ 0%nat ]} in
  settled self ∧ set_all [(0%nat, 5)] self = Ok self' ∧
  (∀ index, index ∈ _PySimulation.pending self' ↔
            effective_write self [(0%nat, 5)] index).
Proof.
  intros signal self self'.
  assert (Hs : settled self).
  { split; [reflexivity|]. intros [|i] slot Hslot; simpl in Hslot; [|done].
    by simplify_eq. }
  assert (Ha : set_all [(0%nat, 5)] self = Ok self').
  { vm_compute. reflexivity. }
  split_and!; [exact Hs|exact Ha|].
  exact (proj1 (pending_iff_effective_write self self' [(0%nat, 5)] Hs Ha)).
Defined.

(** C5 as stated fails: a slot written away from its value and back is
    pending although its [next] equals its [curr] after the last write. *)
Lemma pending_slot_with_equal_values :
  let signal := Signal.mk 0 "q" 1 0 None in
  let self :=
    _PySimulation.mk _Timeline.init {[ 0%nat := (signal, 0%nat) ]}
      [_PySignalState.mk signal 0 0 ∅] ∅ in
  ∃ self',
    set_all [(0%nat, 1); (0%nat, 0)] self = Ok self' ∧
    0%nat ∈ _PySimulation.pending self' ∧
    _PySimulation.slots self' !! 0%nat = Some (_PySignalState.mk signal 0 0 ∅).
Proof.
  eexists. split; [vm_compute; reflexivity|]. split; [|reflexivity].
  set_solver.
Qed.

(** ** Simulation state: reset *)

Section reset_facts.
Import _PySimulation.

Lemma reset_slots_spec items :
  ∀ slots,
  (∀ signal index, (signal, index) ∈ items →
     ∃ slot, slots !! index = Some slot ∧ _PySignalState.signal slot = signal) →
  ∃ slots',
    reset_slots items slots = Ok slots' ∧
    ∀ i, slots' !! i =
           (λ slot, if decide (i ∈ items.*2) then at_reset slot else slot)
             <$> slots !! i.
Proof.
  induction items as [|[signal index] rest IH]; intros slots Hitems.
  - exists slots. split; [done|]. intros i. by destruct (slots !! i).
  - destruct (Hitems signal index) as (slot & Hslot & Hsig);
      [apply elem_of_cons; by left|].
    simpl. rewrite Hslot. simpl.
    set (slot1 := _PySignalState.mk (_PySignalState.signal slot)
                    (Signal.reset signal) (Signal.reset signal)
                    (_PySignalState.waiters slot)).
    assert (Hslot1 : slot1 = at_reset slot).
    { unfold slot1, at_reset. by rewrite Hsig. }
    destruct (IH (<[index := slot1]> slots)) as (slots' & Hr & Hs).
    { intros s i Hin. destruct (decide (i = index)) as [->|Hne].
      - exists slot1.
        rewrite list_lookup_insert_eq by by eapply lookup_lt_Some.
        split; [done|]. simpl.
        destruct (Hitems s index) as (slot' & Hslot' & Hsig');
          [apply elem_of_cons; by right|]. congruence.
      - rewrite list_lookup_insert_ne by done. apply Hitems.
        apply elem_of_cons; by right. }
    exists slots'. split; [done|]. intros i. rewrite Hs.
    destruct (decide (i = index)) as [->|Hne].
    + rewrite list_lookup_insert_eq by by eapply lookup_lt_Some.
      rewrite Hslot. simpl.
      rewrite (decide_True (P := index ∈ index :: _))
        by (apply elem_of_cons; by left).
      f_equal. case_decide; [|done]. rewrite Hslot1. by destruct slot.
    + rewrite list_lookup_insert_ne by done.
      destruct (slots !! i); [simpl|done]. f_equal.
      destruct (decide (i ∈ rest.*2)).
      * by rewrite decide_True by (apply elem_of_cons; by right).
      * rewrite decide_False; [done|]. intros [?|?]%elem_of_cons; done.
Qed.

End reset_facts.

(** C7.  [_PySimulation.reset], whatever time has elapsed: [now] is 0, no
    timeline registration is left, the pending set is empty, every known
    slot has [curr] and [next] at the reset value of its signal, and the
    waiters of every slot are the ones it had. *)
Theorem reset_restores_reset_values (self : _PySimulation.t) :
  signals_have_slots self →
  ∃ slots',
    _PySimulation.reset self =
      Ok (_PySimulation.mk (_Timeline.mk 0 []) (_PySimulation.signals self)
            slots' ∅) ∧
    (∀ key signal index,
       _PySimulation.signals self !! key = Some (signal, index) →
       ∃ slot',
         slots' !! index = Some slot' ∧
         _PySignalState.curr slot' = Signal.reset signal ∧
         _PySignalState.next slot' = Signal.reset signal) ∧
    (∀ index,
       _PySignalState.waiters <$> slots' !! index =
       _PySignalState.waiters <$> _PySimulation.slots self !! index) ∧
    length slots' = length (_PySimulation.slots self).
Proof.
  intros Hwf. unfold _PySimulation.reset.
  destruct (reset_slots_spec (map_to_list (_PySimulation.signals self)).*2
              (_PySimulation.slots self)) as (slots' & Hr & Hs).
  { intros signal index [[key [s i]] [[= <- <-] Hin]]%list_elem_of_fmap.
    apply elem_of_map_to_list in Hin. by eapply Hwf. }
  exists slots'. rewrite Hr. split_and!; [done| | |].
  - intros key signal index Hkey.
    destruct (Hwf _ _ _ Hkey) as (slot & Hslot & Hsig).
    exists (at_reset slot). rewrite Hs, Hslot. simpl.
    rewrite decide_True.
    + unfold at_reset. simpl. by rewrite Hsig.
    + apply list_elem_of_fmap. exists (signal, index). split; [done|].
      apply list_elem_of_fmap. exists (key, (signal, index)). split; [done|].
      by apply elem_of_map_to_list.
  - intros index. rewrite Hs.
    destruct (_PySimulation.slots self !! index); [simpl|done].
    by case_decide.
  - apply Nat.le_antisymm; apply Nat.nlt_ge; intros Hlt.
    + destruct (lookup_lt_is_Some_2 slots' _ Hlt) as [x Hx].
      rewrite Hs, lookup_ge_None_2 in Hx by lia. done.
    + destruct (lookup_lt_is_Some_2 (_PySimulation.slots self) _ Hlt)
        as [x Hx].
      pose proof (Hs (length slots')) as Hs'. rewrite Hx in Hs'.
      rewrite lookup_ge_None_2 in Hs' by lia. done.
Qed.

Lemma reset_restores_reset_values_witness :
  let signal := Signal.mk 0 "q" 1 3 None in
  let self :=
    _PySimulation.mk (_Timeline.mk 40 [(2%nat, Some 45)])
      {[ 0%nat := (signal, 0%nat) ]}
      [_PySignalState.mk signal 1 0 {[ 2%nat := Some 1 ]}] {[ 0%nat ]} in
  signals_have_slots self ∧
  ∃ slots',
    _PySimulation.reset self =
      Ok (_PySimulation.mk (_Timeline.mk 0 []) (_PySimulation.signals self)
            slots' ∅) ∧
    (∀ key signal index,
       _PySimulation.signals self !! key = Some (signal, index) →
       ∃ slot',
         slots' !! index = Some slot' ∧
         _PySignalState.curr slot' = Signal.reset signal ∧
         _PySignalState.next slot' = Signal.reset signal) ∧
    (∀ index,
       _PySignalState.waiters <$> slots' !! index =
       _PySignalState.waiters <$> _PySimulation.slots self !! index) ∧
    length slots' = length (_PySimulation.slots self).
Proof.
  intros signal self.
  assert (Hwf : signals_have_slots self).
  { intros key s index Hkey. simpl in Hkey.
    apply lookup_singleton_Some in Hkey as [<- [= <- <-]]. by eexists. }
  split; [exact Hwf|]. exact (reset_restores_reset_values self Hwf).
Defined.

(** ** Engine *)

Section engine_facts.
Context {L : Type}.
Context (run : nat → L → _PySimulation.t → Process
               → result (L * _PySimulation.t * Process)).

Lemma any_active_spec (procs : ProcStore) :
  PySimEngine.any_active procs = true ↔
  ∃ process flags, procs !! process = Some flags ∧ passive flags = false.
Proof.
  unfold PySimEngine.any_active. rewrite existsb_exists. split.
  - intros [[process flags] [Hin Hp]]. exists process, flags.
    apply list_elem_of_In, elem_of_map_to_list in Hin. split; [done|].
    simpl in Hp. by destruct (passive flags).
  - intros (process & flags & Hl & Hp). exists (process, flags). split.
    + by apply list_elem_of_In, elem_of_map_to_list.
    + simpl. by rewrite Hp.
Qed.

(** The [changed] set is an output only: the simulation does not depend on
    whether it is collected. *)
Lemma commit_changed_irrelevant self procs changed :
  ∃ state procs' converged,
    _PySimulation.commit self procs None = (state, procs', None, converged) ∧
    _PySimulation.commit self procs (Some changed) =
      (state, procs', Some (changed ∪ _PySimulation.pending self), converged).
Proof.
  unfold _PySimulation.commit.
  destruct (_PySimulation.commit_slots _ _ _ _) as [[slots' procs'] conv].
  by eexists _, _, _.
Qed.

Lemma delta_cycles_changed_irrelevant fuel st changed :
  match PySimEngine.delta_cycles run fuel st None with
  | None => PySimEngine.delta_cycles run fuel st (Some changed) = None
  | Some (Raise e) =>
      PySimEngine.delta_cycles run fuel st (Some changed) = Some (Raise e)
  | Some (Ok (state, procs, locals, _)) =>
      ∃ changed',
        PySimEngine.delta_cycles run fuel st (Some changed) =
          Some (Ok (state, procs, locals, Some changed'))
  end.
Proof.
  revert st changed. induction fuel as [|fuel IH]; intros st changed;
    [done|].
  simpl. destruct (PySimEngine.eval run _ st) as [[[state procs] locals]|e];
    [|done].
  destruct (commit_changed_irrelevant state procs changed)
    as (state' & procs' & conv & -> & ->).
  destruct conv; [by eexists|]. apply IH.
Qed.

Lemma step_without_recorders fuel self :
  match PySimEngine._step run fuel self with
  | Some (Ok self') =>
      PySimEngine._step run fuel (without_recorders self)
        = Some (Ok (without_recorders self'))
  | None => PySimEngine._step run fuel (without_recorders self) = None
  | Some (Raise e) =>
      PySimEngine._step run fuel (without_recorders self) = Some (Raise e)
      ∨ (recording_raises run fuel self e
         ∧ ∃ next, PySimEngine._step run fuel (without_recorders self)
                   = Some (Ok next))
  end.
Proof.
  unfold PySimEngine._step, without_recorders, recording_raises. simpl.
  destruct (PySimEngine._vcd_writers self) as [|w ws] eqn:Hws; simpl.
  - destruct (PySimEngine.delta_cycles run fuel _ None)
      as [[[[[state procs] locals] changed]|e]|]; [done|by left|done].
  - pose proof (delta_cycles_changed_irrelevant fuel
                  (PySimEngine._state self, PySimEngine._processes self,
                   PySimEngine._locals self) ∅) as H.
    destruct (PySimEngine.delta_cycles run fuel _ None)
      as [[[[[state procs] locals] changed]|e]|].
    + destruct H as [changed' ->]. simpl.
      destruct (PySimEngine.record_changes state (elements changed') w)
        as [w'|e] eqn:Hw; simpl.
      * destruct (PySimEngine.record_all state (elements changed') ws)
          as [ws'|e] eqn:Hrest; simpl; [done|].
        right. split; [|by eexists]. eexists _, _, _, _. split; [done|].
        simpl. by rewrite Hw, Hrest.
      * right. split; [|by eexists]. eexists _, _, _, _. split; [done|].
        simpl. by rewrite Hw.
    + rewrite H. by left.
    + by rewrite H.
Qed.

Lemma advance_without_recorders fuel self :
  match PySimEngine.advance run fuel self with
  | Some (Ok (self', continue)) =>
      PySimEngine.advance run fuel (without_recorders self)
        = Some (Ok (without_recorders self', continue))
  | None => PySimEngine.advance run fuel (without_recorders self) = None
  | Some (Raise e) =>
      PySimEngine.advance run fuel (without_recorders self) = Some (Raise e)
      ∨ (recording_raises run fuel self e
         ∧ ∃ next, PySimEngine._step run fuel (without_recorders self)
                   = Some (Ok next))
  end.
Proof.
  unfold PySimEngine.advance.
  pose proof (step_without_recorders fuel self) as Hstep.
  destruct (PySimEngine._step run fuel self) as [[self'|e]|].
  - rewrite Hstep. simpl.
    destruct (_Timeline.advance _ _) as [[[timeline procs] woke]|e]; simpl;
      [done|by left].
  - destruct Hstep as [->|[Hrec [next Hnext]]]; [by left|].
    right. split; [done|]. by exists next.
  - by rewrite Hstep.
Qed.

End engine_facts.

(** C2 (amended).  [PySimEngine.advance] returns true if and only if some
    process is not passive after the step; the result of the timeline's own
    [advance] is dropped, so registrations left on the timeline do not keep
    the run alive. *)
Theorem advance_true_iff_active_process {L : Type}
    (run : nat → L → _PySimulation.t → Process
           → result (L * _PySimulation.t * Process))
    (fuel : nat) (self self' : PySimEngine.t (L := L)) (continue : bool) :
  PySimEngine.advance run fuel self = Some (Ok (self', continue)) →
  continue = true ↔
  ∃ process flags,
    PySimEngine._processes self' !! process = Some flags ∧
    passive flags = false.
Proof.
  unfold PySimEngine.advance. intros Hadv.
  destruct (PySimEngine._step run fuel self) as [[stepped|e]|]; [|done..].
  destruct (_Timeline.advance _ _) as [[[timeline procs] woke]|e];
    simpl in Hadv; [|done].
  simplify_eq. simpl. apply any_active_spec.
Qed.

Lemma advance_true_iff_active_process_witness :
  let run := λ (_ : nat) (l : unit) (st : _PySimulation.t) (pr : Process),
               Ok (l, st, pr) in
  let self :=
    PySimEngine.mk
      (_PySimulation.mk (_Timeline.mk 0 [(1%nat, Some 5)]) ∅ [] ∅)
      (mkFragment [] [] [] [])
      ({[ 1%nat := mkProcess false false ]} : ProcStore) () [] in
  let self' :=
    PySimEngine.mk (_PySimulation.mk (_Timeline.mk 5 []) ∅ [] ∅)
      (mkFragment [] [] [] [])
      ({[ 1%nat := mkProcess true false ]} : ProcStore) () [] in
  PySimEngine.advance run 1 self = Some (Ok (self', true)) ∧
  (true = true ↔
   ∃ process flags,
     PySimEngine._processes self' !! process = Some flags ∧
     passive flags = false).
Proof.
  intros run self self'.
  assert (Hadv : PySimEngine.advance run 1 self = Some (Ok (self', true))).
  { vm_compute. reflexivity. }
  split; [exact Hadv|].
  exact (advance_true_iff_active_process run 1 self self' true Hadv).
Defined.

(** C2 as stated fails: with passive processes only, [advance] returns
    false although an event is still scheduled on the timeline. *)
Lemma advance_false_with_future_event :
  let run := λ (_ : nat) (l : unit) (st : _PySimulation.t) (pr : Process),
               Ok (l, st, pr) in
  let self :=
    PySimEngine.mk
      (_PySimulation.mk (_Timeline.mk 0 [(1%nat, Some 5); (2%nat, Some 10)])
         ∅ [] ∅)
      (mkFragment [] [] [] [])
      ({[ 1%nat := mkProcess false true; 2%nat := mkProcess false true ]}
         : ProcStore) () [] in
  ∃ self',
    PySimEngine.advance run 1 self = Some (Ok (self', false)) ∧
    _Timeline.deadlines (_PySimulation.timeline (PySimEngine._state self'))
      = [(2%nat, Some 10)] ∧
    PySimEngine.now self' = 5.
Proof.
  eexists. split; [vm_compute; reflexivity|]. split; reflexivity.
Qed.

(** C9 (amended).  Recorders change the results of a run only by raising.
    When [n] calls of [advance] on the engine with its recorders return,
    the same calls on the engine with the recorders removed show the same
    times and committed values, return the same booleans and end in the
    same simulation state and processes; when the run with recorders does
    not converge, neither does the other.  When the run with recorders
    raises, either the run without them raises the same exception, or the
    two runs agree on the calls made so far and the exception comes from a
    recorder, raised after the delta cycles of a step that the engine
    without recorders completes. *)
Theorem recorders_change_results_only_by_raising {L : Type}
    (run : nat → L → _PySimulation.t → Process
           → result (L * _PySimulation.t * Process))
    (fuel n : nat) (self : PySimEngine.t (L := L)) :
  match advances run fuel n self with
  | Some (Ok (seen, final)) =>
      advances run fuel n (without_recorders self)
        = Some (Ok (seen, without_recorders final))
  | None => advances run fuel n (without_recorders self) = None
  | Some (Raise e) =>
      advances run fuel n (without_recorders self) = Some (Raise e)
      ∨ ∃ k seen mid next,
          (k < n)%nat ∧
          advances run fuel k self = Some (Ok (seen, mid)) ∧
          advances run fuel k (without_recorders self)
            = Some (Ok (seen, without_recorders mid)) ∧
          recording_raises run fuel mid e ∧
          PySimEngine._step run fuel (without_recorders mid) = Some (Ok next)
  end.
Proof.
  revert self. induction n as [|n IH]; intros self; [done|].
  simpl. pose proof (advance_without_recorders run fuel self) as Hadv.
  destruct (PySimEngine.advance run fuel self) as [[[self' continue]|e]|]
    eqn:Hself.
  - rewrite Hadv. specialize (IH self').
    destruct (advances run fuel n self') as [[[seen final]|e]|].
    + by rewrite IH.
    + destruct IH as [->|(k & seen & mid & next & Hk & Hwith & Hwithout
                          & Hrec & Hnext)]; [by left|].
      right. exists (S k), ((committed_values self', continue) :: seen), mid,
        next.
      split_and!; [lia| | |done..].
      * simpl. by rewrite Hself, Hwith.
      * simpl. by rewrite Hadv, Hwithout.
    + by rewrite IH.
  - destruct Hadv as [->|[Hrec [next Hnext]]]; [by left|].
    right. exists 0%nat, [], self, next. split_and!; [lia|done..].
  - by rewrite Hadv.
Qed.

(** C9 as stated fails: the decoder of [q] knows the value 0 only.  The
    constructor of the recorder accepts it, since the reset value decodes;
    the first [advance] commits 1 to [q], and the recorder raises where the
    engine without a recorder returns. *)
Lemma recorder_raising_stops_the_run :
  let q :=
    Signal.mk 0 "q" 1 0
      (Some (λ value, if bool_decide (value = 0) then Ok "IDLE"
                      else Raise KeyError)) in
  let fragment := mkFragment [] [] [mkStatement [ASignal q] []] [] in
  let state :=
    _PySimulation.mk _Timeline.init {[ 0%nat := (q, 0%nat) ]}
      [_PySignalState.init q] ∅ in
  let run := λ (_ : nat) (l : unit) (st : _PySimulation.t) (pr : Process),
               st ← _PySimulation.slot_set st 0 1; Ok (l, st, pr) in
  ∃ recorder final,
    _VCDWriter.__init__ example_open no_checks fragment
      (Some (Path "out.vcd")) None [] = Some (recorder, None) ∧
    let self :=
      PySimEngine.mk state fragment {[ 1%nat := mkProcess true false ]} ()
        [recorder] in
    advances run 2 1 self = Some (Raise KeyError) ∧
    advances run 2 1 (without_recorders self)
      = Some (Ok ([((0, [1]), true)], final)).
Proof.
  eexists _, _. split; [vm_compute; reflexivity|].
  split; vm_compute; reflexivity.
Qed.

(** ** Recording *)

Section recording_facts.
Context {L : Type}.
Context (run : nat → L → _PySimulation.t → Process
               → result (L * _PySimulation.t * Process)).

Lemma update_spec w timestamp signal value w' :
  _VCDWriter.update w timestamp signal value = Ok w' →
  _VCDWriter.vcd_vars w' = _VCDWriter.vcd_vars w ∧
  (_VCDWriter.vcd_writer w' = None ↔ _VCDWriter.vcd_writer w = None) ∧
  log w' =
    log w ++
    option_list
      (var ← _VCDWriter.vcd_vars w !! Signal.sig_id signal;
       _ ← _VCDWriter.vcd_writer w;
       written ← var_value signal value;
       Some (timestamp, VCDWriter.ident var, written)) ∧
  (is_Some (_VCDWriter.vcd_vars w !! Signal.sig_id signal) →
   is_Some (_VCDWriter.vcd_writer w) ∧ is_Some (var_value signal value)).
Proof.
  unfold _VCDWriter.update, log, var_value.
  destruct (_VCDWriter.vcd_vars w !! Signal.sig_id signal) as [var|]; simpl.
  - destruct (Signal.decoder signal) as [decoder|]; simpl.
    + destruct (_VCDWriter.decode_to_vcd decoder value) as [decoded|e];
        simpl; [|done].
      destruct (_VCDWriter.vcd_writer w) as [writer|] eqn:Hw; [|done].
      unfold VCDWriter.change.
      destruct (VCDWriter.change_check _ _ _ _ _ _ _); simpl; [done|].
      intros [= <-]. simpl. split_and!; [done|done|done|]. intros _.
      split; by eexists.
    + destruct (_VCDWriter.vcd_writer w) as [writer|] eqn:Hw; [|done].
      unfold VCDWriter.change.
      destruct (VCDWriter.change_check _ _ _ _ _ _ _); simpl; [done|].
      intros [= <-]. simpl. split_and!; [done|done|done|]. intros _.
      split; by eexists.
  - intros [= <-]. rewrite app_nil_r. split_and!; [done..|].
    by intros [? ?].
Qed.

Lemma record_of_update w w' state :
  _VCDWriter.vcd_vars w' = _VCDWriter.vcd_vars w →
  (_VCDWriter.vcd_writer w' = None ↔ _VCDWriter.vcd_writer w = None) →
  ∀ index, record_of w' state index = record_of w state index.
Proof.
  intros Hvars Hwr index. unfold record_of. rewrite Hvars.
  destruct (_PySimulation.slots state !! index); [simpl|done].
  destruct (_VCDWriter.vcd_vars w !! _); [simpl|done].
  destruct (_VCDWriter.vcd_writer w') eqn:H1,
           (_VCDWriter.vcd_writer w) eqn:H2; try done.
  - by destruct Hwr as [_ Hwr]; specialize (Hwr eq_refl).
  - by destruct Hwr as [Hwr _]; specialize (Hwr eq_refl).
Qed.

Lemma omap_record_of w w' state (l : list nat) :
  (∀ index, record_of w' state index = record_of w state index) →
  omap (record_of w' state) l = omap (record_of w state) l.
Proof.
  intros Hrec. induction l as [|a l IHl]; [done|].
  csimpl. by rewrite Hrec, IHl.
Qed.

Lemma record_changes_log state changed :
  ∀ w w',
  PySimEngine.record_changes state changed w = Ok w' →
  log w' = log w ++ omap (record_of w state) changed ∧
  ∀ index slot,
    index ∈ changed →
    _PySimulation.slots state !! index = Some slot →
    is_Some (_VCDWriter.vcd_vars w
               !! Signal.sig_id (_PySignalState.signal slot)) →
    is_Some (record_of w state index).
Proof.
  induction changed as [|index rest IH]; intros w w'; simpl.
  - intros [= <-]. rewrite app_nil_r. split; [done|].
    by intros ?? ?%elem_of_nil.
  - destruct (_PySimulation.slots state !! index) as [slot|] eqn:Hslot; simpl.
    + destruct (_VCDWriter.update w _ _ _) as [w1|e] eqn:Hupd; simpl; [|done].
      intros Hrest. destruct (IH _ _ Hrest) as [Hlog Hall].
      destruct (update_spec _ _ _ _ _ Hupd) as (Hvars & Hwr & Hlog1 & Hsome).
      pose proof (record_of_update w w1 state Hvars Hwr) as Hrec.
      split.
      * rewrite Hlog, Hlog1, (omap_record_of _ _ _ _ Hrec), <-app_assoc.
        f_equal. unfold record_of at 2. rewrite Hslot. simpl.
        by destruct (_ ≫= _).
      * intros i sl [->|Hin]%elem_of_cons Hsl Hvar.
        -- rewrite Hslot in Hsl. injection Hsl as <-.
           destruct (Hsome Hvar) as [[writer Hwriter] [written Hwritten]].
           destruct Hvar as [var Hvar]. unfold record_of.
           rewrite Hslot. simpl. rewrite Hvar. simpl. rewrite Hwriter. simpl.
           rewrite Hwritten. by eexists.
        -- rewrite <-Hrec. apply (Hall i sl Hin Hsl). by rewrite Hvars.
    + intros Hrest. destruct (IH _ _ Hrest) as [Hlog Hall]. split.
      * rewrite Hlog. unfold record_of at 2. by rewrite Hslot.
      * intros i sl [->|Hin]%elem_of_cons Hsl Hvar; [congruence|].
        by apply (Hall i sl).
Qed.

Lemma record_all_spec state changed :
  ∀ ws ws',
  PySimEngine.record_all state changed ws = Ok ws' →
  length ws' = length ws ∧
  ∀ k w, ws !! k = Some w →
    ∃ w', ws' !! k = Some w' ∧
          PySimEngine.record_changes state changed w = Ok w'.
Proof.
  induction ws as [|w0 ws IH]; intros ws'; simpl.
  - intros [= <-]. split; [done|]. by intros ??.
  - destruct (PySimEngine.record_changes state changed w0) as [w0'|e] eqn:Hw0;
      simpl; [|done].
    destruct (PySimEngine.record_all state changed ws) as [rest|e] eqn:Hrest;
      simpl; [|done].
    intros [= <-]. destruct (IH _ eq_refl) as [Hlen Hall]. split.
    + simpl. by rewrite Hlen.
    + intros [|k] w Hk; simpl in *.
      * injection Hk as <-. by exists w0'.
      * by apply Hall.
Qed.

Lemma delta_cycles_changed fuel :
  ∀ st changed state procs locals changed',
  PySimEngine.delta_cycles run fuel st (Some changed) =
    Some (Ok (state, procs, locals, changed')) →
  changed' =
    Some (changed ∪ ⋃ (_PySimulation.pending <$> commit_points run fuel st)).
Proof.
  induction fuel as [|fuel IH]; intros st changed state procs locals changed';
    [done|].
  simpl. destruct (PySimEngine.eval run _ st) as [[[state1 procs1] locals1]|e];
    [|done].
  destruct (commit_changed_irrelevant state1 procs1 changed)
    as (state2 & procs2 & conv & -> & ->).
  destruct conv.
  - intros [= <- <- <- <-]. simpl. by rewrite (right_id_L ∅ (∪)).
  - intros Hd. rewrite (IH _ _ _ _ _ _ Hd). simpl.
    by rewrite (assoc_L (∪)).
Qed.

End recording_facts.

(** C4 (amended).  With a recorder attached, a step that converges appends
    to every recorder exactly one value-change record for each slot that was
    in the pending set at some commit of the step and whose signal has a
    variable, at the current time and with the value the slot has when the
    step ends, and no record for any other slot.  A slot is pending as soon
    as a [set] changed its [next], so the record is written also when the
    committed value ends up equal to the one before the step. *)
Theorem step_records_pending_slots {L : Type}
    (run : nat → L → _PySimulation.t → Process
           → result (L * _PySimulation.t * Process))
    (fuel : nat) (self self' : PySimEngine.t (L := L)) :
  PySimEngine._vcd_writers self ≠ [] →
  PySimEngine._step run fuel self = Some (Ok self') →
  length (PySimEngine._vcd_writers self')
    = length (PySimEngine._vcd_writers self) ∧
  ∀ k w,
    PySimEngine._vcd_writers self !! k = Some w →
    ∃ w',
      PySimEngine._vcd_writers self' !! k = Some w' ∧
      log w' =
        log w ++
        omap (record_of w (PySimEngine._state self'))
          (elements (pending_in_step run fuel self)) ∧
      ∀ index slot,
        index ∈ pending_in_step run fuel self →
        _PySimulation.slots (PySimEngine._state self') !! index = Some slot →
        is_Some (_VCDWriter.vcd_vars w
                   !! Signal.sig_id (_PySignalState.signal slot)) →
        is_Some (record_of w (PySimEngine._state self') index).
Proof.
  intros Hne. unfold PySimEngine._step.
  destruct (PySimEngine._vcd_writers self) as [|w0 ws] eqn:Hws; [done|].
  destruct (PySimEngine.delta_cycles run fuel _ (Some ∅))
    as [[[[[state procs] locals] changed]|e]|] eqn:Hd; [|done..].
  apply delta_cycles_changed in Hd. rewrite (left_id_L ∅ (∪)) in Hd.
  subst changed. cbn -[elements PySimEngine.record_all].
  destruct (PySimEngine.record_all state _ (w0 :: ws)) as [writers|e] eqn:Hrec;
    [|done].
  cbn -[elements]. intros [= <-]. cbn -[elements].
  destruct (record_all_spec _ _ _ _ Hrec) as [Hlen Hall]. split; [done|].
  intros k w Hk. destruct (Hall k w Hk) as (w' & Hk' & Hw').
  exists w'. split; [done|].
  destruct (record_changes_log _ _ _ _ Hw') as [Hlog Hsome].
  split; [exact Hlog|]. intros index slot Hin. apply Hsome.
  by apply elem_of_elements.
Qed.

Lemma step_records_pending_slots_witness :
  let self := example_engine [example_recorder] in
  PySimEngine._vcd_writers self ≠ [] ∧
  ∃ self',
    PySimEngine._step write_and_write_back 2 self = Some (Ok self') ∧
    ∀ k w,
      PySimEngine._vcd_writers self !! k = Some w →
      ∃ w',
        PySimEngine._vcd_writers self' !! k = Some w' ∧
        log w' =
          log w ++
          omap (record_of w (PySimEngine._state self'))
            (elements (pending_in_step write_and_write_back 2 self)) ∧
        ∀ index slot,
          index ∈ pending_in_step write_and_write_back 2 self →
          _PySimulation.slots (PySimEngine._state self') !! index
            = Some slot →
          is_Some (_VCDWriter.vcd_vars w
                     !! Signal.sig_id (_PySignalState.signal slot)) →
          is_Some (record_of w (PySimEngine._state self') index).
Proof.
  intros self. split; [done|].
  destruct (PySimEngine._step write_and_write_back 2 self)
    as [[self'|e]|] eqn:Hstep; [|by vm_compute in Hstep..].
  exists self'. split; [done|].
  exact (proj2 (step_records_pending_slots write_and_write_back 2 self self'
                  ltac:(done) Hstep)).
Defined.

(** C4 as stated fails.  The process waits for 5 units of time and then
    drives [q] to 1 and back to 0 within one eval phase.  In the step made
    at time 5 the committed value of [q] is 0 before the step, at its only
    commit and after it, and yet a record for [q] is written. *)
Lemma record_written_for_unchanged_signal :
  let run := λ (process : nat) (runs : nat) (state : _PySimulation.t)
               (flags : Process),
    match runs with
    | O =>
        state ← _PySimulation.wait_interval state process (Some 5);
        Ok (1%nat, state, flags)
    | S _ =>
        state ← _PySimulation.slot_set state 0 1;
        state ← _PySimulation.slot_set state 0 0;
        Ok (S runs, state, flags)
    end in
  let start :=
    PySimEngine.mk example_state example_fragment
      {[ 1%nat := mkProcess true false ]} 0%nat [example_recorder] in
  ∃ self continue self' w',
    PySimEngine.advance run 2 start = Some (Ok (self, continue)) ∧
    PySimEngine.now self = 5 ∧
    PySimEngine._vcd_writers self = [example_recorder] ∧
    log example_recorder = [] ∧
    PySimEngine._step run 2 self = Some (Ok self') ∧
    _PySignalState.curr
      <$> _PySimulation.slots (PySimEngine._state self) !! 0%nat = Some 0 ∧
    Forall (λ state, ¬ ∃ index, changes_at state index)
      (commit_points run 2
         (PySimEngine._state self, PySimEngine._processes self,
          PySimEngine._locals self)) ∧
    _PySignalState.curr
      <$> _PySimulation.slots (PySimEngine._state self') !! 0%nat = Some 0 ∧
    PySimEngine._vcd_writers self' = [w'] ∧
    log w' = [(5, 0%nat, IntValue 0)].
Proof.
  eexists _, _, _, _. split; [vm_compute; reflexivity|].
  split; [reflexivity|]. split; [reflexivity|]. split; [reflexivity|].
  split; [vm_compute; reflexivity|]. split; [reflexivity|]. split.
  - match goal with
    | |- Forall _ ?l => let v := eval vm_compute in l in change l with v
    end.
    constructor; [|constructor].
    intros [index [Hin (slot & Hslot & Hne)]].
    destruct index as [|index]; [|done].
    simpl in Hslot. by simplify_eq.
  - split; [reflexivity|]. split; reflexivity.
Qed.

(** ** Name extraction *)

Section name_facts.
Import _NameExtractor.

Lemma Fragment_nested_ind (P : Fragment → Prop) :
  (∀ drivers domains statements subs,
     Forall (λ e, P e.1) subs →
     P (mkFragment drivers domains statements subs)) →
  ∀ fragment, P fragment.
Proof.
  intros Hstep. fix IH 1. intros [drivers domains statements subs].
  apply Hstep. induction subs as [|[sub name] rest IHrest].
  - constructor.
  - constructor; [apply IH|apply IHrest].
Qed.

Lemma extends_refl names : extends names names.
Proof. by intros signal x. Qed.

Lemma extends_trans n1 n2 n3 : extends n1 n2 → extends n2 n3 → extends n1 n3.
Proof. intros H1 H2 signal x H. by apply H2, H1. Qed.

Lemma elem_of_set_add x y xs : y ∈ set_add x xs ↔ y = x ∨ y ∈ xs.
Proof.
  unfold set_add. case_bool_decide.
  - split; [by right|]. by intros [->|?].
  - rewrite elem_of_app, list_elem_of_singleton. tauto.
Qed.

Lemma add_name_has names signal x : has_alias (add_name names signal x) signal x.
Proof.
  induction names as [|[s xs] rest IH]; simpl.
  - exists signal, [x]. split_and!; [|done|]; apply list_elem_of_singleton; done.
  - case_bool_decide as Hid.
    + exists s, (set_add x xs). split_and!; [by left|done|].
      apply elem_of_set_add. by left.
    + destruct IH as (s' & xs' & Hin & Hid' & Hx).
      exists s', xs'. split_and!; [by right|done..].
Qed.

Lemma add_name_extends names signal x : extends names (add_name names signal x).
Proof.
  intros sg y. induction names as [|[s xs] rest IH]; simpl.
  - intros (? & ? & ?%elem_of_nil & _). done.
  - intros (s' & xs' & Hin & Hid' & Hy).
    apply elem_of_cons in Hin as [[= -> ->]|Hin].
    + case_bool_decide.
      * exists s, (set_add x xs). split_and!; [by left|done|].
        apply elem_of_set_add. by right.
      * exists s, xs. split_and!; [by left|done..].
    + case_bool_decide.
      * exists s', xs'. split_and!; [by right|done..].
      * destruct IH as (s'' & xs'' & Hin'' & Hid'' & Hy'').
        { by exists s', xs'. }
        exists s'', xs''. split_and!; [by right|done..].
Qed.

Lemma add_ref_extends hierarchy names ref :
  extends names (add_ref hierarchy names ref).
Proof.
  destruct ref; simpl; [apply add_name_extends|apply extends_refl..].
Qed.

Lemma foldl_extends {A} (f : names_t → A → names_t) (l : list A) :
  (∀ names a, extends names (f names a)) →
  ∀ names, extends names (foldl f names l).
Proof.
  intros Hf. induction l as [|a l IH]; intros names; simpl.
  - apply extends_refl.
  - eapply extends_trans; [apply Hf|apply IH].
Qed.

Lemma foldl_has {A} (f : names_t → A → names_t) (l : list A) a signal x :
  (∀ names b, extends names (f names b)) →
  (∀ names, has_alias (f names a) signal x) →
  a ∈ l → ∀ names, has_alias (foldl f names l) signal x.
Proof.
  intros Hext Hf. induction l as [|b l IH]; intros Hin names.
  - by apply elem_of_nil in Hin.
  - simpl. apply elem_of_cons in Hin as [->|Hin].
    + by apply (foldl_extends f l Hext), Hf.
    + by apply IH.
Qed.

Lemma statement_loop_extends hierarchy statements names :
  extends names (statement_loop hierarchy statements names).
Proof.
  apply foldl_extends. intros n statement. apply foldl_extends.
  intros n' ref. apply add_ref_extends.
Qed.

Lemma statement_loop_has hierarchy statements names statement signal :
  statement ∈ statements →
  ASignal signal ∈ _lhs_signals statement ++ _rhs_signals statement →
  has_alias (statement_loop hierarchy statements names) signal
    (hierarchy, Signal.name signal).
Proof.
  intros Hst Hsig. unfold statement_loop.
  eapply (foldl_has _ _ statement); [| |done].
  - intros n st. apply foldl_extends. intros n' ref. apply add_ref_extends.
  - intros n. eapply (foldl_has _ _ (ASignal signal)); [| |done].
    + intros n' ref. apply add_ref_extends.
    + intros n'. apply add_name_has.
Qed.

Lemma domain_loop_extends domains hierarchy items :
  ∀ names names',
  domain_loop domains hierarchy items names = Ok names' → extends names names'.
Proof.
  induction items as [|[[domain_name|] sigs] rest IH]; intros names names';
    simpl.
  - intros [= <-]. apply extends_refl.
  - destruct (getitem domains domain_name) as [domain|e]; [simpl|done].
    intros Hloop. eapply extends_trans; [|by eapply IH].
    eapply extends_trans; [apply add_name_extends|].
    destruct (rst domain); [apply add_name_extends|apply extends_refl].
  - apply IH.
Qed.

Lemma subfragment_loop_extends
    (call : names_t → Fragment → list string → result names_t)
    hierarchy subs :
  Forall (λ e, ∀ names h names',
               call names e.1 h = Ok names' → extends names names') subs →
  ∀ k names names',
  subfragment_loop call hierarchy subs k names = Ok names' →
  extends names names'.
Proof.
  induction 1 as [|[sub name] rest Hsub Hrest IH]; intros k names names';
    simpl.
  - intros [= <-]. apply extends_refl.
  - destruct (call names sub _) as [names1|e] eqn:Hcall; [simpl|done].
    intros Hloop. eapply extends_trans; [by eapply Hsub|by eapply IH].
Qed.

Lemma call_extends fragment :
  ∀ names hierarchy names',
  call names fragment hierarchy = Ok names' → extends names names'.
Proof.
  induction fragment as [drivers domains statements subs IH]
    using Fragment_nested_ind.
  intros names hierarchy names'. simpl.
  destruct (domain_loop domains hierarchy drivers names) as [names1|e] eqn:Hd;
    [simpl|done].
  intros Hloop.
  eapply extends_trans; [by eapply domain_loop_extends|].
  eapply extends_trans; [apply statement_loop_extends|].
  by eapply subfragment_loop_extends.
Qed.

Lemma call_has names fragment hierarchy names' signal :
  call names fragment hierarchy = Ok names' → named_in fragment signal →
  has_alias names' signal (hierarchy, Signal.name signal).
Proof.
  destruct fragment as [drivers domains statements subs]. simpl.
  destruct (domain_loop domains hierarchy drivers names) as [names1|e];
    [simpl|done].
  intros Hloop (statement & Hst & Hsig).
  eapply subfragment_loop_extends; [|exact Hloop|].
  - apply Forall_forall. intros e _ n h n'. apply call_extends.
  - by eapply statement_loop_has.
Qed.

Lemma subfragment_loop_visits hierarchy subs :
  ∀ k0 names names' k sub name,
  subfragment_loop call hierarchy subs k0 names = Ok names' →
  subs !! k = Some (sub, name) →
  ∃ before after,
    call before sub (hierarchy ++ [scope_name (k0 + k) name]) = Ok after ∧
    extends after names'.
Proof.
  induction subs as [|[sub0 name0] rest IH];
    intros k0 names names' k sub name; simpl; [done|].
  destruct (call names sub0 _) as [names1|e] eqn:Hcall; [simpl|done].
  intros Hloop Hk. destruct k as [|k]; simpl in Hk.
  - simplify_eq. exists names, names1. rewrite Nat.add_0_r. split; [done|].
    eapply subfragment_loop_extends; [|exact Hloop].
    apply Forall_forall. intros e _ n h n'. apply call_extends.
  - destruct (IH _ _ _ _ _ _ Hloop Hk) as (before & after & Hc & Hext).
    exists before, after. split; [|done].
    by replace (k0 + S k)%nat with (S k0 + k)%nat by lia.
Qed.

End name_facts.

(** C10.  Name derivation gives every subfragment whose instance name is
    [None] the scope ["U$None"], whatever its index: a signal read or
    written by a statement of such a subfragment is recorded under the
    hierarchy of the parent followed by ["U$None"], so all the anonymous
    subfragments of one parent share that one scope. *)
Theorem anonymous_subfragments_share_scope
    (names names' : list (Signal.t * list (list string * string)))
    (fragment sub : Fragment) (hierarchy : list string) (index : nat)
    (signal : Signal.t) :
  _NameExtractor.call names fragment hierarchy = Ok names' →
  subfragments fragment !! index = Some (sub, None) →
  named_in sub signal →
  _NameExtractor.scope_name index None = "U$None" ∧
  has_alias names' signal (hierarchy ++ ["U$None"], Signal.name signal).
Proof.
  intros Hcall Hsub Hnamed. split; [done|].
  destruct fragment as [drivers domains statements subs]. simpl in *.
  destruct (_NameExtractor.domain_loop domains hierarchy drivers names)
    as [names1|e]; [simpl in Hcall|done].
  destruct (subfragment_loop_visits _ _ _ _ _ _ _ _ Hcall Hsub)
    as (before & after & Hc & Hext).
  apply Hext. by eapply call_has.
Qed.

(** ** Recorder set-up *)

Section setup_facts.
Import _VCDWriter.

Lemma string_app_nil_r (x : string) : x +:+ "" = x.
Proof.
  induction x as [|c x IH]; [done|].
  change (String c (x +:+ "") = String c x). by f_equal.
Qed.

Lemma with_suffix_inj var_name : Inj (=) (=) (with_suffix var_name).
Proof.
  intros [|j] [|k] Heq; simpl in Heq.
  - done.
  - rewrite <-(string_app_nil_r var_name) in Heq at 1.
    by apply (inj (String.append var_name)) in Heq.
  - rewrite <-(string_app_nil_r var_name) in Heq at 2.
    by apply (inj (String.append var_name)) in Heq.
  - apply (inj (String.append var_name)) in Heq.
    apply (inj (String.append "$")) in Heq.
    by apply (inj pretty) in Heq.
Qed.

(** One of the first [n + 1] suffixes is free when [n] names are declared. *)
Lemma free_suffix writer var_scope var_name :
  ∃ k, (k ≤ length (VCDWriter.declared writer))%nat ∧
       VCDWriter.taken writer var_scope (with_suffix var_name k) = false.
Proof.
  set (n := length (VCDWriter.declared writer)).
  destruct (decide (Exists (λ k, VCDWriter.taken writer var_scope
                                   (with_suffix var_name k) = false)
                      (seq 0 (S n)))) as [Hex|Hnex].
  - apply Exists_exists in Hex as (k & Hk%elem_of_seq & Hfree).
    exists k. split; [lia|done].
  - exfalso. apply not_Exists_Forall in Hnex; [|apply _].
    assert (Hincl : incl ((λ k, (var_scope, with_suffix var_name k))
                            <$> seq 0 (S n))
                      (VCDWriter.decl_name <$> VCDWriter.declared writer)).
    { intros x [k [-> Hk]]%list_elem_of_In%list_elem_of_fmap.
      apply list_elem_of_In.
      rewrite Forall_forall in Hnex. specialize (Hnex k Hk). simpl in Hnex.
      unfold VCDWriter.taken in Hnex.
      apply not_false_is_true in Hnex. by apply bool_decide_eq_true in Hnex. }
    apply NoDup_incl_length in Hincl.
    + rewrite !length_fmap, length_seq in Hincl. lia.
    + apply NoDup_ListNoDup, NoDup_fmap_2; [|apply NoDup_seq].
      intros j k [= Heq]. by apply with_suffix_inj in Heq.
Qed.

Lemma declare_spec writer d :
  match VCDWriter.declare writer d with
  | Ok writer' =>
      VCDWriter.taken writer (VCDWriter.decl_name d).1 (VCDWriter.decl_name d).2
        = false ∧
      writer' = VCDWriter.mk (VCDWriter.library writer)
                  (VCDWriter.declared writer ++ [d])
                  (VCDWriter.changes writer) (VCDWriter.closed writer)
  | Raise e =>
      (e = KeyError ∧
       VCDWriter.taken writer (VCDWriter.decl_name d).1
         (VCDWriter.decl_name d).2 = true)
      ∨ (e ≠ KeyError ∧
         VCDWriter.taken writer (VCDWriter.decl_name d).1
           (VCDWriter.decl_name d).2 = false ∧
         declaration_refused (VCDWriter.library writer) e)
  end.
Proof.
  unfold VCDWriter.declare.
  destruct (VCDWriter.taken writer _ _) eqn:Htaken; [by left|].
  destruct (VCDWriter.declare_check _ _ _ _ _) as [r|] eqn:Hcheck; [|done].
  right. split_and!; [by destruct r|done|]. by eexists _, _, _, _, _.
Qed.

(** One attempt of the loop of [register], with the name [name]. *)
Lemma attempt_spec writer (vcd_vars : gmap nat VCDWriter.variable) signal
    var_type var_size var_init var_scope name :
  match
    match vcd_vars !! Signal.sig_id signal with
    | None =>
        '(writer, vcd_var) ←
           VCDWriter.register_var writer var_scope name var_type var_size
             var_init;
        Ok (writer, <[Signal.sig_id signal := vcd_var]> vcd_vars)
    | Some vcd_var =>
        writer ← VCDWriter.register_alias writer var_scope name vcd_var;
        Ok (writer, vcd_vars)
    end
  with
  | Ok (writer', vcd_vars') =>
      VCDWriter.taken writer var_scope name = false ∧
      ∃ d, VCDWriter.decl_name d = (var_scope, name) ∧
           writer' = VCDWriter.mk (VCDWriter.library writer)
                       (VCDWriter.declared writer ++ [d])
                       (VCDWriter.changes writer) (VCDWriter.closed writer)
  | Raise e =>
      (e = KeyError ∧ VCDWriter.taken writer var_scope name = true)
      ∨ (e ≠ KeyError ∧ VCDWriter.taken writer var_scope name = false ∧
         declaration_refused (VCDWriter.library writer) e)
  end.
Proof.
  unfold VCDWriter.register_var, VCDWriter.register_alias.
  destruct (vcd_vars !! Signal.sig_id signal) as [vcd_var|].
  - pose proof (declare_spec writer (VCDWriter.Alias var_scope name vcd_var))
      as H.
    destruct (VCDWriter.declare writer _) as [writer'|e]; simpl in *; [|done].
    destruct H as [Hfree ->]. split; [done|]. eexists. split; [|reflexivity].
    done.
  - set (var := VCDWriter.mkVariable _ var_type var_size var_init).
    pose proof (declare_spec writer (VCDWriter.Var var_scope name var)) as H.
    destruct (VCDWriter.declare writer _) as [writer'|e]; simpl in *; [|done].
    destruct H as [Hfree ->]. split; [done|]. eexists. split; [|reflexivity].
    done.
Qed.

#[local] Arguments VCDWriter.register_var : simpl never.
#[local] Arguments VCDWriter.register_alias : simpl never.

Lemma register_finds writer vcd_vars signal var_type var_size var_init
    var_scope var_name fuel :
  ∀ suffix,
  (∃ k, (suffix ≤ k < suffix + fuel)%nat ∧
        VCDWriter.taken writer var_scope (with_suffix var_name k) = false) →
  ∃ r,
    register fuel writer vcd_vars signal var_type var_size var_init var_scope
      var_name suffix = Some r ∧
    match r with
    | Ok (writer', vcd_vars', var_name_suffix) =>
        VCDWriter.changes writer' = VCDWriter.changes writer ∧
        VCDWriter.library writer' = VCDWriter.library writer
    | Raise e => declaration_refused (VCDWriter.library writer) e
    end.
Proof.
  induction fuel as [|fuel IH]; intros suffix (k & Hk & Hfree); [lia|].
  simpl.
  pose proof (attempt_spec writer vcd_vars signal var_type var_size var_init
                var_scope (with_suffix var_name suffix)) as Hattempt.
  destruct (match vcd_vars !! Signal.sig_id signal with
            | Some _ => _ | None => _ end) as [[writer' vcd_vars']|e].
  - destruct Hattempt as (_ & d & _ & ->). by eexists.
  - destruct Hattempt as [[-> Htaken]|(Hne & _ & Hrefused)].
    + apply IH. exists k. split; [|done].
      assert (k ≠ suffix) by congruence. lia.
    + exists (Raise e). split; [by destruct e|done].
Qed.

Lemma register_total writer vcd_vars signal var_type var_size var_init
    var_scope var_name :
  ∃ r,
    register (S (length (VCDWriter.declared writer))) writer vcd_vars signal
      var_type var_size var_init var_scope var_name 0 = Some r ∧
    match r with
    | Ok (writer', vcd_vars', var_name_suffix) =>
        VCDWriter.changes writer' = VCDWriter.changes writer ∧
        VCDWriter.library writer' = VCDWriter.library writer
    | Raise e => declaration_refused (VCDWriter.library writer) e
    end.
Proof.
  apply register_finds.
  destruct (free_suffix writer var_scope var_name) as (k & Hk & Hfree).
  exists k. split; [lia|done].
Qed.

#[local] Arguments register : simpl never.

Lemma names_loop_spec signal var_type var_size var_init names :
  ∀ st,
  ∃ st' e,
    names_loop signal var_type var_size var_init names st = Some (st', e) ∧
    no_change_written [] st st' e ∧
    (Exists (λ x, has_blank x.2 = true) names → e ≠ None).
Proof.
  induction names as [|[var_scope var_name] rest IH];
    intros [[writer vcd_vars] gtkw_names]; simpl.
  - eexists _, _. split; [done|]. split; [done|]. by intros ?%Exists_nil.
  - destruct (has_blank var_name) eqn:Hblank.
    + eexists _, _. split; [done|]. split; [|done].
      split_and!; [done..|]. left. by eexists.
    + destruct (register_total writer vcd_vars signal var_type var_size
                  var_init var_scope var_name)
        as ([[[writer' vcd_vars'] nm]|e] & -> & Hr).
      * destruct Hr as [Hch Hlib].
        edestruct IH as (st' & e & -> & (Hch' & Hlib' & He) & Hex).
        eexists _, _. split; [done|]. split.
        -- simpl in *. split_and!; simpl; [congruence..|].
           destruct e as [e|]; [|done]. by rewrite <-Hlib.
        -- intros [Hb|Hrest]%Exists_cons; [simpl in Hb; congruence|].
           by apply Hex.
      * eexists _, _. split; [done|]. split; [|done].
        split_and!; [done..|]. by right; left.
Qed.

Lemma decoder_raises_cons item items e :
  decoder_raises items e → decoder_raises (item :: items) e.
Proof.
  intros (signal & names & decoder & Hin & Hd & He).
  exists signal, names, decoder. split; [|done]. apply elem_of_cons. by right.
Qed.

Lemma var_of_raises signal names e :
  var_of signal = Raise e → decoder_raises [(signal, names)] e.
Proof.
  unfold var_of, decode_to_vcd.
  destruct (Signal.decoder signal) as [decoder|] eqn:Hd; [|done].
  destruct (decoder (Signal.reset signal)) as [decoded|e'] eqn:He; [done|].
  intros [= ->]. exists signal, names, decoder. split; [|done].
  apply elem_of_cons. by left.
Qed.

Lemma signals_loop_spec items :
  ∀ st,
  ∃ st' e,
    signals_loop items st = Some (st', e) ∧
    no_change_written items st st' e ∧
    (Exists (λ item, Exists (λ x, has_blank x.2 = true) item.2) items →
     e ≠ None).
Proof.
  induction items as [|[signal names] rest IH]; intros st; simpl.
  - eexists _, _. split; [done|]. split; [done|]. by intros ?%Exists_nil.
  - destruct (var_of signal) as [[[var_type var_size] var_init]|e] eqn:Hvar.
    + destruct (names_loop_spec signal var_type var_size var_init names st)
        as (st1 & e1 & -> & (Hch1 & Hlib1 & He1) & Hex1).
      destruct e1 as [e1|].
      * eexists _, _. split; [done|]. split; [|done].
        split_and!; [done..|].
        destruct He1 as [?|[?|(? & ? & ? & []%elem_of_nil & _)]]; auto.
      * destruct (IH st1) as (st' & e & -> & (Hch & Hlib & He) & Hex).
        eexists _, _. split; [done|]. split.
        -- split_and!; [congruence..|]. destruct e as [e|]; [|done].
           rewrite <-Hlib1.
           destruct He as [?|[?|?]]; auto using decoder_raises_cons.
        -- intros [Hb|Hrest]%Exists_cons; [by apply Hex1 in Hb|by apply Hex].
    + eexists _, _. split; [done|]. split; [|done].
      split_and!; [done..|]. right; right.
      destruct (var_of_raises signal names e Hvar)
        as (sg & nms & decoder & Hin & Hd & He).
      exists sg, nms, decoder. split; [|done].
      apply list_elem_of_singleton in Hin as [= -> ->].
      apply elem_of_cons. by left.
Qed.

End setup_facts.

(** C8 (amended).  When a log file is written and some name of a signal to
    be declared has a leaf containing a space, a tab, a carriage return or a
    line feed (the characters the constructor looks for), the constructor
    of the recorder raises, and no value-change record has been written at
    that point.  The exception is the [NameError] of the name, unless the
    constructor has failed before it reaches the name: in opening the view
    file, on a declaration that the library refuses, or in the decoder of a
    signal called on the reset value. *)
Theorem whitespace_name_raises (open_ : string → result File.t)
    (library : VCDWriter.checks) (fragment : Fragment)
    (vcd_file : file_arg) (log_file : File.t)
    (gtkw_file : option file_arg) (traces : list Signal.t)
    (signal_names : list (Signal.t * list (list string * string)))
    (signal : Signal.t) (names : list (list string * string))
    (var_scope : list string) (var_name : string) :
  _VCDWriter.open_file open_ (Some vcd_file) = Ok (Some log_file) →
  _NameExtractor.extract fragment = Ok signal_names →
  (signal, names)
    ∈ signal_names ++ _VCDWriter.trace_names signal_names traces [] →
  (var_scope, var_name) ∈ names →
  _VCDWriter.has_blank var_name = true →
  ∃ self e,
    _VCDWriter.__init__ open_ library fragment (Some vcd_file) gtkw_file traces
      = Some (self, Some e) ∧
    log self = [] ∧
    ((∃ msg, e = NameError msg)
     ∨ _VCDWriter.open_file open_ gtkw_file = Raise e
     ∨ declaration_refused library e
     ∨ decoder_raises
         (signal_names ++ _VCDWriter.trace_names signal_names traces []) e).
Proof.
  intros Hopen Hextract Hsignal Hname Hblank. unfold _VCDWriter.__init__.
  rewrite Hopen.
  destruct (_VCDWriter.open_file open_ gtkw_file) as [view|e] eqn:Hview;
    [|eexists _, e; split; [done|]; split; [done|]; by right; left].
  rewrite Hextract. simpl.
  destruct (signals_loop_spec
              (signal_names ++ _VCDWriter.trace_names signal_names traces [])
              (VCDWriter.init_writer library, ∅, ∅))
    as ([[writer vcd_vars] gtkw_names] & e & -> & (Hch & Hlib & He) & Hex).
  destruct e as [e|].
  - eexists _, e. split; [done|]. split; [done|]. simpl in He.
    destruct He as [?|[?|?]]; auto.
  - exfalso. apply Hex; [|done]. apply Exists_exists.
    exists (signal, names). split; [done|]. apply Exists_exists.
    by exists (var_scope, var_name).
Qed.

Lemma whitespace_name_raises_witness :
  let signal := Signal.mk 0 "data out" 8 0 None in
  let fragment := mkFragment [] [] [mkStatement [ASignal signal] []] [] in
  let names := [(["bench"; "top"], "data out")] in
  _VCDWriter.open_file example_open (Some (Path "out.vcd"))
    = Ok (Some (File.mk (Ok "out.vcd") (λ _, Ok 0) None)) ∧
  _NameExtractor.extract fragment = Ok [(signal, names)] ∧
  (signal, names)
    ∈ [(signal, names)] ++ _VCDWriter.trace_names [(signal, names)] [] [] ∧
  _VCDWriter.has_blank "data out" = true ∧
  ∃ self e,
    _VCDWriter.__init__ example_open no_checks fragment
      (Some (Path "out.vcd")) None [] = Some (self, Some e) ∧
    log self = [] ∧
    ((∃ msg, e = NameError msg)
     ∨ _VCDWriter.open_file example_open None = Raise e
     ∨ declaration_refused no_checks e
     ∨ decoder_raises
         ([(signal, names)] ++ _VCDWriter.trace_names [(signal, names)] [] [])
         e).
Proof.
  intros signal fragment names.
  assert (Hextract : _NameExtractor.extract fragment = Ok [(signal, names)])
    by reflexivity.
  assert (Hin : (signal, names)
                  ∈ [(signal, names)]
                    ++ _VCDWriter.trace_names [(signal, names)] [] [])
    by (apply elem_of_cons; by left).
  split_and!; [reflexivity|exact Hextract|exact Hin|reflexivity|].
  apply (whitespace_name_raises example_open no_checks fragment
           (Path "out.vcd") _ None [] [(signal, names)]
           signal names ["bench"; "top"] "data out" eq_refl Hextract Hin).
  - apply elem_of_cons; by left.
  - reflexivity.
Defined.

(** C8 as stated fails for the whitespace characters the constructor does
    not look for: with a form feed in the name of the signal the
    constructor raises nothing and declares the variable under that name. *)
Lemma form_feed_name_is_accepted :
  let signal := Signal.mk 0 (String "d" (String "012" "q")) 8 0 None in
  let fragment := mkFragment [] [] [mkStatement [ASignal signal] []] [] in
  occurs "012"%char (Signal.name signal) = true ∧
  _VCDWriter.has_blank (Signal.name signal) = false ∧
  ∃ self writer var,
    _VCDWriter.__init__ example_open no_checks fragment
      (Some (Path "out.vcd")) None [] = Some (self, None) ∧
    _VCDWriter.vcd_writer self = Some writer ∧
    VCDWriter.declared writer
      = [VCDWriter.Var ["bench"; "top"] (String "d" (String "012" "q")) var].
Proof.
  split; [reflexivity|]. split; [reflexivity|].
  eexists _, _, _. split; [vm_compute; reflexivity|]. split; reflexivity.
Qed.

Lemma anonymous_subfragments_share_scope_witness :
  let a := Signal.mk 1 "x" 1 0 None in
  let b := Signal.mk 2 "x" 1 0 None in
  let first := mkFragment [] [] [mkStatement [ASignal a] []] [] in
  let second := mkFragment [] [] [mkStatement [] [ASignal b]] [] in
  let parent := mkFragment [] [] [] [(first, None); (second, None)] in
  let names' :=
    [(a, [(["bench"; "top"; "U$None"], "x")]);
     (b, [(["bench"; "top"; "U$None"], "x")])] in
  _NameExtractor.call [] parent ["bench"; "top"] = Ok names' ∧
  subfragments parent !! 1%nat = Some (second, None) ∧
  named_in second b ∧
  _NameExtractor.scope_name 1 None = "U$None" ∧
  has_alias names' b (["bench"; "top"] ++ ["U$None"], Signal.name b).
Proof.
  intros a b first second parent names'.
  assert (Hcall : _NameExtractor.call [] parent ["bench"; "top"] = Ok names')
    by reflexivity.
  assert (Hnamed : named_in second b).
  { exists (mkStatement [] [ASignal b]).
    split; apply elem_of_cons; by left. }
  split_and!; [exact Hcall|reflexivity|exact Hnamed|..];
    apply (anonymous_subfragments_share_scope [] names' parent second
             ["bench"; "top"] 1 b Hcall eq_refl Hnamed).
Defined.

(** * Further properties of the timeline *)

Section timeline_more.
Import _Timeline.

Lemma scan_deadline_ge now items :
  ∀ np nd np' m,
  (∀ d, nd = Some d → now ≤ d) →
  scan now items np nd = Ok (np', Some m) → now ≤ m.
Proof.
  induction items as [|[p [d|]] rest IH]; intros np nd np' m Hnd; simpl.
  - intros [= <- ->]. by apply Hnd.
  - destruct nd as [n|].
    + case_bool_decide; [|by apply IH].
      case_bool_decide; [|done]. apply IH. by intros ? [= <-].
    + case_bool_decide; [|done]. apply IH. by intros ? [= <-].
  - intros [= <- <-]. lia.
Qed.

Lemma scan_past_deadline now items :
  ∀ np nd p d,
  first_sentinel items = None →
  (p, Some d) ∈ items → d < now →
  (∀ n, nd = Some n → d ≤ n) →
  (∀ q d', (q, Some d') ∈ items → d ≤ d') →
  scan now items np nd = Raise AssertionError.
Proof.
  induction items as [|[p0 [d0|]] rest IH]; intros np nd p d Hfirst Hin Hpast
    Hnd Hmin; simpl in *; [by apply elem_of_nil in Hin| |done].
  assert (Hd0 : d ≤ d0) by (eapply Hmin; apply elem_of_cons; by left).
  assert (Hrest : ∀ q d', (q, Some d') ∈ rest → d ≤ d').
  { intros q d' Hq. eapply Hmin. apply elem_of_cons. by right. }
  apply elem_of_cons in Hin as [[= <- <-]|Hin].
  - destruct nd as [n|].
    + rewrite bool_decide_eq_true_2 by by apply Hnd.
      by rewrite bool_decide_eq_false_2 by lia.
    + by rewrite bool_decide_eq_false_2 by lia.
  - destruct nd as [n|].
    + case_bool_decide.
      * case_bool_decide; [|done]. eapply IH; try done. by intros ? [= <-].
      * eapply IH; done.
    + case_bool_decide; [|done]. eapply IH; try done. by intros ? [= <-].
Qed.

Lemma first_sentinel_None ds :
  first_sentinel ds = None ↔ ∀ p, (p, None) ∉ ds.
Proof.
  induction ds as [|[q [d|]] rest IH]; simpl.
  - split; [|done]. intros _ p. apply not_elem_of_nil.
  - rewrite IH. split; intros H p.
    + intros [?|?]%elem_of_cons; [done|]. by eapply H.
    + intros Hin. eapply H. apply elem_of_cons. by right.
  - split; [done|]. intros H. exfalso. eapply H. apply elem_of_cons. by left.
Qed.

Lemma advance_numeric self procs :
  not_in_past (now self) (deadlines self) →
  first_sentinel (deadlines self) = None → deadlines self ≠ [] →
  ∃ m procs',
    is_min_deadline m (deadlines self) ∧
    advance self procs =
      Ok (mk m (filter (λ e, e.1 ∉ at_deadline m (deadlines self))
                  (deadlines self)), procs', true) ∧
    woke_exactly (at_deadline m (deadlines self)) procs procs'.
Proof.
  intros Hpast Hfirst Hne.
  destruct (scan_numeric _ _ Hpast Hfirst ∅ None (λ _, eq_refl))
    as (np & nd & Hscan & Hspec).
  destruct nd as [m|]; [|by destruct Hspec as (_ & ? & _)].
  destruct Hspec as (Hmin & _ & [Hex|?] & Hmem); [|done].
  assert (np = at_deadline m (deadlines self)) as ->.
  { apply set_eq. intros q. rewrite Hmem, elem_of_at_deadline.
    intuition congruence. }
  destruct (advance_unfold self procs _ _ Hscan) as (procs' & Hadv & Hwoke).
  { destruct Hex as [q Hq]. apply elem_of_at_deadline in Hq.
    intros Hempty. rewrite Hempty in Hq. by apply not_elem_of_empty in Hq. }
  exists m, procs'. by split_and!.
Qed.

Lemma advance_sentinel self procs process :
  not_in_past (now self) (deadlines self) →
  first_sentinel (deadlines self) = Some process →
  ∃ procs',
    advance self procs =
      Ok (mk (now self) (del process (deadlines self)), procs', true) ∧
    woke_exactly {[process]} procs procs'.
Proof.
  intros Hpast Hfirst.
  pose proof (scan_sentinel _ _ _ Hpast Hfirst ∅ None (λ _, eq_refl))
    as Hscan.
  destruct (advance_unfold self procs _ _ Hscan) as (procs' & Hadv & Hwoke).
  { apply non_empty_singleton_L. }
  exists procs'. split; [|done]. rewrite Hadv. do 4 f_equal.
  apply list_filter_iff. intros e. by rewrite not_elem_of_singleton.
Qed.

Lemma filter_keys_NoDup (P : nat * option Z → Prop) `{!∀ e, Decision (P e)}
    (ds : list (nat * option Z)) :
  NoDup ds.*1 → NoDup (filter P ds).*1.
Proof.
  intros Hnd. eapply sublist_NoDup; [exact Hnd|].
  apply fmap_sublist, sublist_filter.
Qed.

Lemma filter_not_in_past (P : nat * option Z → Prop) `{!∀ e, Decision (P e)}
    now (ds : list (nat * option Z)) :
  not_in_past now ds → not_in_past now (filter P ds).
Proof.
  unfold not_in_past. rewrite !Forall_forall.
  intros Hpast e [_ Hin]%list_elem_of_filter. by apply Hpast.
Qed.

End timeline_more.

(** [_Timeline.advance] never moves time backwards: whenever it returns,
    [now] is at least what it was. *)
Theorem timeline_now_monotone (self self' : _Timeline.t)
    (procs procs' : ProcStore) (woke : bool) :
  _Timeline.advance self procs = Ok (self', procs', woke) →
  _Timeline.now self ≤ _Timeline.now self'.
Proof.
  unfold _Timeline.advance.
  destruct (_Timeline.scan _ _ _ _) as [[np nd]|e] eqn:Hscan; [simpl|done].
  case_bool_decide; [by intros [= <- <- <-]|].
  destruct (_Timeline.wake_all _ _ _) as [ds procs1]. intros [= <- <- <-].
  simpl. destruct nd as [m|]; [simpl|done].
  eapply scan_deadline_ge; [|exact Hscan]. done.
Qed.

Lemma timeline_now_monotone_witness :
  let self := _Timeline.mk 2 [(1%nat, Some 5); (2%nat, Some 9)] in
  ∃ procs',
    _Timeline.advance self ∅ = Ok (_Timeline.mk 5 [(2%nat, Some 9)], procs', true)
    ∧ _Timeline.now self ≤ 5.
Proof.
  intros self. exists ∅.
  assert (H : _Timeline.advance self ∅
              = Ok (_Timeline.mk 5 [(2%nat, Some 9)], ∅, true))
    by (vm_compute; reflexivity).
  split; [exact H|]. exact (timeline_now_monotone _ _ _ _ _ H).
Defined.

(** [_Timeline.advance] fails its assertion when no sentinel is registered
    and the least deadline lies in the past. *)
Theorem timeline_advance_past_deadline (self : _Timeline.t)
    (procs : ProcStore) (m : Z) :
  first_sentinel (_Timeline.deadlines self) = None →
  is_min_deadline m (_Timeline.deadlines self) →
  m < _Timeline.now self →
  _Timeline.advance self procs = Raise AssertionError.
Proof.
  intros Hfirst [[p Hp] Hmin] Hpast. unfold _Timeline.advance.
  by rewrite (scan_past_deadline _ _ ∅ None p m Hfirst Hp Hpast).
Qed.

Lemma timeline_advance_past_deadline_witness :
  let self := _Timeline.mk 10 [(1%nat, Some 12); (2%nat, Some 7)] in
  first_sentinel (_Timeline.deadlines self) = None ∧
  is_min_deadline 7 (_Timeline.deadlines self) ∧
  7 < _Timeline.now self ∧
  _Timeline.advance self ∅ = Raise AssertionError.
Proof.
  intros self.
  assert (Hmin : is_min_deadline 7 (_Timeline.deadlines self)).
  { split.
    - exists 2%nat. apply elem_of_cons. right. apply elem_of_cons. by left.
    - intros q d Hin. simpl in Hin.
      repeat (apply elem_of_cons in Hin as [[= -> ->]|Hin]; [lia|]).
      by apply elem_of_nil in Hin. }
  split_and!; [reflexivity|exact Hmin|reflexivity|].
  apply (timeline_advance_past_deadline self ∅ 7 eq_refl Hmin). reflexivity.
Defined.

(** On a timeline that respects its contract (one registration per
    process, no numeric deadline in the past) [_Timeline.advance] does not
    raise, and the timeline it leaves respects the contract again. *)
Theorem timeline_advance_keeps_contract (self : _Timeline.t)
    (procs : ProcStore) :
  NoDup (_Timeline.deadlines self).*1 →
  not_in_past (_Timeline.now self) (_Timeline.deadlines self) →
  ∃ self' procs' woke,
    _Timeline.advance self procs = Ok (self', procs', woke) ∧
    NoDup (_Timeline.deadlines self').*1 ∧
    not_in_past (_Timeline.now self') (_Timeline.deadlines self') ∧
    (woke = false ↔ _Timeline.deadlines self = []).
Proof.
  intros Hnodup Hpast.
  destruct (first_sentinel (_Timeline.deadlines self)) as [process|] eqn:Hfirst.
  - destruct (advance_sentinel self procs process Hpast Hfirst)
      as (procs' & Hadv & _).
    eexists _, procs', true. split; [exact Hadv|]. simpl. split_and!.
    + by apply filter_keys_NoDup.
    + by apply filter_not_in_past.
    + split; [done|]. intros Hnil. by rewrite Hnil in Hfirst.
  - destruct (decide (_Timeline.deadlines self = [])) as [Hnil|Hne].
    + exists self, procs, false. split_and!; [|done..].
      unfold _Timeline.advance. by rewrite Hnil.
    + destruct (advance_numeric self procs Hpast Hfirst Hne)
        as (m & procs' & [_ Hmin] & Hadv & _).
      eexists _, procs', true. split; [exact Hadv|]. simpl. split_and!.
      * by apply filter_keys_NoDup.
      * apply Forall_forall. intros [q d'] [_ Hin]%list_elem_of_filter d Hd.
        simpl in Hd. subst d'. by eapply Hmin.
      * split; done.
Qed.

Lemma timeline_advance_keeps_contract_witness :
  let self := _Timeline.mk 2 [(1%nat, Some 5); (2%nat, Some 9)] in
  NoDup (_Timeline.deadlines self).*1 ∧
  not_in_past (_Timeline.now self) (_Timeline.deadlines self) ∧
  ∃ self' procs' woke,
    _Timeline.advance self ∅ = Ok (self', procs', woke) ∧
    NoDup (_Timeline.deadlines self').*1 ∧
    not_in_past (_Timeline.now self') (_Timeline.deadlines self') ∧
    (woke = false ↔ _Timeline.deadlines self = []).
Proof.
  intros self.
  assert (Hnd : NoDup (_Timeline.deadlines self).*1).
  { simpl. repeat constructor; set_solver. }
  assert (Hpast : not_in_past (_Timeline.now self) (_Timeline.deadlines self)).
  { repeat constructor; simpl; intros d [= <-]; lia. }
  split_and!; [exact Hnd|exact Hpast|].
  exact (timeline_advance_keeps_contract self ∅ Hnd Hpast).
Defined.

(** A process may be registered once: [_Timeline.delay] fails its assertion
    for a process that is already waiting, and for a new process with a
    delay that is not negative (or [None]) it appends one registration and
    keeps the contract of the timeline. *)
Theorem timeline_delay_keeps_contract (self : _Timeline.t)
    (delay_by : option Z) (process : pid) :
  NoDup (_Timeline.deadlines self).*1 →
  not_in_past (_Timeline.now self) (_Timeline.deadlines self) →
  (∀ d, delay_by = Some d → 0 ≤ d) →
  (process ∈ (_Timeline.deadlines self).*1 →
     _Timeline.delay self delay_by process = Raise AssertionError) ∧
  (process ∉ (_Timeline.deadlines self).*1 →
     ∃ self',
       _Timeline.delay self delay_by process = Ok self' ∧
       _Timeline.now self' = _Timeline.now self ∧
       _Timeline.deadlines self' =
         _Timeline.deadlines self
         ++ [(process, Some (_Timeline.now self + default 0 delay_by))] ∧
       NoDup (_Timeline.deadlines self').*1 ∧
       not_in_past (_Timeline.now self') (_Timeline.deadlines self')).
Proof.
  intros Hnodup Hpast Hdelay. unfold _Timeline.delay, _Timeline.at_,
    _Timeline.registered. split; intros Hin.
  - by rewrite bool_decide_eq_true_2.
  - rewrite bool_decide_eq_false_2 by done. eexists. split; [done|]. simpl.
    split_and!.
    + done.
    + destruct delay_by; simpl; [done|]. by rewrite Z.add_0_r.
    + rewrite fmap_app. apply NoDup_app. split_and!; [done| |].
      * intros q Hq [->|?%elem_of_nil]%elem_of_cons; done.
      * simpl. repeat constructor. apply not_elem_of_nil.
    + apply Forall_app. split; [done|]. repeat constructor. simpl.
      intros d [= <-]. destruct delay_by as [d|]; [|lia].
      specialize (Hdelay d eq_refl). lia.
Qed.

Lemma timeline_delay_keeps_contract_witness :
  let self := _Timeline.mk 3 [(1%nat, Some 8)] in
  NoDup (_Timeline.deadlines self).*1 ∧
  not_in_past (_Timeline.now self) (_Timeline.deadlines self) ∧
  (1%nat ∈ (_Timeline.deadlines self).*1 →
     _Timeline.delay self (Some 4) 1 = Raise AssertionError) ∧
  (2%nat ∉ (_Timeline.deadlines self).*1 →
     ∃ self',
       _Timeline.delay self (Some 4) 2 = Ok self' ∧
       _Timeline.now self' = _Timeline.now self ∧
       _Timeline.deadlines self' =
         _Timeline.deadlines self ++ [(2%nat, Some (3 + 4))] ∧
       NoDup (_Timeline.deadlines self').*1 ∧
       not_in_past (_Timeline.now self') (_Timeline.deadlines self')).
Proof.
  intros self.
  assert (Hnd : NoDup (_Timeline.deadlines self).*1).
  { simpl. repeat constructor; set_solver. }
  assert (Hpast : not_in_past (_Timeline.now self) (_Timeline.deadlines self)).
  { repeat constructor; simpl; intros d [= <-]; lia. }
  assert (Hd : ∀ d, Some 4 = Some d → 0 ≤ d) by (intros d [= <-]; lia).
  split_and!; [exact Hnd|exact Hpast|..].
  - exact (proj1 (timeline_delay_keeps_contract self (Some 4) 1 Hnd Hpast Hd)).
  - exact (proj2 (timeline_delay_keeps_contract self (Some 4) 2 Hnd Hpast Hd)).
Defined.

Section settle_facts.
Import _Timeline.

Lemma first_sentinel_app ds1 ds2 :
  first_sentinel ds1 = None →
  first_sentinel (ds1 ++ ds2) = first_sentinel ds2.
Proof.
  induction ds1 as [|[q [d|]] rest IH]; simpl; [done| |done]. apply IH.
Qed.

Lemma filter_all_in {A} (P : A → Prop) `{!∀ x, Decision (P x)} (l : list A) :
  (∀ x, x ∈ l → P x) → filter P l = l.
Proof.
  induction l as [|x l IH]; intros HP; [done|].
  rewrite filter_cons_True by (apply HP, elem_of_cons; by left).
  f_equal. apply IH. intros y Hy. apply HP, elem_of_cons. by right.
Qed.

Lemma settle_then_advance self procs process :
  process ∉ (deadlines self).*1 →
  Forall (λ e, ∃ d, e.2 = Some d ∧ now self < d) (deadlines self) →
  ∃ procs',
    advance (mk (now self) (deadlines self ++ [(process, Some (now self))]))
      procs = Ok (self, procs', true) ∧
    woke_exactly {[process]} procs procs'.
Proof.
  intros Hfresh Hfuture.
  set (self1 := mk (now self) (deadlines self ++ [(process, Some (now self))])).
  assert (Hpast : not_in_past (now self1) (deadlines self1)).
  { apply Forall_app. split.
    - eapply Forall_impl; [exact Hfuture|]. intros e (d & -> & Hd) ? [= <-].
      simpl. lia.
    - repeat constructor. simpl. intros ? [= <-]. lia. }
  assert (Hfirst : first_sentinel (deadlines self1) = None).
  { simpl. rewrite first_sentinel_app; [done|].
    apply first_sentinel_None. intros q Hq.
    rewrite Forall_forall in Hfuture.
    destruct (Hfuture _ Hq) as (d & Hd & _). done. }
  destruct (advance_numeric self1 procs Hpast Hfirst) as
    (m & procs' & [[q Hq] Hmin] & Hadv & Hwoke).
  { simpl. by destruct (deadlines self). }
  assert (m = now self) as ->.
  { apply Z.le_antisymm.
    - apply (Hmin process). simpl. apply elem_of_app. right.
      apply elem_of_cons. by left.
    - unfold not_in_past in Hpast. rewrite Forall_forall in Hpast.
      by apply (Hpast _ Hq). }
  assert (Hat : at_deadline (now self) (deadlines self1) = {[process]}).
  { apply set_eq. intros p. rewrite elem_of_at_deadline, elem_of_singleton.
    simpl. rewrite elem_of_app, list_elem_of_singleton. split.
    - intros [Hin|[= ->]]; [|done]. rewrite Forall_forall in Hfuture.
      destruct (Hfuture _ Hin) as (d & [= <-] & Hd). lia.
    - intros ->. by right. }
  rewrite Hat in Hadv, Hwoke. exists procs'. split; [|done].
  rewrite Hadv. do 3 f_equal. destruct self as [n ds]. simpl in *. f_equal.
  rewrite filter_app, filter_all_in.
  - rewrite filter_cons_False, filter_nil, app_nil_r; [done|].
    simpl. intros H. apply H. by apply elem_of_singleton.
  - intros [q' d'] Hin. simpl. rewrite not_elem_of_singleton. intros ->.
    apply Hfresh. apply list_elem_of_fmap. by exists (process, d').
Qed.

End settle_facts.

(** Zero-delay priority: a process that asks to settle ([delay(None, _)])
    while every other registration lies strictly in the future is the only
    one woken by the next [advance]; time does not move and the other
    registrations stay as they are. *)
Theorem settle_wakes_before_later_deadlines (self : _Timeline.t)
    (procs : ProcStore) (process : pid) :
  process ∉ (_Timeline.deadlines self).*1 →
  Forall (λ e, ∃ d, e.2 = Some d ∧ _Timeline.now self < d)
    (_Timeline.deadlines self) →
  ∃ waiting procs',
    _Timeline.delay self None process = Ok waiting ∧
    _Timeline.advance waiting procs = Ok (self, procs', true) ∧
    woke_exactly {[process]} procs procs'.
Proof.
  intros Hfresh Hfuture.
  destruct (settle_then_advance self procs process Hfresh Hfuture)
    as (procs' & Hadv & Hwoke).
  eexists _, procs'. split; [|split; [exact Hadv|exact Hwoke]].
  unfold _Timeline.delay, _Timeline.at_, _Timeline.registered.
  by rewrite bool_decide_eq_false_2.
Qed.

Lemma settle_wakes_before_later_deadlines_witness :
  let self := _Timeline.mk 3 [(1%nat, Some 8)] in
  let procs : ProcStore :=
    {[ 1%nat := mkProcess false false; 2%nat := mkProcess false false ]} in
  2%nat ∉ (_Timeline.deadlines self).*1 ∧
  ∃ waiting procs',
    _Timeline.delay self None 2 = Ok waiting ∧
    _Timeline.advance waiting procs = Ok (self, procs', true) ∧
    woke_exactly {[2%nat]} procs procs'.
Proof.
  intros self procs.
  assert (Hfresh : 2%nat ∉ (_Timeline.deadlines self).*1) by (simpl; set_solver).
  split; [exact Hfresh|].
  apply (settle_wakes_before_later_deadlines self procs 2 Hfresh).
  repeat constructor. exists 8. split; [reflexivity|simpl; lia].
Defined.

Section reachable_facts.
Import _Timeline.

Lemma scan_raise_inv now items :
  ∀ np nd e,
  scan now items np nd = Raise e →
  e = AssertionError ∧ ∃ process d, (process, Some d) ∈ items ∧ d < now.
Proof.
  induction items as [|[p [d|]] rest IH]; intros np nd e; simpl; [done| |done].
  assert (Hrest : ∀ np nd, scan now rest np nd = Raise e →
            e = AssertionError
            ∧ ∃ process d0, (process, Some d0) ∈ (p, Some d) :: rest ∧ d0 < now).
  { intros np0 nd0 H. destruct (IH _ _ _ H) as (-> & q & d0 & Hq & Hd0).
    split; [done|]. exists q, d0. split; [|done]. apply elem_of_cons. by right. }
  assert (Hhere : ¬ now ≤ d →
            ∃ process d0, (process, Some d0) ∈ (p, Some d) :: rest ∧ d0 < now).
  { intros Hd. exists p, d. split; [apply elem_of_cons; by left|lia]. }
  destruct nd as [n|].
  - case_bool_decide; [|by apply Hrest].
    case_bool_decide; [by apply Hrest|]. intros [= <-]. split; [done|auto].
  - case_bool_decide; [by apply Hrest|]. intros [= <-]. split; [done|auto].
Qed.

Lemma scan_ok_not_in_past now items :
  first_sentinel items = None →
  ∀ np nd r,
  (∀ n, nd = Some n → now ≤ n) →
  scan now items np nd = Ok r → not_in_past now items.
Proof.
  induction items as [|[p [d|]] rest IH]; intros Hfirst np nd r Hnd; simpl in *;
    [by constructor| |done].
  destruct nd as [n|].
  - case_bool_decide as Hle.
    + case_bool_decide as Hnow; [|done]. intros Hscan. constructor.
      * by intros ? [= <-].
      * eapply (IH Hfirst _ (Some d)); [|exact Hscan]. by intros ? [= <-].
    + intros Hscan. constructor.
      * intros ? [= <-]. specialize (Hnd n eq_refl). lia.
      * eapply (IH Hfirst _ (Some n)); [|exact Hscan]. done.
  - case_bool_decide as Hnow; [|done]. intros Hscan. constructor.
    + by intros ? [= <-].
    + eapply (IH Hfirst _ (Some d)); [|exact Hscan]. by intros ? [= <-].
Qed.

Lemma advance_raise_inv self procs e :
  advance self procs = Raise e →
  e = AssertionError ∧
  ∃ process d, (process, Some d) ∈ deadlines self ∧ d < now self.
Proof.
  unfold advance.
  destruct (scan _ _ _ _) as [[np nd]|e'] eqn:Hscan; simpl.
  - case_bool_decide; [done|]. by destruct (wake_all _ _ _).
  - intros [= ->]. by eapply scan_raise_inv.
Qed.

Lemma advance_ok_inv self procs self' procs' woke :
  first_sentinel (deadlines self) = None →
  advance self procs = Ok (self', procs', woke) →
  not_in_past (now self) (deadlines self) ∧
  ((deadlines self = [] ∧ self' = self ∧ procs' = procs ∧ woke = false)
   ∨ ∃ m, is_min_deadline m (deadlines self) ∧
          self' = mk m (filter (λ e, e.1 ∉ at_deadline m (deadlines self))
                          (deadlines self)) ∧
          woke_exactly (at_deadline m (deadlines self)) procs procs' ∧
          woke = true).
Proof.
  intros Hfirst Hadv.
  assert (Hpast : not_in_past (now self) (deadlines self)).
  { unfold advance in Hadv.
    destruct (scan _ _ _ _) as [r|e] eqn:Hscan; [|done].
    eapply scan_ok_not_in_past; [exact Hfirst| |exact Hscan]. done. }
  split; [exact Hpast|].
  destruct (decide (deadlines self = [])) as [Hnil|Hne].
  - left. unfold advance in Hadv. rewrite Hnil in Hadv. simpl in Hadv.
    by injection Hadv as <- <- <-.
  - right. destruct (advance_numeric self procs Hpast Hfirst Hne)
      as (m & procs1 & Hmin & Hadv1 & Hwoke).
    rewrite Hadv1 in Hadv. injection Hadv as <- <- <-. by exists m.
Qed.

Lemma unique_deadline (ds : list (nat * option Z)) process d1 d2 :
  NoDup ds.*1 → (process, d1) ∈ ds → (process, d2) ∈ ds → d1 = d2.
Proof.
  induction ds as [|[q d] rest IH]; simpl; intros Hnd H1 H2.
  - by apply elem_of_nil in H1.
  - apply NoDup_cons in Hnd as [Hq Hnd].
    apply elem_of_cons in H1 as [H1|H1];
      apply elem_of_cons in H2 as [H2|H2]; simplify_eq; [done| | |by apply IH].
    + exfalso. apply Hq. apply list_elem_of_fmap. by exists (q, d2).
    + exfalso. apply Hq. apply list_elem_of_fmap. by exists (q, d1).
Qed.

Lemma reachable_inv settle self :
  reachable settle self →
  first_sentinel (deadlines self) = None ∧
  NoDup (deadlines self).*1 ∧
  ∀ process, process ∈ settle ↔ (process, Some (now self)) ∈ deadlines self.
Proof.
  induction 1 as [|settle self _ _
                  |settle self delay_by process self' _ (Hfirst & Hnd & Hs) Hdelay
                  |settle self procs self' procs' woke _ (Hfirst & Hnd & Hs) Hadv].
  - split_and!; [done|constructor|]. intros p. split.
    + by intros ?%not_elem_of_empty.
    + by intros ?%elem_of_nil.
  - split_and!; [done|constructor|]. intros p. split.
    + by intros ?%not_elem_of_empty.
    + by intros ?%elem_of_nil.
  - unfold delay, at_, registered in Hdelay.
    case_bool_decide as Hreg; [done|]. injection Hdelay as <-. simpl.
    split_and!.
    + by rewrite first_sentinel_app.
    + rewrite fmap_app. apply NoDup_app. split_and!; [done| |].
      * intros q Hq [->|?%elem_of_nil]%elem_of_cons; done.
      * simpl. repeat constructor. apply not_elem_of_nil.
    + intros p. rewrite elem_of_app, list_elem_of_singleton.
      destruct delay_by as [d|]; simpl.
      * case_bool_decide as Hd.
        -- subst d. rewrite Z.add_0_r, elem_of_union, elem_of_singleton, Hs.
           split; [intros [->|?]; auto|intros [?|[= ->]]; auto].
        -- rewrite Hs. split; [auto|]. intros [?|[= -> Heq]]; [done|]. lia.
      * rewrite elem_of_union, elem_of_singleton, Hs.
        split; [intros [->|?]; auto|intros [?|[= ->]]; auto].
  - destruct (advance_ok_inv _ _ _ _ _ Hfirst Hadv)
      as [Hpast [(Hnil & -> & _)|(m & [[q0 Hq0] Hmin] & -> & _)]].
    + split_and!; [done..|]. intros p. rewrite elem_of_filter, Hs, Hnil.
      split; [by intros [_ ?%elem_of_nil]|by intros ?%elem_of_nil].
    + simpl. split_and!.
      * apply first_sentinel_None. intros p [_ Hin]%list_elem_of_filter.
        by eapply first_sentinel_None in Hfirst.
      * by apply filter_keys_NoDup.
      * intros p. split.
        -- intros [Hreg Hp]%elem_of_filter. exfalso.
           apply Hs in Hp.
           assert (m = now self) as ->.
           { apply Z.le_antisymm; [by eapply Hmin|].
             unfold not_in_past in Hpast. rewrite Forall_forall in Hpast.
             by apply (Hpast _ Hq0). }
           apply list_elem_of_fmap in Hreg
             as ([q d] & -> & [Hq _]%list_elem_of_filter).
           apply Hq. simpl. by apply elem_of_at_deadline.
        -- intros [Hq Hin]%list_elem_of_filter. exfalso. apply Hq. simpl.
           by apply elem_of_at_deadline.
Qed.

End reachable_facts.

(** C3.  [_Timeline.advance] on a timeline the simulator can build.  Such a
    timeline holds numeric deadlines only, at most one per process, and the
    zero-delay registrations, made by a settle request ([delay(None, _)])
    or with a delay of 0, are exactly the registrations at [now].  When one
    exists, [advance] wakes and unregisters all of them together, it wakes
    no process whose deadline is later and leaves those registered, and
    [now] does not move.  Only when there is none does it wake and
    unregister every process registered at exactly the least deadline and
    set [now] to that deadline; with no registration nothing changes.  The
    one way to fail is the assertion, on a deadline that a negative delay
    has put in the past. *)
Theorem timeline_advance_zero_delay_first (settle : gset nat)
    (self : _Timeline.t) (procs : ProcStore) :
  reachable settle self →
  let ds := _Timeline.deadlines self in
  let zero := at_deadline (_Timeline.now self) ds in
  (∀ process, (process, None) ∉ ds) ∧
  NoDup ds.*1 ∧
  settle = zero ∧
  match _Timeline.advance self procs with
  | Raise e =>
      e = AssertionError ∧
      ∃ process d, (process, Some d) ∈ ds ∧ d < _Timeline.now self
  | Ok (self', procs', woke) =>
      not_in_past (_Timeline.now self) ds ∧
      (zero ≠ ∅ →
         woke = true ∧
         self' = _Timeline.mk (_Timeline.now self)
                   (filter (λ e, e.1 ∉ zero) ds) ∧
         woke_exactly zero procs procs' ∧
         ∀ process d,
           (process, Some d) ∈ ds → _Timeline.now self < d →
           process ∉ zero ∧ (process, Some d) ∈ _Timeline.deadlines self') ∧
      (zero = ∅ → ds ≠ [] →
         ∃ m,
           is_min_deadline m ds ∧ _Timeline.now self < m ∧
           woke = true ∧
           self' = _Timeline.mk m (filter (λ e, e.1 ∉ at_deadline m ds) ds) ∧
           woke_exactly (at_deadline m ds) procs procs') ∧
      (ds = [] → woke = false ∧ self' = self ∧ procs' = procs)
  end.
Proof.
  intros Hreach ds zero.
  destruct (reachable_inv _ _ Hreach) as (Hfirst & Hnd & Hs).
  split_and!; [by apply first_sentinel_None|done| |].
  { apply set_eq. intros p. unfold zero, ds. by rewrite elem_of_at_deadline. }
  destruct (_Timeline.advance self procs) as [[[self' procs'] woke]|e] eqn:Hadv;
    [|by eapply advance_raise_inv].
  destruct (advance_ok_inv _ _ _ _ _ Hfirst Hadv) as [Hpast Hcases].
  assert (Hge : ∀ process d, (process, Some d) ∈ ds → _Timeline.now self ≤ d).
  { intros p d Hin. unfold not_in_past in Hpast. rewrite Forall_forall in Hpast.
    by apply (Hpast _ Hin). }
  split_and!; [done| | |].
  - intros Hzero.
    destruct Hcases as [(Hnil & _)|(m & [[q Hq] Hmin] & -> & Hwoke & ->)].
    { exfalso. apply Hzero. unfold zero, ds. by rewrite Hnil. }
    assert (m = _Timeline.now self) as ->.
    { apply Z.le_antisymm; [|by eapply Hge].
      apply set_choose_L in Hzero as [p Hp].
      apply elem_of_at_deadline in Hp. by eapply Hmin. }
    split_and!; [done..|]. intros p d Hin Hd.
    assert (Hp : p ∉ zero).
    { intros Hp%elem_of_at_deadline.
      pose proof (unique_deadline _ _ _ _ Hnd Hin Hp) as [= ->]. lia. }
    split; [done|]. simpl. by apply list_elem_of_filter.
  - intros Hzero Hne.
    destruct Hcases as [(Hnil & _)|(m & [[q Hq] Hmin] & -> & Hwoke & ->)];
      [done|].
    exists m. split_and!; [by split; [exists q|]| |done..].
    destruct (decide (m = _Timeline.now self)) as [->|Hm].
    { exfalso. apply elem_of_at_deadline in Hq. fold ds zero in Hq.
      rewrite Hzero in Hq. by apply not_elem_of_empty in Hq. }
    specialize (Hge _ _ Hq). lia.
  - intros Hnil. destruct Hcases as [(_ & -> & -> & ->)|(m & [[q Hq] _] & _)];
      [done|].
    fold ds in Hq. rewrite Hnil in Hq. by apply elem_of_nil in Hq.
Qed.

Lemma timeline_advance_zero_delay_first_witness :
  let self := _Timeline.mk 0 [(2%nat, Some 5); (1%nat, Some 0)] in
  let procs : ProcStore :=
    {[ 1%nat := mkProcess false false; 2%nat := mkProcess false false ]} in
  let zero := at_deadline 0 (_Timeline.deadlines self) in
  reachable ({[1%nat]} ∪ ∅) self ∧
  {[1%nat]} ∪ ∅ = zero ∧
  match _Timeline.advance self procs with
  | Raise e => False
  | Ok (self', procs', woke) =>
      woke = true ∧
      self' = _Timeline.mk 0 (filter (λ e, e.1 ∉ zero)
                                (_Timeline.deadlines self)) ∧
      woke_exactly zero procs procs' ∧
      (2%nat ∉ zero ∧ (2%nat, Some 5) ∈ _Timeline.deadlines self')
  end.
Proof.
  intros self procs zero.
  assert (Hreach : reachable ({[1%nat]} ∪ ∅) self).
  { apply (reachable_delay ∅ (_Timeline.mk 0 [(2%nat, Some 5)]) None 1%nat);
      [|reflexivity].
    apply (reachable_delay ∅ _Timeline.init (Some 5) 2%nat); [|reflexivity].
    apply reachable_init. }
  split; [exact Hreach|].
  pose proof (timeline_advance_zero_delay_first _ self procs Hreach)
    as (_ & _ & Hsettle & Hadv).
  split; [exact Hsettle|].
  assert (Hzero : zero ≠ ∅).
  { assert (Hz : {[1%nat]} ∪ ∅ = zero) by exact Hsettle.
    rewrite <-Hz. set_solver. }
  destruct (_Timeline.advance self procs) as [[[self' procs'] woke]|e].
  - destruct Hadv as (_ & Hwake & _).
    destruct (Hwake Hzero) as (Hwoke & Hself & Hprocs & Hlater).
    split_and!; [done..|]. apply Hlater; [|simpl; lia].
    apply elem_of_cons. by left.
  - destruct Hadv as (_ & p & d & Hin & Hd). simpl in Hin, Hd.
    repeat (apply elem_of_cons in Hin as [[= -> ->]|Hin]; [lia|]).
    by apply elem_of_nil in Hin.
Defined.

(** * Further properties of the simulation state *)

Section state_more.
Import _PySimulation.

Lemma get_signal_known self signal stored index :
  signals self !! Signal.sig_id signal = Some (stored, index) →
  get_signal self signal = (self, index).
Proof. intros H. unfold get_signal. by rewrite H. Qed.

Lemma get_signal_new self signal :
  signals self !! Signal.sig_id signal = None →
  get_signal self signal =
    (mk (timeline self)
        (<[Signal.sig_id signal := (signal, length (slots self))]>
           (signals self))
        (slots self ++ [_PySignalState.init signal]) (pending self),
     length (slots self)).
Proof. intros H. unfold get_signal. by rewrite H. Qed.

Lemma with_waiters_ok self index slot f waiters' :
  slots self !! index = Some slot →
  f (_PySignalState.waiters slot) = Ok waiters' →
  with_waiters self index f =
    Ok (mk (timeline self) (signals self)
          (<[index := _PySignalState.mk (_PySignalState.signal slot)
                        (_PySignalState.curr slot)
                        (_PySignalState.next slot) waiters']> (slots self))
          (pending self)).
Proof. intros Hslot Hf. unfold with_waiters. by rewrite Hslot, Hf. Qed.

Lemma with_waiters_raise self index slot f e :
  slots self !! index = Some slot →
  f (_PySignalState.waiters slot) = Raise e →
  with_waiters self index f = Raise e.
Proof. intros Hslot Hf. unfold with_waiters. by rewrite Hslot, Hf. Qed.

Lemma commit_leaves_settled self procs changed :
  differing_are_pending self → settled (commit self procs changed).1.1.1.
Proof.
  intros Hinv.
  destruct (commit_spec self procs changed) as (slots' & procs' & -> & Hs & _).
  simpl. split; [done|]. intros index slot'. simpl. rewrite Hs.
  destruct (slots self !! index) as [slot|] eqn:Hslot; [simpl|done].
  intros [= <-]. case_decide as Hin; [done|].
  destruct (decide (_PySignalState.next slot = _PySignalState.curr slot));
    [done|]. exfalso. by eapply Hin, Hinv.
Qed.

End state_more.

(** [get_signal] allocates a slot the first time a signal is seen, at the
    end of the slot table and at the reset value, and gives the same index
    without touching the state from then on; earlier slots, the timeline and
    the pending set are left alone, and every known signal keeps pointing
    at the slot made for it. *)
Theorem get_signal_allocates_once (self : _PySimulation.t)
    (signal : Signal.t) :
  signals_have_slots self →
  ∃ self' index,
    _PySimulation.get_signal self signal = (self', index) ∧
    _PySimulation.get_signal self' signal = (self', index) ∧
    signals_have_slots self' ∧
    _PySimulation.timeline self' = _PySimulation.timeline self ∧
    _PySimulation.pending self' = _PySimulation.pending self ∧
    (is_Some (_PySimulation.signals self !! Signal.sig_id signal) →
       self' = self) ∧
    (_PySimulation.signals self !! Signal.sig_id signal = None →
       index = length (_PySimulation.slots self) ∧
       _PySimulation.slots self' =
         _PySimulation.slots self ++ [_PySignalState.init signal]).
Proof.
  intros Hwf.
  destruct (_PySimulation.signals self !! Signal.sig_id signal)
    as [[stored index]|] eqn:Hknown.
  - exists self, index. rewrite (get_signal_known _ _ _ _ Hknown).
    split_and!; done.
  - eexists _, _. rewrite (get_signal_new _ _ Hknown).
    split_and!; try done.
    + erewrite get_signal_known; [done|]. simpl. apply lookup_insert_eq.
    + intros key sg i. simpl.
      destruct (decide (key = Signal.sig_id signal)) as [->|Hne].
      * rewrite lookup_insert_eq. intros [= <- <-].
        exists (_PySignalState.init signal). split; [|done].
        rewrite lookup_app_r by done. by rewrite Nat.sub_diag.
      * rewrite lookup_insert_ne by done. intros Hkey.
        destruct (Hwf _ _ _ Hkey) as (slot & Hslot & Hsig).
        exists slot. split; [|done]. rewrite lookup_app_l; [done|].
        by eapply lookup_lt_Some.
Qed.

Lemma get_signal_allocates_once_witness :
  let a := Signal.mk 1 "a" 4 7 None in
  signals_have_slots example_state ∧
  ∃ self' index,
    _PySimulation.get_signal example_state a = (self', index) ∧
    _PySimulation.get_signal self' a = (self', index) ∧
    signals_have_slots self' ∧
    (_PySimulation.signals example_state !! Signal.sig_id a = None →
       index = length (_PySimulation.slots example_state) ∧
       _PySimulation.slots self' =
         _PySimulation.slots example_state ++ [_PySignalState.init a]).
Proof.
  intros a.
  assert (Hwf : signals_have_slots example_state).
  { intros key s index Hkey. simpl in Hkey.
    apply lookup_singleton_Some in Hkey as [<- [= <- <-]]. by eexists. }
  split; [exact Hwf|].
  destruct (get_signal_allocates_once example_state a Hwf)
    as (self' & index & H1 & H2 & H3 & _ & _ & _ & H4).
  by exists self', index.
Defined.

(** Writes followed by a commit bring the state back to rest: from a state
    with nothing pending and [next = curr] everywhere, after any sequence
    of [set] calls and one [commit] the pending set is empty again and
    every slot has [next = curr]. *)
Theorem commit_after_writes_settles (self written : _PySimulation.t)
    (ws : list (nat * Z)) (procs : ProcStore) (changed : option (gset nat)) :
  settled self → set_all ws self = Ok written →
  settled (_PySimulation.commit written procs changed).1.1.1.
Proof.
  intros [Hempty Hclean] Hall. apply commit_leaves_settled.
  eapply set_all_differing; [|exact Hall].
  intros index slot Hslot Hne. by specialize (Hclean _ _ Hslot).
Qed.

Lemma commit_after_writes_settles_witness :
  let written :=
    _PySimulation.mk _Timeline.init {[ 0%nat := (example_q, 0%nat) ]}
      [_PySignalState.mk example_q 0 1 ∅] {[ 0%nat ]} in
  settled example_state ∧ set_all [(0%nat, 1)] example_state = Ok written ∧
  settled (_PySimulation.commit written ∅ None).1.1.1.
Proof.
  intros written.
  assert (Hs : settled example_state).
  { split; [reflexivity|]. intros [|i] slot Hslot; simpl in Hslot; [|done].
    by simplify_eq. }
  assert (Ha : set_all [(0%nat, 1)] example_state = Ok written)
    by (vm_compute; reflexivity).
  split_and!; [exact Hs|exact Ha|].
  exact (commit_after_writes_settles example_state written [(0%nat, 1)] ∅ None
           Hs Ha).
Defined.

(** [add_trigger] followed by [remove_trigger] for a process that was not
    waiting on a known signal gives back the state exactly as it was. *)
Theorem add_then_remove_trigger (self : _PySimulation.t) (process : pid)
    (signal stored : Signal.t) (index : nat) (slot : _PySignalState.t)
    (trigger : option Z) :
  _PySimulation.signals self !! Signal.sig_id signal = Some (stored, index) →
  _PySimulation.slots self !! index = Some slot →
  _PySignalState.waiters slot !! process = None →
  ∃ waiting,
    _PySimulation.add_trigger self process signal trigger = Ok waiting ∧
    (∃ slot', _PySimulation.slots waiting !! index = Some slot' ∧
              _PySignalState.waiters slot' !! process = Some trigger) ∧
    _PySimulation.remove_trigger waiting process signal = Ok self.
Proof.
  intros Hknown Hslot Hfree. destruct slot as [sg c n w]. simpl in Hfree.
  unfold _PySimulation.add_trigger, _PySimulation.remove_trigger.
  rewrite (get_signal_known _ _ _ _ Hknown).
  erewrite with_waiters_ok; [|exact Hslot|by simpl; rewrite Hfree].
  eexists. split; [done|].
  assert (Hlt : (index < length (_PySimulation.slots self))%nat)
    by by eapply lookup_lt_Some.
  split.
  - eexists. simpl. rewrite list_lookup_insert_eq by done. split; [done|].
    simpl. apply lookup_insert_eq.
  - erewrite get_signal_known by exact Hknown.
    rewrite (with_waiters_ok _ index
               (_PySignalState.mk sg c n (<[process:=trigger]> w)) _
               (delete process (<[process:=trigger]> w))).
    + simpl. rewrite list_insert_insert_eq.
      rewrite delete_insert_eq, delete_id by done.
      rewrite list_insert_id by done. by destruct self.
    + simpl. by apply list_lookup_insert_eq.
    + simpl. by rewrite lookup_insert_eq.
Qed.

Lemma add_then_remove_trigger_witness :
  ∃ waiting,
    _PySimulation.add_trigger example_state 5 example_q (Some 1) = Ok waiting ∧
    (∃ slot', _PySimulation.slots waiting !! 0%nat = Some slot' ∧
              _PySignalState.waiters slot' !! 5%nat = Some (Some 1)) ∧
    _PySimulation.remove_trigger waiting 5 example_q = Ok example_state.
Proof.
  apply (add_then_remove_trigger example_state 5 example_q example_q 0
           (_PySignalState.init example_q) (Some 1)); reflexivity.
Defined.

(** The contract of the trigger table: registering a process again on a
    signal with the same trigger changes nothing, with another trigger it
    fails the assertion, and removing a registration that does not exist
    fails the assertion. *)
Theorem trigger_contract (self : _PySimulation.t) (process : pid)
    (signal stored : Signal.t) (index : nat) (slot : _PySignalState.t)
    (trigger : option Z) :
  _PySimulation.signals self !! Signal.sig_id signal = Some (stored, index) →
  _PySimulation.slots self !! index = Some slot →
  (_PySignalState.waiters slot !! process = Some trigger →
     _PySimulation.add_trigger self process signal trigger = Ok self) ∧
  (∀ registered,
     _PySignalState.waiters slot !! process = Some registered →
     registered ≠ trigger →
     _PySimulation.add_trigger self process signal trigger
       = Raise AssertionError) ∧
  (_PySignalState.waiters slot !! process = None →
     _PySimulation.remove_trigger self process signal = Raise AssertionError).
Proof.
  intros Hknown Hslot.
  unfold _PySimulation.add_trigger, _PySimulation.remove_trigger.
  rewrite (get_signal_known _ _ _ _ Hknown). split_and!.
  - intros Hw.
    rewrite (with_waiters_ok _ index slot _
               (<[process:=trigger]> (_PySignalState.waiters slot))).
    + rewrite insert_id by done.
      rewrite list_insert_id; [by destruct self|]. rewrite Hslot.
      by destruct slot.
    + done.
    + rewrite Hw. by rewrite bool_decide_eq_true_2.
  - intros registered Hw Hne.
    eapply with_waiters_raise; [exact Hslot|]. rewrite Hw.
    by rewrite bool_decide_eq_false_2.
  - intros Hw. eapply with_waiters_raise; [exact Hslot|]. by rewrite Hw.
Qed.

Lemma trigger_contract_witness :
  let slot := _PySignalState.mk example_q 0 0 {[ 5%nat := Some 1 ]} in
  let self :=
    _PySimulation.mk _Timeline.init {[ 0%nat := (example_q, 0%nat) ]} [slot] ∅ in
  _PySimulation.signals self !! Signal.sig_id example_q
    = Some (example_q, 0%nat) ∧
  _PySimulation.slots self !! 0%nat = Some slot ∧
  _PySignalState.waiters slot !! 5%nat = Some (Some 1) ∧
  _PySimulation.add_trigger self 5 example_q (Some 1) = Ok self ∧
  _PySimulation.add_trigger self 5 example_q None = Raise AssertionError ∧
  _PySimulation.remove_trigger self 6 example_q = Raise AssertionError.
Proof.
  intros slot self. split_and!; [reflexivity|reflexivity|reflexivity|..].
  - apply (trigger_contract self 5 example_q example_q 0 slot (Some 1));
      reflexivity.
  - apply (proj1 (proj2 (trigger_contract self 5 example_q example_q 0 slot
                           None eq_refl eq_refl)) (Some 1)); [reflexivity|done].
  - apply (trigger_contract self 6 example_q example_q 0 slot None);
      reflexivity.
Defined.

(** Edge trigger: a process waiting on a signal for the value [t] is made
    runnable by the commit of a change of that signal exactly when the new
    value is [t]. *)
Theorem edge_trigger_wakes_on_its_value (self : _PySimulation.t)
    (procs : ProcStore) (index : nat) (slot : _PySignalState.t)
    (process : pid) (flags : Process) (t value : Z) :
  settled self →
  _PySimulation.slots self !! index = Some slot →
  _PySignalState.waiters slot !! process = Some (Some t) →
  procs !! process = Some flags → runnable flags = false →
  value ≠ _PySignalState.curr slot →
  ∃ written,
    _PySimulation.slot_set self index value = Ok written ∧
    (_PySignalState.curr
       <$> _PySimulation.slots
             (_PySimulation.commit written procs None).1.1.1 !! index
       = Some value) ∧
    (is_runnable (_PySimulation.commit written procs None).1.1.2 process = true
     ↔ value = t).
Proof.
  intros [Hempty Hclean] Hslot Hwait Hflags Hrun Hne.
  pose proof (Hclean _ _ Hslot) as Hnext.
  eexists. split; [apply slot_set_write; [done|congruence]|].
  set (written := _PySimulation.mk _ _ _ _).
  assert (Hlt : (index < length (_PySimulation.slots self))%nat)
    by by eapply lookup_lt_Some.
  destruct (commit_spec written procs None)
    as (slots' & procs' & -> & Hs & Hw). simpl. split.
  - rewrite Hs. simpl. rewrite list_lookup_insert_eq by done. simpl.
    by rewrite decide_True by (rewrite Hempty; set_solver).
  - unfold is_runnable. rewrite (Hw process).
    destruct (decide (process ∈ _)) as [Hin|Hnin].
    + rewrite Hflags. simpl. split; [intros _|done].
      apply elem_of_commit_wakes in Hin
        as (i & sl & Hi & Hsl & (_ & trig & Htrig & Hval)%elem_of_slot_wakes).
      simpl in Hi. rewrite Hempty in Hi.
      assert (i = index) as -> by set_solver.
      simpl in Hsl. rewrite list_lookup_insert_eq in Hsl by done.
      simplify_eq. simpl in *. rewrite Hwait in Htrig.
      destruct Hval as [->| ->]; congruence.
    + rewrite Hflags, Hrun. split; [done|]. intros ->. exfalso.
      apply Hnin, elem_of_commit_wakes. eexists index, _. split_and!.
      * simpl. set_solver.
      * simpl. by apply list_lookup_insert_eq.
      * apply elem_of_slot_wakes. simpl. split; [congruence|].
        exists (Some t). by split; [|right].
Qed.

Lemma edge_trigger_wakes_on_its_value_witness :
  let slot := _PySignalState.mk example_q 0 0 {[ 5%nat := Some 1 ]} in
  let self :=
    _PySimulation.mk _Timeline.init {[ 0%nat := (example_q, 0%nat) ]} [slot] ∅ in
  let procs : ProcStore := {[ 5%nat := mkProcess false true ]} in
  settled self ∧
  ∃ written,
    _PySimulation.slot_set self 0 1 = Ok written ∧
    (_PySignalState.curr
       <$> _PySimulation.slots
             (_PySimulation.commit written procs None).1.1.1 !! 0%nat
       = Some 1) ∧
    (is_runnable (_PySimulation.commit written procs None).1.1.2 5 = true
     ↔ 1 = 1).
Proof.
  intros slot self procs.
  assert (Hs : settled self).
  { split; [reflexivity|]. intros [|i] sl Hsl; simpl in Hsl; [|done].
    by simplify_eq. }
  split; [exact Hs|].
  apply (edge_trigger_wakes_on_its_value self procs 0 slot 5
           (mkProcess false true) 1 1 Hs); try reflexivity. simpl. lia.
Defined.

(** * Further properties of the engine *)

Section step_more.
Context {L : Type}.
Context (run : nat → L → _PySimulation.t → Process
               → result (L * _PySimulation.t * Process)).
Context (Hrun : keeps_runnable run).

Lemma eval_clears_flags processes :
  ∀ state procs locals state' procs' locals',
  PySimEngine.eval run processes (state, procs, locals)
    = Ok (state', procs', locals') →
  dom procs' = dom procs ∧
  ∀ q, q ∈ processes ∨ is_runnable procs q = false →
       is_runnable procs' q = false.
Proof using Hrun.
  induction processes as [|p rest IH];
    intros state procs locals state' procs' locals'; simpl.
  - intros [= <- <- <-]. split; [done|]. by intros q [?%elem_of_nil|?].
  - destruct (procs !! p) as [flags|] eqn:Hp.
    + destruct (runnable flags) eqn:Hr.
      * destruct (run p locals state (mkProcess false (passive flags)))
          as [[[locals1 state1] flags1]|e] eqn:Hcall; [simpl|done].
        intros Heval. apply IH in Heval as [Hdom Hq].
        apply Hrun in Hcall. simpl in Hcall. split.
        -- rewrite Hdom, dom_insert_L.
           assert (p ∈ dom procs) by by apply elem_of_dom.
           set_solver.
        -- intros q Hcase. apply Hq.
           destruct (decide (q = p)) as [->|Hne].
           ++ right. unfold is_runnable. by rewrite lookup_insert_eq.
           ++ destruct Hcase as [[->|?]%elem_of_cons|Hnr]; [done|by left|].
              right. unfold is_runnable in *.
              by rewrite lookup_insert_ne by done.
      * intros Heval. apply IH in Heval as [Hdom Hq]. split; [done|].
        intros q Hcase. apply Hq.
        destruct Hcase as [[->|?]%elem_of_cons|Hnr]; [|by left|by right].
        right. unfold is_runnable. by rewrite Hp.
    + intros Heval. apply IH in Heval as [Hdom Hq]. split; [done|].
      intros q Hcase. apply Hq.
      destruct Hcase as [[->|?]%elem_of_cons|Hnr]; [|by left|by right].
      right. unfold is_runnable. by rewrite Hp.
Qed.

Lemma delta_cycles_ends_quiet fuel :
  ∀ st changed state procs locals changed',
  PySimEngine.delta_cycles run fuel st changed
    = Some (Ok (state, procs, locals, changed')) →
  _PySimulation.pending state = ∅ ∧
  ∀ q, is_runnable procs q = false.
Proof using Hrun.
  induction fuel as [|fuel IH];
    intros [[state0 procs0] locals0] changed state procs locals changed';
    [done|].
  simpl.
  destruct (PySimEngine.eval run _ _) as [[[state1 procs1] locals1]|e]
    eqn:Heval; [|done].
  destruct (commit_spec state1 procs1 changed)
    as (slots' & procs2 & -> & _ & Hw).
  case_bool_decide as Hconv; [|by apply IH].
  intros [= <- <- <- <-]. simpl. split; [done|]. intros q.
  apply eval_clears_flags in Heval as [Hdom Hq].
  rewrite Hconv in Hw. unfold is_runnable. rewrite (Hw q).
  rewrite decide_False by apply not_elem_of_empty.
  destruct (procs1 !! q) as [flags|] eqn:Hfl; [|done].
  specialize (Hq q). unfold is_runnable in Hq. rewrite Hfl in Hq.
  apply Hq. left.
  assert (Hin : q ∈ dom procs0) by (rewrite <-Hdom; by apply elem_of_dom).
  apply elem_of_dom in Hin as [flags0 Hfl0].
  apply list_elem_of_fmap. exists (q, flags0).
  split; [done|]. by apply elem_of_map_to_list.
Qed.

End step_more.

Lemma step_ends_quiet_aux {L : Type}
    (run : nat → L → _PySimulation.t → Process
           → result (L * _PySimulation.t * Process))
    (fuel : nat) (self self' : PySimEngine.t (L := L)) :
  keeps_runnable run →
  PySimEngine._step run fuel self = Some (Ok self') →
  _PySimulation.pending (PySimEngine._state self') = ∅ ∧
  ∀ process, is_runnable (PySimEngine._processes self') process = false.
Proof.
  intros Hrun. unfold PySimEngine._step.
  destruct (PySimEngine.delta_cycles run fuel _ _)
    as [[[[[state procs] locals] changed]|e]|] eqn:Hd; [|done..].
  destruct (PySimEngine.record_all _ _ _) as [writers|e]; [|done].
  intros [= <-]. simpl. by eapply delta_cycles_ends_quiet.
Qed.

(** Quiescence: when the processes do not set their own [runnable] flag, a
    step that converges ends with no runnable process and an empty pending
    set; the next processes to run are the ones the timeline wakes. *)
Theorem step_ends_quiet {L : Type}
    (run : nat → L → _PySimulation.t → Process
           → result (L * _PySimulation.t * Process))
    (fuel : nat) (self self' : PySimEngine.t (L := L)) :
  keeps_runnable run →
  PySimEngine._step run fuel self = Some (Ok self') →
  _PySimulation.pending (PySimEngine._state self') = ∅ ∧
  ∀ process, is_runnable (PySimEngine._processes self') process = false.
Proof.
  intros Hrun. unfold PySimEngine._step.
  destruct (PySimEngine.delta_cycles run fuel _ _)
    as [[[[[state procs] locals] changed]|e]|] eqn:Hd; [|done..].
  destruct (PySimEngine.record_all _ _ _) as [writers|e]; [|done].
  intros [= <-]. simpl. by eapply delta_cycles_ends_quiet.
Qed.

Lemma step_ends_quiet_witness :
  keeps_runnable write_and_write_back ∧
  ∃ self',
    PySimEngine._step write_and_write_back 2 (example_engine []) = Some (Ok self') ∧
    _PySimulation.pending (PySimEngine._state self') = ∅ ∧
    ∀ process, is_runnable (PySimEngine._processes self') process = false.
Proof.
  assert (Hrun : keeps_runnable write_and_write_back).
  { intros process locals state flags locals' state' flags'.
    unfold write_and_write_back.
    destruct (_PySimulation.slot_set state 0 1) as [s1|]; [simpl|done].
    destruct (_PySimulation.slot_set s1 0 0) as [s2|]; [simpl|done].
    by intros [= <- <- <-]. }
  split; [exact Hrun|].
  destruct (PySimEngine._step write_and_write_back 2 (example_engine []))
    as [[self'|e]|] eqn:Hstep; [|by vm_compute in Hstep..].
  exists self'. split; [done|].
  exact (step_ends_quiet write_and_write_back 2 (example_engine []) self'
           Hrun Hstep).
Defined.

(** * Further properties of the recorder *)

Section decode_facts.
Import _VCDWriter.

Lemma occurs_app ch a b : occurs ch (a +:+ b) = occurs ch a || occurs ch b.
Proof.
  induction a as [|c a IH]; [done|].
  change (occurs ch (String c (a +:+ b))
          = occurs ch (String c a) || occurs ch b).
  simpl. by rewrite IH, orb_assoc.
Qed.

Lemma occurs_replicate ch c n :
  c ≠ ch → occurs ch (String.string_of_list_ascii (replicate n c)) = false.
Proof.
  intros Hne. induction n as [|n IH]; [done|]. simpl.
  by rewrite bool_decide_eq_false_2.
Qed.

Lemma expandtabs_no_tab s : ∀ column,
  occurs "009"%char (expandtabs_from column s) = false.
Proof.
  induction s as [|c s IH]; intros column; [done|]. simpl.
  case_bool_decide as Htab.
  - rewrite occurs_app, IH, occurs_replicate; done.
  - simpl. by rewrite bool_decide_eq_false_2, IH.
Qed.

Lemma replace_spaces_occurs ch s :
  ch ≠ " "%char → ch ≠ "_"%char →
  occurs ch (replace_spaces s) = occurs ch s.
Proof.
  intros Hsp Hus. induction s as [|c s IH]; [done|]. simpl. rewrite IH.
  f_equal. destruct (decide (c = " "%char)) as [->|Hc].
  - rewrite (bool_decide_eq_true_2 (" "%char = " "%char)) by done.
    by rewrite !bool_decide_eq_false_2 by congruence.
  - by rewrite (bool_decide_eq_false_2 (c = " "%char)) by done.
Qed.

Lemma replace_spaces_no_space s : occurs " "%char (replace_spaces s) = false.
Proof.
  induction s as [|c s IH]; [done|]. simpl. rewrite IH, orb_false_r.
  destruct (decide (c = " "%char)) as [->|Hc].
  - by rewrite (bool_decide_eq_true_2 (" "%char = " "%char)) by done.
  - rewrite (bool_decide_eq_false_2 (c = " "%char)) by done.
    by apply bool_decide_eq_false_2.
Qed.

End decode_facts.

(** A decoded value written to the log contains neither a space nor a tab,
    whatever the decoder returns: tabs are expanded to spaces and spaces
    become underscores. *)
Theorem decoded_value_has_no_space_or_tab (decoder : Z → result string)
    (value : Z) (decoded : string) :
  _VCDWriter.decode_to_vcd decoder value = Ok decoded →
  occurs " "%char decoded = false ∧ occurs "009"%char decoded = false.
Proof.
  unfold _VCDWriter.decode_to_vcd.
  destruct (decoder value) as [returned|e]; [simpl|done]. intros [= <-]. split.
  - apply replace_spaces_no_space.
  - rewrite replace_spaces_occurs by done. apply expandtabs_no_tab.
Qed.

Lemma decoded_value_has_no_space_or_tab_witness :
  let decoder := λ value : Z,
    Ok (String "a" (String " " (String "b" (String "009" "c")))) in
  _VCDWriter.decode_to_vcd decoder 3 = Ok "a_b_____c" ∧
  occurs " "%char "a_b_____c" = false ∧ occurs "009"%char "a_b_____c" = false.
Proof.
  intros decoder.
  assert (H : _VCDWriter.decode_to_vcd decoder 3 = Ok "a_b_____c")
    by reflexivity.
  split; [exact H|].
  exact (decoded_value_has_no_space_or_tab decoder 3 _ H).
Defined.

Section extract_more.
Import _NameExtractor.

Lemma getitem_raises {A} (d : list (string * A)) key e :
  getitem d key = Raise e → e = KeyError.
Proof.
  induction d as [|[k v] rest IH]; simpl; [by intros [= <-]|].
  by case_bool_decide.
Qed.

Lemma getitem_missing {A} (d : list (string * A)) key :
  key ∉ d.*1 → getitem d key = Raise KeyError.
Proof.
  induction d as [|[k v] rest IH]; simpl; [done|].
  intros [Hne Hrest]%not_elem_of_cons.
  rewrite bool_decide_eq_false_2 by done. by apply IH.
Qed.

Lemma domain_loop_raises domains hierarchy items :
  ∀ names e,
  domain_loop domains hierarchy items names = Raise e → e = KeyError.
Proof.
  induction items as [|[[domain_name|] sigs] rest IH]; intros names e; simpl;
    [done| |apply IH].
  destruct (getitem domains domain_name) as [domain|e'] eqn:Hget; simpl.
  - apply IH.
  - intros [= <-]. by eapply getitem_raises.
Qed.

Lemma domain_loop_missing domains hierarchy items domain_name sigs :
  (Some domain_name, sigs) ∈ items → domain_name ∉ domains.*1 →
  ∀ names, domain_loop domains hierarchy items names = Raise KeyError.
Proof.
  intros Hin Hmissing.
  induction items as [|[[d|] sg] rest IH]; intros names; simpl.
  - by apply elem_of_nil in Hin.
  - destruct (getitem domains d) as [domain|e] eqn:Hget; simpl.
    + apply elem_of_cons in Hin as [[= <- <-]|Hin].
      * by rewrite getitem_missing in Hget.
      * by apply IH.
    + f_equal. by eapply getitem_raises.
  - apply elem_of_cons in Hin as [[=]|Hin]. by apply IH.
Qed.

Lemma subfragment_loop_raises
    (call : names_t → Fragment → list string → result names_t)
    hierarchy subs :
  Forall (λ e, ∀ names h x, call names e.1 h = Raise x → x = KeyError) subs →
  ∀ k names x,
  subfragment_loop call hierarchy subs k names = Raise x → x = KeyError.
Proof.
  induction 1 as [|[sub name] rest Hsub Hrest IH]; intros k names x; simpl;
    [done|].
  destruct (call names sub _) as [names1|e] eqn:Hcall; simpl.
  - apply IH.
  - intros [= <-]. by eapply Hsub.
Qed.

Lemma call_raises fragment :
  ∀ names hierarchy e,
  call names fragment hierarchy = Raise e → e = KeyError.
Proof.
  induction fragment as [drivers domains statements subs IH]
    using Fragment_nested_ind.
  intros names hierarchy e. simpl.
  destruct (domain_loop domains hierarchy drivers names) as [names1|e1]
    eqn:Hd; simpl.
  - by apply subfragment_loop_raises.
  - intros [= <-]. by eapply domain_loop_raises.
Qed.

Lemma add_name_idem names signal x :
  add_name (add_name names signal x) signal x = add_name names signal x.
Proof.
  induction names as [|[s xs] rest IH]; simpl.
  - rewrite bool_decide_eq_true_2 by done. unfold set_add.
    by rewrite bool_decide_eq_true_2 by (apply list_elem_of_singleton; done).
  - case_bool_decide as Hid; simpl.
    + rewrite bool_decide_eq_true_2 by done. f_equal. f_equal.
      unfold set_add at 1. rewrite bool_decide_eq_true_2; [done|].
      apply elem_of_set_add. by left.
    + rewrite bool_decide_eq_false_2 by done. by rewrite IH.
Qed.

End extract_more.

(** Name derivation fails with [KeyError] when the fragment drives a domain
    that is not among its domains; nothing else makes it fail. *)
Theorem extractor_fails_on_unknown_domain
    (names : list (Signal.t * list (list string * string)))
    (fragment : Fragment) (hierarchy : list string) :
  (∀ domain_name sigs,
     (Some domain_name, sigs) ∈ drivers fragment →
     domain_name ∉ (domains fragment).*1 →
     _NameExtractor.call names fragment hierarchy = Raise KeyError) ∧
  (∀ e, _NameExtractor.call names fragment hierarchy = Raise e → e = KeyError).
Proof.
  split.
  - intros domain_name sigs Hin Hmissing.
    destruct fragment as [drv doms sts subs]. simpl in *.
    by rewrite (domain_loop_missing doms hierarchy drv domain_name sigs).
  - apply call_raises.
Qed.

Lemma extractor_fails_on_unknown_domain_witness :
  let fragment :=
    mkFragment [(Some "sync", [example_q])] [] [] [] in
  (Some "sync", [example_q]) ∈ drivers fragment ∧
  "sync" ∉ (domains fragment).*1 ∧
  _NameExtractor.call [] fragment ["bench"; "top"] = Raise KeyError.
Proof.
  intros fragment.
  assert (Hin : (Some "sync", [example_q]) ∈ drivers fragment)
    by (apply elem_of_cons; by left).
  assert (Hmissing : "sync" ∉ (domains fragment).*1) by apply not_elem_of_nil.
  split_and!; [exact Hin|exact Hmissing|].
  exact (proj1 (extractor_fails_on_unknown_domain [] fragment ["bench"; "top"])
           "sync" [example_q] Hin Hmissing).
Defined.

(** Names are sets: recording for a signal a name it already has changes
    nothing, so a signal met twice at one place of the hierarchy has one
    name there. *)
Theorem add_signal_name_idempotent (hierarchy : list string)
    (names : list (Signal.t * list (list string * string)))
    (signal : Signal.t) :
  _NameExtractor.add_signal_name hierarchy
    (_NameExtractor.add_signal_name hierarchy names signal) signal
  = _NameExtractor.add_signal_name hierarchy names signal.
Proof. apply add_name_idem. Qed.

(** The constructor of the recorder always comes back: the loop that looks
    for a free name ends, the library raising [KeyError] for a duplicate
    name only.  Whatever happens it has written no value-change record.
    What it raises, if anything, is what opening one of the two files
    raises, the [KeyError] of the name derivation, the [NameError] of a
    name, a refusal of a declaration by the library, or what the decoder of
    a signal to be declared raises on the reset value.  Without a log file
    it declares nothing and does not look at the names at all. *)
Theorem recorder_constructor_returns (open_ : string → result File.t)
    (library : VCDWriter.checks) (fragment : Fragment)
    (vcd_file gtkw_file : option file_arg) (traces : list Signal.t) :
  ∃ self e,
    _VCDWriter.__init__ open_ library fragment vcd_file gtkw_file traces
      = Some (self, e) ∧
    log self = [] ∧
    match e with
    | None => True
    | Some e =>
        _VCDWriter.open_file open_ vcd_file = Raise e
        ∨ _VCDWriter.open_file open_ gtkw_file = Raise e
        ∨ (_NameExtractor.extract fragment = Raise e ∧ e = KeyError)
        ∨ (vcd_file ≠ None ∧
           ((∃ msg, e = NameError msg)
            ∨ declaration_refused library e
            ∨ ∃ signal_names,
                _NameExtractor.extract fragment = Ok signal_names ∧
                decoder_raises
                  (signal_names
                   ++ _VCDWriter.trace_names signal_names traces []) e))
    end ∧
    (vcd_file = None → _VCDWriter.vcd_vars self = ∅).
Proof.
  unfold _VCDWriter.__init__.
  destruct (_VCDWriter.open_file open_ vcd_file) as [log_file|x] eqn:Hlog;
    [|eexists _, (Some x); split_and!; [done|done|by left|done]].
  destruct (_VCDWriter.open_file open_ gtkw_file) as [view|x] eqn:Hview;
    [|eexists _, (Some x); split_and!; [done|done|by right; left|done]].
  destruct (_NameExtractor.extract fragment) as [signal_names|x] eqn:Hx.
  - destruct log_file as [log_file|]; simpl.
    + destruct (signals_loop_spec
                  (signal_names
                   ++ _VCDWriter.trace_names signal_names traces [])
                  (VCDWriter.init_writer library, ∅, ∅))
        as ([[writer vcd_vars] gtkw_names] & e & -> & (Hch & Hlib & He) & _).
      eexists _, e. split_and!; [done|done| |].
      * destruct e as [e|]; [|done]. do 3 right.
        split; [by intros ->|]. simpl in He.
        destruct He as [?|[?|?]]; eauto.
      * by intros ->.
    + eexists _, None. by split_and!.
  - pose proof Hx as ->%call_raises.
    eexists _, (Some KeyError). split_and!; [done| | |done].
    + by destruct log_file.
    + by right; right; left.
Qed.

Section declared_facts.
Import _VCDWriter.

Lemma declare_distinct writer var_scope name d library changes closed :
  distinct_names writer →
  VCDWriter.taken writer var_scope name = false →
  VCDWriter.decl_name d = (var_scope, name) →
  distinct_names
    (VCDWriter.mk library (VCDWriter.declared writer ++ [d]) changes closed).
Proof.
  unfold distinct_names, VCDWriter.taken. intros Hnd Hfree Hd. simpl.
  apply bool_decide_eq_false in Hfree.
  rewrite fmap_app. apply NoDup_app. split_and!; [done| |].
  - intros x Hx [->|?%elem_of_nil]%elem_of_cons; [|done].
    rewrite Hd in Hx. done.
  - simpl. repeat constructor. apply not_elem_of_nil.
Qed.

#[local] Arguments VCDWriter.register_var : simpl never.
#[local] Arguments VCDWriter.register_alias : simpl never.

Lemma register_distinct writer vcd_vars signal var_type var_size var_init
    var_scope var_name fuel :
  distinct_names writer →
  ∀ suffix writer' vcd_vars' var_name_suffix,
  register fuel writer vcd_vars signal var_type var_size var_init var_scope
    var_name suffix = Some (Ok (writer', vcd_vars', var_name_suffix)) →
  distinct_names writer'.
Proof.
  intros Hnd. induction fuel as [|fuel IH];
    intros suffix writer' vcd_vars' nm; [done|].
  simpl.
  pose proof (attempt_spec writer vcd_vars signal var_type var_size var_init
                var_scope (with_suffix var_name suffix)) as Hattempt.
  destruct (match vcd_vars !! Signal.sig_id signal with
            | Some _ => _ | None => _ end) as [[writer1 vcd_vars1]|e].
  - destruct Hattempt as (Hfree & d & Hd & ->). intros [= <- <- <-].
    by eapply declare_distinct.
  - destruct Hattempt as [[-> _]|(Hne & _)]; [apply IH|]. by destruct e.
Qed.

#[local] Arguments register : simpl never.

Lemma names_loop_distinct signal var_type var_size var_init names :
  ∀ st st' e,
  distinct_names st.1.1 →
  names_loop signal var_type var_size var_init names st = Some (st', e) →
  distinct_names st'.1.1.
Proof.
  induction names as [|[var_scope var_name] rest IH];
    intros [[writer vcd_vars] gtkw_names] st' e Hnd; simpl.
  - by intros [= <- <-].
  - destruct (has_blank var_name); [by intros [= <- <-]|].
    destruct (register _ _ _ _ _ _ _ _ _ _)
      as [[[[writer1 vcd_vars1] nm]|x]|] eqn:Hreg; [| |done].
    + apply IH. simpl. by eapply register_distinct.
    + by intros [= <- <-].
Qed.

Lemma signals_loop_distinct items :
  ∀ st st' e,
  distinct_names st.1.1 →
  signals_loop items st = Some (st', e) →
  distinct_names st'.1.1.
Proof.
  induction items as [|[signal names] rest IH]; intros st st' e Hnd; simpl.
  - by intros [= <- <-].
  - destruct (var_of signal) as [[[var_type var_size] var_init]|x];
      [|by intros [= <- <-]].
    destruct (names_loop signal var_type var_size var_init names st)
      as [[st1 [e1|]]|] eqn:Hn; [| |done].
    + intros [= <- <-]. by eapply names_loop_distinct.
    + apply IH. by eapply names_loop_distinct.
Qed.

End declared_facts.

(** Name collisions are resolved: in the log set up by the constructor no
    two declarations, variables or aliases, share scope and name. *)
Theorem declared_names_are_distinct (open_ : string → result File.t)
    (library : VCDWriter.checks) (fragment : Fragment)
    (vcd_file gtkw_file : option file_arg) (traces : list Signal.t)
    (self : _VCDWriter.t) (e : option exn) (writer : VCDWriter.t) :
  _VCDWriter.__init__ open_ library fragment vcd_file gtkw_file traces
    = Some (self, e) →
  _VCDWriter.vcd_writer self = Some writer →
  distinct_names writer.
Proof.
  unfold _VCDWriter.__init__.
  assert (Hinit : distinct_names (VCDWriter.init_writer library))
    by constructor.
  destruct (_VCDWriter.open_file open_ vcd_file) as [log_file|x];
    [|by intros [= <- <-]].
  destruct (_VCDWriter.open_file open_ gtkw_file) as [view|x];
    [|by intros [= <- <-]].
  destruct (_NameExtractor.extract fragment) as [signal_names|x].
  - destruct log_file as [log_file|]; simpl; [|by intros [= <- <-]].
    destruct (_VCDWriter.signals_loop _ _)
      as [[[[writer1 vcd_vars] gtkw_names] e1]|] eqn:Hloop; [|done].
    intros [= <- <-] [= <-].
    by apply (signals_loop_distinct _ (VCDWriter.init_writer library, ∅, ∅)
                _ _ Hinit Hloop).
  - intros [= <- <-]. simpl. destruct log_file; [|done]. by intros [= <-].
Qed.

Lemma declared_names_are_distinct_witness :
  let a := Signal.mk 1 "x" 1 0 None in
  let b := Signal.mk 2 "x" 1 0 None in
  let first := mkFragment [] [] [mkStatement [ASignal a] []] [] in
  let second := mkFragment [] [] [mkStatement [] [ASignal b]] [] in
  let parent := mkFragment [] [] [] [(first, None); (second, None)] in
  ∃ self writer,
    _VCDWriter.__init__ example_open no_checks parent
      (Some (Path "out.vcd")) None [] = Some (self, None) ∧
    _VCDWriter.vcd_writer self = Some writer ∧
    VCDWriter.decl_name <$> VCDWriter.declared writer =
      [(["bench"; "top"; "U$None"], "x"); (["bench"; "top"; "U$None"], "x$1")] ∧
    distinct_names writer.
Proof.
  intros a b first second parent.
  destruct (_VCDWriter.__init__ example_open no_checks parent
              (Some (Path "out.vcd")) None [])
    as [[self e]|] eqn:Hinit; [|by vm_compute in Hinit].
  destruct (_VCDWriter.vcd_writer self) as [writer|] eqn:Hw.
  - exists self, writer.
    pose proof (declared_names_are_distinct example_open no_checks parent
                  (Some (Path "out.vcd")) None [] self e writer Hinit Hw)
      as Hd.
    vm_compute in Hinit. injection Hinit as <- <-.
    vm_compute in Hw. injection Hw as <-.
    split_and!; [reflexivity|reflexivity|reflexivity|exact Hd].
  - vm_compute in Hinit. injection Hinit as <- <-. by vm_compute in Hw.
Defined.

Section suffix_facts.
Import _VCDWriter.

#[local] Arguments VCDWriter.register_var : simpl never.
#[local] Arguments VCDWriter.register_alias : simpl never.

Lemma register_first_free writer vcd_vars signal var_type var_size var_init
    var_scope var_name fuel :
  ∀ suffix writer' vcd_vars' var_name_suffix,
  register fuel writer vcd_vars signal var_type var_size var_init var_scope
    var_name suffix = Some (Ok (writer', vcd_vars', var_name_suffix)) →
  ∃ k, (suffix ≤ k)%nat ∧
       var_name_suffix = with_suffix var_name k ∧
       VCDWriter.taken writer var_scope (with_suffix var_name k) = false ∧
       (∀ j, (suffix ≤ j < k)%nat →
             VCDWriter.taken writer var_scope (with_suffix var_name j) = true) ∧
       VCDWriter.decl_name
         <$> VCDWriter.declared writer' =
         (VCDWriter.decl_name <$> VCDWriter.declared writer)
         ++ [(var_scope, var_name_suffix)].
Proof.
  induction fuel as [|fuel IH]; intros suffix writer' vcd_vars' nm; [done|].
  simpl.
  pose proof (attempt_spec writer vcd_vars signal var_type var_size var_init
                var_scope (with_suffix var_name suffix)) as Hattempt.
  destruct (match vcd_vars !! Signal.sig_id signal with
            | Some _ => _ | None => _ end) as [[writer1 vcd_vars1]|e].
  - destruct Hattempt as (Hfree & d & Hd & ->). intros [= <- <- <-].
    exists suffix. split_and!; [lia|done|done|intros j ?; lia|].
    cbn [VCDWriter.declared]. rewrite fmap_app. simpl. by rewrite Hd.
  - destruct Hattempt as [[-> Htaken]|(Hne & _)]; [|by destruct e].
    intros Hrec.
    destruct (IH _ _ _ _ Hrec) as (k & Hk & Hnm & Hfree & Hbelow & Hdecl).
    exists k. split_and!; [lia|done..| |done].
    intros j Hj. destruct (decide (j = suffix)) as [->|?]; [done|].
    apply Hbelow. lia.
Qed.

End suffix_facts.

(** A name that is taken in its scope gets the first free suffix: the name
    declared is [var_name] itself when it is free, and otherwise
    [var_name$k] for the least [k ≥ 1] that is free in that scope. *)
Theorem collision_gets_first_free_suffix (writer writer' : VCDWriter.t)
    (vcd_vars vcd_vars' : gmap nat VCDWriter.variable) (signal : Signal.t)
    (var_type : string) (var_size : nat) (var_init : VarValue)
    (var_scope : list string) (var_name var_name_suffix : string) :
  _VCDWriter.register (S (length (VCDWriter.declared writer))) writer vcd_vars
    signal var_type var_size var_init var_scope var_name 0
    = Some (Ok (writer', vcd_vars', var_name_suffix)) →
  ∃ k,
    var_name_suffix = _VCDWriter.with_suffix var_name k ∧
    VCDWriter.taken writer var_scope var_name_suffix = false ∧
    (∀ j, (j < k)%nat →
          VCDWriter.taken writer var_scope (_VCDWriter.with_suffix var_name j)
          = true) ∧
    VCDWriter.decl_name <$> VCDWriter.declared writer' =
      (VCDWriter.decl_name <$> VCDWriter.declared writer)
      ++ [(var_scope, var_name_suffix)].
Proof.
  intros Hreg.
  destruct (register_first_free _ _ _ _ _ _ _ _ _ _ _ _ _ Hreg)
    as (k & _ & -> & Hfree & Hbelow & Hdecl).
  exists k. split_and!; [done|done| |done]. intros j Hj. apply Hbelow. lia.
Qed.

Lemma collision_gets_first_free_suffix_witness :
  let var := VCDWriter.mkVariable 0 "wire" 1 (IntValue 0) in
  let writer :=
    VCDWriter.mk no_checks [VCDWriter.Var ["top"] "x" var;
                            VCDWriter.Alias ["top"] "x$1" var] [] None in
  ∃ writer' vcd_vars',
    _VCDWriter.register (S (length (VCDWriter.declared writer))) writer
      {[ 0%nat := var ]} example_q "wire" 1 (IntValue 0) ["top"] "x" 0
      = Some (Ok (writer', vcd_vars', "x$2")) ∧
    ∃ k,
      "x$2" = _VCDWriter.with_suffix "x" k ∧
      VCDWriter.taken writer ["top"] "x$2" = false ∧
      (∀ j, (j < k)%nat →
            VCDWriter.taken writer ["top"] (_VCDWriter.with_suffix "x" j)
            = true) ∧
      VCDWriter.decl_name <$> VCDWriter.declared writer' =
        (VCDWriter.decl_name <$> VCDWriter.declared writer)
        ++ [(["top"], "x$2")].
Proof.
  intros var writer.
  destruct (_VCDWriter.register (S (length (VCDWriter.declared writer))) writer
              {[ 0%nat := var ]} example_q "wire" 1 (IntValue 0) ["top"] "x" 0)
    as [[[[writer' vcd_vars'] nm]|e]|] eqn:Hreg; [|by vm_compute in Hreg..].
  assert (nm = "x$2") as ->.
  { vm_compute in Hreg. by injection Hreg as _ _ <-. }
  exists writer', vcd_vars'. split; [reflexivity|].
  exact (collision_gets_first_free_suffix writer writer' _ vcd_vars' example_q
           "wire" 1 (IntValue 0) ["top"] "x" "x$2" Hreg).
Defined.

Section scope_facts.
Import _NameExtractor.

Lemma adds_under_refl hierarchy names : adds_under hierarchy names names.
Proof. intros signal scope leaf H. by left. Qed.

Lemma adds_under_trans h h' n1 n2 n3 :
  h `prefix_of` h' →
  adds_under h n1 n2 → adds_under h' n2 n3 → adds_under h n1 n3.
Proof.
  intros Hpre H1 H2 signal scope leaf H.
  destruct (H2 _ _ _ H) as [H'|Hp]; [by apply H1|].
  right. by etrans.
Qed.

Lemma add_name_adds names signal x sg y :
  has_alias (add_name names signal x) sg y →
  has_alias names sg y ∨ y = x.
Proof.
  induction names as [|[s xs] rest IH]; simpl.
  - intros (s' & xs' & [[= -> ->]|?%elem_of_nil]%elem_of_cons & Hid & Hy);
      [|done].
    apply list_elem_of_singleton in Hy. by right.
  - case_bool_decide as Hs.
    + intros (s' & xs' & [[= -> ->]|Hin]%elem_of_cons & Hid & Hy).
      * apply elem_of_set_add in Hy as [->|Hy]; [by right|].
        left. exists s, xs. split_and!; [by left|done..].
      * left. exists s', xs'. split_and!; [by right|done..].
    + intros (s' & xs' & [[= -> ->]|Hin]%elem_of_cons & Hid & Hy).
      * left. exists s, xs. split_and!; [by left|done..].
      * destruct IH as [(s'' & xs'' & Hin'' & Hid'' & Hy'')| ->].
        { by exists s', xs'. }
        -- left. exists s'', xs''. split_and!; [by right|done..].
        -- by right.
Qed.

Lemma add_signal_name_adds_under hierarchy names signal :
  adds_under hierarchy names (add_signal_name hierarchy names signal).
Proof.
  intros sg scope leaf Halias. apply add_name_adds in Halias as [H|Heq].
  - by left.
  - right. by injection Heq as -> _.
Qed.

Lemma add_ref_adds_under hierarchy names ref :
  adds_under hierarchy names (add_ref hierarchy names ref).
Proof.
  destruct ref; simpl;
    [apply add_signal_name_adds_under|apply adds_under_refl..].
Qed.

Lemma foldl_adds_under {A} hierarchy (f : names_t → A → names_t) (l : list A) :
  (∀ names a, adds_under hierarchy names (f names a)) →
  ∀ names, adds_under hierarchy names (foldl f names l).
Proof.
  intros Hf. induction l as [|a l IH]; intros names; simpl.
  - apply adds_under_refl.
  - eapply adds_under_trans; [done|apply Hf|apply IH].
Qed.

Lemma statement_loop_adds_under hierarchy statements names :
  adds_under hierarchy names (statement_loop hierarchy statements names).
Proof.
  apply foldl_adds_under. intros n statement. apply foldl_adds_under.
  intros n' ref. apply add_ref_adds_under.
Qed.

Lemma domain_loop_adds_under domains hierarchy items :
  ∀ names names',
  domain_loop domains hierarchy items names = Ok names' →
  adds_under hierarchy names names'.
Proof.
  induction items as [|[[domain_name|] sigs] rest IH]; intros names names';
    simpl.
  - intros [= <-]. apply adds_under_refl.
  - destruct (getitem domains domain_name) as [domain|e]; [simpl|done].
    intros Hloop. eapply adds_under_trans; [done| |by eapply IH].
    eapply adds_under_trans; [done|apply add_signal_name_adds_under|].
    destruct (rst domain);
      [apply add_signal_name_adds_under|apply adds_under_refl].
  - apply IH.
Qed.

Lemma subfragment_loop_adds_under
    (call : names_t → Fragment → list string → result names_t)
    hierarchy subs :
  Forall (λ e, ∀ names h names',
               call names e.1 h = Ok names' → adds_under h names names') subs →
  ∀ k names names',
  subfragment_loop call hierarchy subs k names = Ok names' →
  adds_under hierarchy names names'.
Proof.
  induction 1 as [|[sub name] rest Hsub Hrest IH]; intros k names names';
    simpl.
  - intros [= <-]. apply adds_under_refl.
  - destruct (call names sub _) as [names1|e] eqn:Hcall; [simpl|done].
    intros Hloop. eapply adds_under_trans; [done| |by eapply IH].
    eapply adds_under_trans; [|apply adds_under_refl|by eapply Hsub].
    by apply prefix_app_r.
Qed.

Lemma call_adds_under fragment :
  ∀ names hierarchy names',
  call names fragment hierarchy = Ok names' →
  adds_under hierarchy names names'.
Proof.
  induction fragment as [drivers domains statements subs IH]
    using Fragment_nested_ind.
  intros names hierarchy names'. simpl.
  destruct (domain_loop domains hierarchy drivers names) as [names1|e] eqn:Hd;
    [simpl|done].
  intros Hloop.
  eapply adds_under_trans; [done|by eapply domain_loop_adds_under|].
  eapply adds_under_trans; [done|apply statement_loop_adds_under|].
  by eapply subfragment_loop_adds_under.
Qed.

End scope_facts.

(** Every name the derivation records lies under the root of the bench:
    its scope starts with [bench], [top]. *)
Theorem derived_names_lie_under_bench_top (fragment : Fragment)
    (names : list (Signal.t * list (list string * string)))
    (signal : Signal.t) (scope : list string) (leaf : string) :
  _NameExtractor.extract fragment = Ok names →
  has_alias names signal (scope, leaf) →
  ["bench"; "top"] `prefix_of` scope.
Proof.
  intros Hx Halias.
  destruct (call_adds_under _ _ _ _ Hx _ _ _ Halias)
    as [(s & xs & Hin%elem_of_nil & _)|Hp]; done.
Qed.

Lemma derived_names_lie_under_bench_top_witness :
  let names := [(example_q, [(["bench"; "top"], "q")])] in
  _NameExtractor.extract example_fragment = Ok names ∧
  has_alias names example_q (["bench"; "top"], "q") ∧
  ["bench"; "top"] `prefix_of` ["bench"; "top"].
Proof.
  intros names.
  assert (Hx : _NameExtractor.extract example_fragment = Ok names)
    by reflexivity.
  assert (Ha : has_alias names example_q (["bench"; "top"], "q")).
  { exists example_q, [(["bench"; "top"], "q")].
    split_and!; [|done|]; apply elem_of_cons; by left. }
  split_and!; [exact Hx|exact Ha|].
  exact (derived_names_lie_under_bench_top example_fragment names example_q
           ["bench"; "top"] "q" Hx Ha).
Defined.

(** * The build plan *)

Section plan_facts.
Import BuildPlan.

Lemma ascii_compare_spec (a b : ascii) :
  CompareSpec (N_of_ascii a = N_of_ascii b) (N_of_ascii a < N_of_ascii b)%N
    (N_of_ascii b < N_of_ascii a)%N (Ascii.compare a b).
Proof. unfold Ascii.compare. apply N.compare_spec. Qed.

Lemma string_compare_trans s1 :
  ∀ s2 s3,
  String.compare s1 s2 ≠ Gt → String.compare s2 s3 ≠ Gt →
  String.compare s1 s3 ≠ Gt.
Proof.
  induction s1 as [|c1 s1 IH]; intros [|c2 s2] [|c3 s3]; simpl; try done.
  destruct (ascii_compare_spec c1 c2) as [H12|H12|H12];
    destruct (ascii_compare_spec c2 c3) as [H23|H23|H23];
    destruct (ascii_compare_spec c1 c3) as [H13|H13|H13];
    try done; try lia.
  apply IH.
Qed.

Lemma leb_not_Gt s1 s2 : le s1 s2 ↔ String.compare s1 s2 ≠ Gt.
Proof.
  unfold le, String.leb. by destruct (String.compare s1 s2).
Qed.

#[local] Instance le_trans : Transitive le.
Proof.
  intros s1 s2 s3. rewrite !leb_not_Gt. apply string_compare_trans.
Qed.

#[local] Instance le_antisym : AntiSymm (=) le.
Proof. intros s1 s2. apply String.leb_antisym. Qed.

#[local] Instance le_total : Total le.
Proof. intros s1 s2. apply String.leb_total. Qed.

Lemma sorted_perm (l1 l2 : list string) :
  l1 ≡ₚ l2 → merge_sort le l1 = merge_sort le l2.
Proof.
  intros Hp. apply (Sorted_unique le); try apply _.
  - apply Sorted_merge_sort, _.
  - apply Sorted_merge_sort, _.
  - by rewrite !merge_sort_Permutation.
Qed.

Lemma getitem_found {A} (d : list (string * A)) key v :
  NoDup d.*1 → (key, v) ∈ d → getitem d key = Ok v.
Proof.
  induction d as [|[k x] rest IH]; simpl; intros Hnd Hin.
  - by apply elem_of_nil in Hin.
  - apply NoDup_cons in Hnd as [Hk Hnd].
    apply elem_of_cons in Hin as [[= -> ->]|Hin].
    + by rewrite bool_decide_eq_true_2.
    + rewrite bool_decide_eq_false_2; [by apply IH|].
      intros ->. apply Hk. apply list_elem_of_fmap. by exists (key, v).
Qed.

Lemma getitem_perm {A} (d1 d2 : list (string * A)) key :
  NoDup d1.*1 → d1 ≡ₚ d2 → getitem d1 key = getitem d2 key.
Proof.
  intros Hnd Hp.
  assert (Hnd2 : NoDup d2.*1) by by rewrite <-Hp.
  destruct (decide (key ∈ d1.*1)) as [Hin|Hnin].
  - apply list_elem_of_fmap in Hin as [[k v] [-> Hin]]. simpl.
    rewrite (getitem_found d1 k v) by done.
    rewrite (getitem_found d2 k v); [done|done|by rewrite <-Hp].
  - rewrite (getitem_missing d1) by done.
    rewrite (getitem_missing d2); [done|by rewrite <-Hp].
Qed.

Lemma updates_ext f1 f2 names :
  (∀ key, getitem f1 key = getitem f2 key) →
  ∀ data, updates f1 names data = updates f2 names data.
Proof.
  intros Hext. induction names as [|n rest IH]; intros data; simpl; [done|].
  rewrite Hext. destruct (getitem f2 n); simpl; [apply IH|done].
Qed.

Lemma members_ext f1 f2 names :
  (∀ key, getitem f1 key = getitem f2 key) →
  members f1 names = members f2 names.
Proof.
  intros Hext. induction names as [|n rest IH]; simpl; [done|].
  by rewrite Hext, IH.
Qed.

Lemma add_files_spec fs :
  ∀ plan plan',
  NoDup (files plan).*1 → add_files fs plan = Ok plan' →
  script plan' = script plan ∧ files plan' = files plan ++ fs ∧
  NoDup (files plan').*1.
Proof.
  induction fs as [|[filename content] rest IH]; intros plan plan' Hnd; simpl.
  - intros [= <-]. by rewrite app_nil_r.
  - unfold add_file. case_bool_decide as Hin; [done|]. simpl.
    intros Hrest. apply IH in Hrest as (Hs & Hf & Hnd').
    + simpl in *. split_and!; [done| |done].
      by rewrite Hf, <-app_assoc.
    + simpl. rewrite fmap_app. apply NoDup_app. split_and!; [done| |].
      * intros x Hx [->|?%elem_of_nil]%elem_of_cons; done.
      * simpl. repeat constructor. apply not_elem_of_nil.
Qed.

End plan_facts.

(** The digest and the archive of a build plan do not depend on the order
    in which the files were added: two plans built with the same script by
    adding the same files in any two orders have the same digest and write
    the same archive members in the same order. *)
Theorem plan_digest_ignores_insertion_order
    (blake2b : nat → string → string) (script : string)
    (fs1 fs2 : list (string * string)) (plan1 plan2 : BuildPlan.t)
    (size : nat) :
  fs1 ≡ₚ fs2 →
  add_files fs1 (BuildPlan.__init__ script) = Ok plan1 →
  add_files fs2 (BuildPlan.__init__ script) = Ok plan2 →
  BuildPlan.digest blake2b plan1 size = BuildPlan.digest blake2b plan2 size ∧
  BuildPlan.archive plan1 = BuildPlan.archive plan2.
Proof.
  intros Hp H1 H2.
  apply add_files_spec in H1 as (Hs1 & Hf1 & Hnd1); [|constructor].
  apply add_files_spec in H2 as (Hs2 & Hf2 & Hnd2); [|constructor].
  simpl in *.
  assert (Hfiles : BuildPlan.files plan1 ≡ₚ BuildPlan.files plan2)
    by by rewrite Hf1, Hf2.
  assert (Hsorted : BuildPlan.sorted plan1 = BuildPlan.sorted plan2).
  { unfold BuildPlan.sorted. apply sorted_perm. by rewrite Hfiles. }
  assert (Hget : ∀ key, getitem (BuildPlan.files plan1) key
                        = getitem (BuildPlan.files plan2) key).
  { intros key. by apply getitem_perm. }
  unfold BuildPlan.digest, BuildPlan.archive. rewrite Hsorted, Hs1, Hs2.
  split.
  - by rewrite (updates_ext _ _ _ Hget).
  - by apply members_ext.
Qed.

Lemma plan_digest_ignores_insertion_order_witness :
  let blake2b := λ (size : nat) (data : string), data in
  let plan1 := BuildPlan.mk "build" [("top.v", "module"); ("a.sh", "run")] in
  let plan2 := BuildPlan.mk "build" [("a.sh", "run"); ("top.v", "module")] in
  add_files [("top.v", "module"); ("a.sh", "run")] (BuildPlan.__init__ "build")
    = Ok plan1 ∧
  add_files [("a.sh", "run"); ("top.v", "module")] (BuildPlan.__init__ "build")
    = Ok plan2 ∧
  BuildPlan.digest blake2b plan1 64 = Ok "a.shruntop.vmodulebuild" ∧
  BuildPlan.digest blake2b plan1 64 = BuildPlan.digest blake2b plan2 64 ∧
  BuildPlan.archive plan1 = BuildPlan.archive plan2.
Proof.
  intros blake2b plan1 plan2.
  assert (H1 : add_files [("top.v", "module"); ("a.sh", "run")]
                 (BuildPlan.__init__ "build") = Ok plan1) by reflexivity.
  assert (H2 : add_files [("a.sh", "run"); ("top.v", "module")]
                 (BuildPlan.__init__ "build") = Ok plan2) by reflexivity.
  split_and!; [exact H1|exact H2|vm_compute; reflexivity|..];
    apply (plan_digest_ignores_insertion_order blake2b "build" _ _ plan1 plan2
             64 (Permutation_swap _ _ []) H1 H2).
Defined.

(** The digest does not separate file names from contents: a plan with the
    one file [name] holding [head ++ tail] and a plan with the one file
    [name ++ head] holding [tail] have the same digest, for any hash. *)
Theorem plan_digest_joins_name_and_content
    (blake2b : nat → string → string) (script name head tail : string)
    (size : nat) :
  BuildPlan.digest blake2b (BuildPlan.mk script [(name, head +:+ tail)]) size
  = BuildPlan.digest blake2b (BuildPlan.mk script [(name +:+ head, tail)]) size.
Proof.
  unfold BuildPlan.digest, BuildPlan.sorted. simpl.
  rewrite !bool_decide_eq_true_2 by done. simpl.
  do 3 f_equal.
  assert (Hassoc : ∀ a b c : string, (a +:+ b) +:+ c = a +:+ (b +:+ c)).
  { intros a b c. induction a as [|ch a IH]; [done|].
    change (String ch ((a +:+ b) +:+ c) = String ch (a +:+ (b +:+ c))).
    by f_equal. }
  change ("" +:+ ?x) with x. by rewrite Hassoc.
Qed.

(** * Closing the recorder *)

Section close_facts.
Import _NameExtractor _VCDWriter.

Lemma add_name_all_named names signal x :
  all_named names → all_named (add_name names signal x).
Proof.
  unfold all_named. induction 1 as [|[s xs] rest Hne Hrest IH]; simpl.
  - by repeat constructor.
  - case_bool_decide.
    + constructor; [|done]. simpl. unfold set_add.
      case_bool_decide; [done|]. by destruct xs.
    + by constructor.
Qed.

Lemma foldl_all_named {A} (f : names_t → A → names_t) (l : list A) :
  (∀ names a, all_named names → all_named (f names a)) →
  ∀ names, all_named names → all_named (foldl f names l).
Proof.
  intros Hf. induction l as [|a l IH]; intros names Hn; simpl; [done|].
  by apply IH, Hf.
Qed.

Lemma statement_loop_all_named hierarchy statements names :
  all_named names → all_named (statement_loop hierarchy statements names).
Proof.
  apply foldl_all_named. intros n statement. apply foldl_all_named.
  intros n' [sg| |]; simpl; [apply add_name_all_named|done..].
Qed.

Lemma domain_loop_all_named domains hierarchy items :
  ∀ names names',
  all_named names →
  domain_loop domains hierarchy items names = Ok names' → all_named names'.
Proof.
  induction items as [|[[domain_name|] sigs] rest IH]; intros names names' Hn;
    simpl.
  - by intros [= <-].
  - destruct (getitem domains domain_name) as [domain|e]; [simpl|done].
    apply IH. destruct (rst domain); repeat apply add_name_all_named; done.
  - by apply IH.
Qed.

Lemma subfragment_loop_all_named
    (call : names_t → Fragment → list string → result names_t)
    hierarchy subs :
  Forall (λ e, ∀ names h names',
               all_named names → call names e.1 h = Ok names' →
               all_named names') subs →
  ∀ k names names',
  all_named names →
  subfragment_loop call hierarchy subs k names = Ok names' →
  all_named names'.
Proof.
  induction 1 as [|[sub name] rest Hsub Hrest IH]; intros k names names' Hn;
    simpl.
  - by intros [= <-].
  - destruct (call names sub _) as [names1|e] eqn:Hcall; [simpl|done].
    apply IH. by eapply Hsub.
Qed.

Lemma call_all_named fragment :
  ∀ names hierarchy names',
  all_named names → call names fragment hierarchy = Ok names' →
  all_named names'.
Proof.
  induction fragment as [drivers domains statements subs IH]
    using Fragment_nested_ind.
  intros names hierarchy names' Hn. simpl.
  destruct (domain_loop domains hierarchy drivers names) as [names1|e] eqn:Hd;
    [simpl|done].
  apply subfragment_loop_all_named; [done|].
  apply statement_loop_all_named. by eapply domain_loop_all_named.
Qed.

Lemma trace_names_spec signal_names traces :
  ∀ acc,
  all_named acc →
  all_named (trace_names signal_names traces acc) ∧
  (∀ id, id ∈ named acc → id ∈ named (trace_names signal_names traces acc)) ∧
  (∀ trace, trace ∈ traces →
     Signal.sig_id trace ∈ named signal_names ∨
     Signal.sig_id trace ∈ named (trace_names signal_names traces acc)).
Proof.
  induction traces as [|trace rest IH]; intros acc Hacc; simpl.
  - split_and!; [done|done|]. by intros t ?%elem_of_nil.
  - set (acc' := if bool_decide _ then acc else _).
    assert (Hacc' : all_named acc' ∧
                    (∀ id, id ∈ named acc → id ∈ named acc') ∧
                    (Signal.sig_id trace ∈ named signal_names ∨
                     Signal.sig_id trace ∈ named acc')).
    { subst acc'. unfold named. case_bool_decide as Hknown.
      - split_and!; [done|done|by left].
      - case_bool_decide as Hacck.
        + split_and!.
          * unfold all_named in *. apply Forall_fmap.
            eapply Forall_impl; [exact Hacc|]. intros [s xs] Hne. simpl.
            by case_bool_decide.
          * intros id. rewrite <-list_fmap_compose.
            assert (Hsame : (Signal.sig_id ∘ fst
                  ∘ (λ e : Signal.t * list (list string * string),
                       if bool_decide (Signal.sig_id e.1 = Signal.sig_id trace)
                       then (e.1, [(["bench"], Signal.name trace)]) else e))
                  <$> acc = (Signal.sig_id ∘ fst) <$> acc).
            { apply list_fmap_ext. intros i [s xs] _. simpl.
              by case_bool_decide. }
            by rewrite Hsame.
          * right. rewrite <-list_fmap_compose.
            assert (Hsame : (Signal.sig_id ∘ fst
                  ∘ (λ e : Signal.t * list (list string * string),
                       if bool_decide (Signal.sig_id e.1 = Signal.sig_id trace)
                       then (e.1, [(["bench"], Signal.name trace)]) else e))
                  <$> acc = (Signal.sig_id ∘ fst) <$> acc).
            { apply list_fmap_ext. intros i [s xs] _. simpl.
              by case_bool_decide. }
            by rewrite Hsame.
        + split_and!.
          * apply Forall_app. split; [done|]. by repeat constructor.
          * intros id Hid. rewrite fmap_app. apply elem_of_app. by left.
          * right. rewrite fmap_app. apply elem_of_app. right.
            apply list_elem_of_singleton. done. }
    destruct Hacc' as (Hn & Hmono & Htrace).
    destruct (IH acc' Hn) as (Hn' & Hmono' & Hrest).
    split_and!; [done|by intros id ?; apply Hmono', Hmono|].
    intros t [->|Ht]%elem_of_cons; [|by apply Hrest].
    destruct Htrace as [?|?]; [by left|right; by apply Hmono'].
Qed.

#[local] Arguments register : simpl never.

Lemma names_loop_names signal var_type var_size var_init names :
  ∀ st st',
  names_loop signal var_type var_size var_init names st = Some (st', None) →
  dom st.2 ⊆ dom st'.2 ∧
  (names ≠ [] → Signal.sig_id signal ∈ dom st'.2).
Proof.
  induction names as [|[var_scope var_name] rest IH];
    intros [[writer vcd_vars] gtkw_names] st'; simpl.
  - by intros [= <-].
  - destruct (has_blank var_name); [done|].
    destruct (register _ _ _ _ _ _ _ _ _ _)
      as [[[[writer1 vcd_vars1] nm]|x]|]; [|done..].
    intros Hloop. apply IH in Hloop as [Hsub _]. simpl in Hsub.
    destruct (gtkw_names !! Signal.sig_id signal) eqn:Hg.
    + split; [done|]. intros _. apply Hsub. by apply elem_of_dom.
    + rewrite dom_insert_L in Hsub. split; [set_solver|]. intros _.
      set_solver.
Qed.

Lemma signals_loop_names items :
  ∀ st st',
  signals_loop items st = Some (st', None) →
  dom st.2 ⊆ dom st'.2 ∧
  ∀ signal names, (signal, names) ∈ items → names ≠ [] →
                  Signal.sig_id signal ∈ dom st'.2.
Proof.
  induction items as [|[signal names] rest IH]; intros st st'; simpl.
  - intros [= <-]. split; [done|]. by intros ?? ?%elem_of_nil.
  - destruct (var_of signal) as [[[var_type var_size] var_init]|x]; [|done].
    destruct (names_loop signal var_type var_size var_init names st)
      as [[st1 [e1|]]|] eqn:Hn; [done| |done].
    intros Hrest. apply names_loop_names in Hn as [Hsub1 Hin1].
    apply IH in Hrest as [Hsub2 Hin2]. split; [set_solver|].
    intros sg ns [[= -> ->]|Hin]%elem_of_cons Hne.
    + by apply Hsub2, Hin1.
    + by eapply Hin2.
Qed.

Lemma trace_loop_spec gtkw_names traces :
  (∀ trace, trace ∈ traces → Signal.sig_id trace ∈ dom gtkw_names) →
  ∀ save,
  ∃ lines,
    trace_loop gtkw_names traces save = Ok (save ++ lines) ∧
    length lines = length traces.
Proof.
  induction traces as [|trace rest IH]; intros Hall save; simpl.
  - exists []. by rewrite app_nil_r.
  - destruct (gtkw_names !! Signal.sig_id trace) as [[var_scope var_name]|]
      eqn:Hg.
    + destruct (IH (λ t Ht, Hall t (proj2 (elem_of_cons _ _ _) (or_intror Ht)))
                  (save ++ [GTKWSave.trace
                              (join_dots (var_scope ++ [var_name])
                               +:+ trace_suffix trace)]))
        as (lines & -> & Hlen).
      eexists (_ :: lines). rewrite <-app_assoc. split; [done|].
      simpl. by rewrite Hlen.
    + exfalso. apply not_elem_of_dom in Hg. apply Hg, Hall.
      apply elem_of_cons. by left.
Qed.

End close_facts.

(** After a constructor that was given a log file and raised nothing,
    [close] raises only what a file object raises: the log file asked for
    its name or its position, which happens only when a view file was asked
    for, or one of the two files being closed.  An [io.StringIO] passed as
    the log file has no name.  It never fails to find the name of a
    requested trace.  When [close] returns, the log is closed at the given
    time and no value-change record was added, and, when a view file was
    asked for, the view has the three header lines and one trace line per
    requested trace. *)
Theorem recorder_closes_after_setup (open_ : string → result File.t)
    (library : VCDWriter.checks) (fragment : Fragment) (vcd_file : file_arg)
    (gtkw_file : option file_arg) (traces : list Signal.t)
    (self : _VCDWriter.t) (timestamp : Z) :
  _VCDWriter.__init__ open_ library fragment (Some vcd_file) gtkw_file traces
    = Some (self, None) →
  ∃ log_file writer,
    _VCDWriter.open_file open_ (Some vcd_file) = Ok (Some log_file) ∧
    _VCDWriter.open_file open_ gtkw_file = Ok (_VCDWriter.gtkw_file self) ∧
    _VCDWriter.vcd_file self = Some log_file ∧
    _VCDWriter.vcd_writer self = Some writer ∧
    let closed := VCDWriter.close writer timestamp in
    match _VCDWriter.close self timestamp with
    | Raise e =>
        (gtkw_file ≠ None ∧
         (File.name log_file = Raise e
          ∨ File.tell log_file (Some closed) = Raise e))
        ∨ File.close log_file = Some e
        ∨ _VCDWriter.gtkw_file self ≫= File.close = Some e
    | Ok self' =>
        _VCDWriter.vcd_writer self' = Some closed ∧
        log self' = log self ∧
        match gtkw_file with
        | None => _VCDWriter.gtkw_save self' = None
        | Some _ =>
            ∃ path size lines,
              File.name log_file = Ok path ∧
              File.tell log_file (Some closed) = Ok size ∧
              _VCDWriter.gtkw_save self' =
                Some ([GTKWSave.dumpfile path; GTKWSave.dumpfile_size size;
                       GTKWSave.treeopen "top"] ++ lines) ∧
              length lines = length traces
        end
    end.
Proof.
  unfold _VCDWriter.__init__.
  destruct (_VCDWriter.open_file open_ (Some vcd_file)) as [[log_file|]|x]
    eqn:Hlog; [| |done].
  2: { by destruct vcd_file as [path|file]; simpl in Hlog;
         [destruct (open_ path); simpl in Hlog|]. }
  destruct (_VCDWriter.open_file open_ gtkw_file) as [view|x] eqn:Hview;
    [|done].
  destruct (_NameExtractor.extract fragment) as [signal_names|x] eqn:Hx;
    [|done].
  simpl.
  destruct (_VCDWriter.signals_loop _ _)
    as [[[[writer vcd_vars] gtkw_names] e]|] eqn:Hloop; [|done].
  intros [= <- ->]. exists log_file, writer. split_and!; [done..|].
  unfold _VCDWriter.close, _VCDWriter.close_file, log. simpl.
  destruct gtkw_file as [g|]; simpl.
  - assert (view ≠ None) as Hsome.
    { destruct g as [path|file]; simpl in Hview;
        [destruct (open_ path); simpl in Hview|]; by simplify_eq. }
    destruct view as [view|]; [clear Hsome|done]. simpl.
    destruct (File.name log_file) as [path|x]; [simpl|by left; split; auto].
    destruct (File.tell log_file _) as [size|x]; [simpl|by left; split; auto].
    assert (Hall : ∀ trace, trace ∈ traces →
                            Signal.sig_id trace ∈ dom gtkw_names).
    { intros trace Ht.
      assert (Hsn : all_named signal_names).
      { eapply call_all_named; [|exact Hx]. constructor. }
      destruct (trace_names_spec signal_names traces [])
        as (Htn & _ & Htr); [constructor|].
      apply signals_loop_names in Hloop as [_ Hin]. simpl in Hin.
      assert (Hid : Signal.sig_id trace
                    ∈ named (signal_names
                             ++ _VCDWriter.trace_names signal_names traces [])).
      { unfold named. rewrite fmap_app, elem_of_app. by apply Htr. }
      apply list_elem_of_fmap in Hid as [[sg ns] [Hid Hitem]].
      simpl in Hid. rewrite Hid. apply (Hin sg ns Hitem).
      assert (Hnamed : all_named (signal_names
                         ++ _VCDWriter.trace_names signal_names traces []))
        by by apply Forall_app.
      unfold all_named in Hnamed. rewrite Forall_forall in Hnamed.
      by apply (Hnamed _ Hitem). }
    destruct (trace_loop_spec gtkw_names traces Hall
                [GTKWSave.dumpfile path; GTKWSave.dumpfile_size size;
                 GTKWSave.treeopen "top"])
      as (lines & Htl & Hlen).
    rewrite Htl. simpl.
    destruct (File.close log_file) as [x|]; simpl; [by right; left|].
    destruct (File.close view) as [x|]; simpl; [by right; right|].
    split_and!; [done..|]. by exists path, size, lines.
  - assert (view = None) as ->; [simpl in Hview; by simplify_eq|]. simpl.
    destruct (File.close log_file) as [x|]; simpl; [by right; left|done].
Qed.

Lemma recorder_closes_after_setup_witness :
  ∃ self,
    _VCDWriter.__init__ example_open no_checks example_fragment
      (Some (Path "out.vcd")) (Some (Path "out.gtkw")) [example_q]
      = Some (self, None) ∧
    ∃ writer self' lines,
      _VCDWriter.vcd_writer self = Some writer ∧
      _VCDWriter.close self 50 = Ok self' ∧
      _VCDWriter.vcd_writer self' = Some (VCDWriter.close writer 50) ∧
      log self' = log self ∧
      _VCDWriter.gtkw_save self' =
        Some ([GTKWSave.dumpfile "out.vcd"; GTKWSave.dumpfile_size 0;
               GTKWSave.treeopen "top"] ++ lines) ∧
      length lines = length [example_q].
Proof.
  destruct (_VCDWriter.__init__ example_open no_checks example_fragment
              (Some (Path "out.vcd")) (Some (Path "out.gtkw")) [example_q])
    as [[self e]|] eqn:Hinit; [|by vm_compute in Hinit].
  assert (e = None) as ->.
  { vm_compute in Hinit. by injection Hinit as _ <-. }
  exists self. split; [reflexivity|].
  destruct (recorder_closes_after_setup example_open no_checks
              example_fragment (Path "out.vcd") (Some (Path "out.gtkw"))
              [example_q] self 50 Hinit)
    as (log_file & writer & Hopen & Hview & Hfile & Hwriter & Hclose).
  injection Hopen as <-. simpl in Hclose.
  destruct (_VCDWriter.close self 50) as [self'|x].
  - destruct Hclose as (Hw & Hl & path & size & lines & [= <-] & [= <-]
                        & Hs & Hlen).
    by exists writer, self', lines.
  - exfalso. simpl in Hview. injection Hview as Hview. rewrite <-Hview in Hclose.
    simpl in Hclose. by destruct Hclose as [[_ [?|?]]|[?|?]].
Defined.

(** The log file given as an [io.StringIO], which has no name, with a view
    file: the constructor raises nothing and [close] fails. *)
Lemma nameless_log_file_fails_at_close :
  let buffer := File.mk (Raise AttributeError) (λ _, Ok 0) None in
  ∃ self,
    _VCDWriter.__init__ example_open no_checks example_fragment
      (Some (FileObject buffer)) (Some (Path "out.gtkw")) [example_q]
      = Some (self, None) ∧
    _VCDWriter.close self 50 = Raise AttributeError.
Proof. eexists. split; reflexivity. Qed.

(** A view file without a log file cannot be closed: the constructor
    accepts the request, and [close] then fails with [AttributeError] when
    it asks the missing log file for its name. *)
Theorem view_without_log_fails_at_close (open_ : string → result File.t)
    (library : VCDWriter.checks) (fragment : Fragment) (view : file_arg)
    (view_file : File.t) (traces : list Signal.t)
    (self : _VCDWriter.t) (e : option exn) (timestamp : Z) :
  _VCDWriter.open_file open_ (Some view) = Ok (Some view_file) →
  _VCDWriter.__init__ open_ library fragment None (Some view) traces
    = Some (self, e) →
  _VCDWriter.close self timestamp = Raise AttributeError.
Proof.
  unfold _VCDWriter.__init__. intros ->. simpl.
  destruct (_NameExtractor.extract fragment); by intros [= <- <-].
Qed.

Lemma view_without_log_fails_at_close_witness :
  ∃ self,
    _VCDWriter.open_file example_open (Some (Path "out.gtkw"))
      = Ok (Some (File.mk (Ok "out.gtkw") (λ _, Ok 0) None)) ∧
    _VCDWriter.__init__ example_open no_checks example_fragment None
      (Some (Path "out.gtkw")) [example_q] = Some (self, None) ∧
    _VCDWriter.close self 50 = Raise AttributeError.
Proof.
  eexists. split; [reflexivity|]. split; [reflexivity|].
  apply (view_without_log_fails_at_close example_open no_checks
           example_fragment (Path "out.gtkw") _ [example_q] _ None 50 eq_refl).
  reflexivity.
Defined.

(** * Who runs after an advance *)

Section advance_more.
Import _Timeline.

Lemma scan_keys now items :
  ∀ np nd np' nd',
  scan now items np nd = Ok (np', nd') →
  ∀ p, p ∈ np' → p ∈ np ∨ p ∈ items.*1.
Proof.
  induction items as [|[q [d|]] rest IH]; intros np nd np' nd'; simpl.
  - intros [= <- <-] p Hp. by left.
  - assert (Hstep : ∀ cleared : gset nat,
              (∀ p, p ∈ cleared → p ∈ np) →
              scan now rest ({[q]} ∪ cleared) (Some d) = Ok (np', nd') →
              ∀ p, p ∈ np' → p ∈ np ∨ p ∈ q :: rest.*1).
    { intros cleared Hc Hscan p Hp.
      destruct (IH _ _ _ _ Hscan p Hp) as [[->%elem_of_singleton|Hin]
                                             %elem_of_union|Hin].
      - right. apply elem_of_cons. by left.
      - left. by apply Hc.
      - right. apply elem_of_cons. by right. }
    assert (Hskip : scan now rest np nd = Ok (np', nd') →
                    ∀ p, p ∈ np' → p ∈ np ∨ p ∈ q :: rest.*1).
    { intros Hscan p Hp. destruct (IH _ _ _ _ Hscan p Hp) as [?|?];
        [by left|]. right. apply elem_of_cons. by right. }
    destruct nd as [n|].
    + case_bool_decide; [|done]. case_bool_decide; [|done].
      case_bool_decide; apply Hstep; [by intros p ?%not_elem_of_empty|done].
    + case_bool_decide; [|done]. by apply Hstep.
  - intros [= <- <-] p [->%elem_of_singleton|Hin]%elem_of_union.
    + right. apply elem_of_cons. by left.
    + destruct nd; [by apply not_elem_of_empty in Hin|by left].
Qed.

Lemma advance_wakes_registered self procs self' procs' woke :
  advance self procs = Ok (self', procs', woke) →
  ∀ p, is_runnable procs' p = true →
       is_runnable procs p = true ∨
       (p ∈ (deadlines self).*1 ∧ p ∉ (deadlines self').*1).
Proof.
  unfold advance.
  destruct (scan _ _ _ _) as [[np nd]|e] eqn:Hscan; [simpl|done].
  case_bool_decide; [intros [= <- <- <-] p Hp; by left|].
  destruct (wake_all_spec (elements np) (deadlines self) procs)
    as [Hds Hprocs].
  destruct (wake_all (elements np) (deadlines self) procs) as [ds procs1].
  simpl in *. intros [= <- <- <-] p Hp. simpl.
  unfold is_runnable in *. rewrite Hprocs in Hp.
  destruct (decide (p ∈ elements np)) as [Hin|Hnin]; [|by left].
  right. split.
  - apply elem_of_elements in Hin.
    destruct (scan_keys _ _ _ _ _ _ Hscan p Hin) as [?%not_elem_of_empty|?];
      done.
  - rewrite Hds. intros [[q d] [-> [Hq _]%list_elem_of_filter]]
                          %list_elem_of_fmap. by apply Hq.
Qed.

End advance_more.

(** When the processes do not set their own [runnable] flag, the processes
    that are runnable after a call of [advance] are processes the timeline
    has just woken: each of them had a registration when the step ended,
    and that registration is gone. *)
Theorem runnable_after_advance_was_woken {L : Type}
    (run : nat → L → _PySimulation.t → Process
           → result (L * _PySimulation.t * Process))
    (fuel : nat) (self self' : PySimEngine.t (L := L)) (continue : bool) :
  keeps_runnable run →
  PySimEngine.advance run fuel self = Some (Ok (self', continue)) →
  ∃ stepped,
    PySimEngine._step run fuel self = Some (Ok stepped) ∧
    ∀ process,
      is_runnable (PySimEngine._processes self') process = true →
      process ∈ (_Timeline.deadlines
                   (_PySimulation.timeline (PySimEngine._state stepped))).*1 ∧
      process ∉ (_Timeline.deadlines
                   (_PySimulation.timeline (PySimEngine._state self'))).*1.
Proof.
  intros Hrun. unfold PySimEngine.advance.
  destruct (PySimEngine._step run fuel self) as [[stepped|e]|] eqn:Hstep;
    [|done..].
  destruct (_Timeline.advance _ _) as [[[timeline procs] woke]|e] eqn:Hadv;
    [simpl|done].
  intros [= <- <-]. exists stepped. split; [done|]. intros process Hp.
  simpl in *.
  destruct (advance_wakes_registered _ _ _ _ _ Hadv process Hp) as [Hr|?];
    [|done].
  destruct (step_ends_quiet_aux run fuel self stepped Hrun Hstep) as [_ Hq].
  by rewrite Hq in Hr.
Qed.

Lemma runnable_after_advance_was_woken_witness :
  let self :=
    PySimEngine.mk
      (_PySimulation.mk (_Timeline.mk 0 [(1%nat, Some 5)])
         {[ 0%nat := (example_q, 0%nat) ]} [_PySignalState.init example_q] ∅)
      example_fragment ({[ 1%nat := mkProcess true false ]} : ProcStore) () [] in
  keeps_runnable write_and_write_back ∧
  ∃ self' continue stepped,
    PySimEngine.advance write_and_write_back 2 self
      = Some (Ok (self', continue)) ∧
    PySimEngine._step write_and_write_back 2 self = Some (Ok stepped) ∧
    is_runnable (PySimEngine._processes self') 1 = true ∧
    ∀ process,
      is_runnable (PySimEngine._processes self') process = true →
      process ∈ (_Timeline.deadlines
                   (_PySimulation.timeline (PySimEngine._state stepped))).*1 ∧
      process ∉ (_Timeline.deadlines
                   (_PySimulation.timeline (PySimEngine._state self'))).*1.
Proof.
  intros self.
  assert (Hrun : keeps_runnable write_and_write_back).
  { intros process locals state flags locals' state' flags'.
    unfold write_and_write_back.
    destruct (_PySimulation.slot_set state 0 1) as [s1|]; [simpl|done].
    destruct (_PySimulation.slot_set s1 0 0) as [s2|]; [simpl|done].
    by intros [= <- <- <-]. }
  split; [exact Hrun|].
  destruct (PySimEngine.advance write_and_write_back 2 self)
    as [[[self' continue]|e]|] eqn:Hadv; [|by vm_compute in Hadv..].
  destruct (runnable_after_advance_was_woken write_and_write_back 2 self self'
              continue Hrun Hadv) as (stepped & Hstep & Hall).
  exists self', continue, stepped. split_and!; [done|done| |exact Hall].
  vm_compute in Hadv. by injection Hadv as <- <-.
Defined.
